(** * Directive processor of gears (gears/processors.py)

    A shallow embedding of [DirectivesProcessor] and of the library
    functions it calls (byte-string methods, the [re] backtracking matcher on
    the two patterns of the class, [shlex.split] and the [posixpath]
    helpers), followed by the properties of the header split, the directive
    grammar, directive dispatch and fragment assembly.

    Text is the Python 2 [str] of the source: a sequence of 8-bit
    characters, here [list ascii].  [os.path] is [posixpath]. *)

From Stdlib Require Import List Ascii String Bool Arith Lia Permutation Sorted.
Import ListNotations.

Set Implicit Arguments.

(** ** Byte strings *)

Definition str := list ascii.

Definition py (s : string) : str := list_ascii_of_string s.

(** The text of one newline character. *)
Definition newline : str := ["010"%char].

Definition str_eqb (a b : str) : bool :=
  if list_eq_dec ascii_dec a b then true else false.

Definition code (c : ascii) : nat := nat_of_ascii c.

Definition in_chars (c : ascii) (set : str) : bool :=
  existsb (Ascii.eqb c) set.

(** [c.isspace()] and the class [\s] of [re] without flags:
    space, [\t], [\n], [\v], [\f], [\r]. *)
Definition isspace (c : ascii) : bool :=
  let n := code c in (n =? 32) || ((9 <=? n) && (n <=? 13)).

(** The class [\w] of [re] on a byte string without LOCALE or UNICODE:
    [a-zA-Z0-9_]. *)
Definition isword (c : ascii) : bool :=
  let n := code c in
  ((97 <=? n) && (n <=? 122)) || ((65 <=? n) && (n <=? 90))
  || ((48 <=? n) && (n <=? 57)) || (n =? 95).

Fixpoint lstrip (s : str) : str :=
  match s with
  | c :: t => if isspace c then lstrip t else s
  | [] => []
  end.

Definition rstrip (s : str) : str := rev (lstrip (rev s)).

(** [s.strip()] *)
Definition strip (s : str) : str := lstrip (rstrip s).

(** [sep.join(parts)] *)
Fixpoint join (sep : str) (parts : list str) : str :=
  match parts with
  | [] => []
  | [p] => p
  | p :: rest => p ++ sep ++ join sep rest
  end.

(** [s.splitlines()] of a byte string: line ends are [\n], [\r\n] and [\r];
    a final line end opens no further line.  [cur] is the current line,
    reversed. *)
Fixpoint splitlines_from (cur : str) (s : str) : list str :=
  match s with
  | [] => match cur with [] => [] | _ => [rev cur] end
  | c :: t =>
      if Ascii.eqb c "010" then rev cur :: splitlines_from [] t
      else if Ascii.eqb c "013" then
        match t with
        | c' :: t' =>
            if Ascii.eqb c' "010" then rev cur :: splitlines_from [] t'
            else rev cur :: splitlines_from [] t
        | [] => rev cur :: splitlines_from [] t
        end
      else splitlines_from (c :: cur) t
  end.

Definition splitlines (s : str) : list str := splitlines_from [] s.

(** [enumerate(xs)] *)
Fixpoint enumerate_from {A : Type} (n : nat) (xs : list A) : list (nat * A) :=
  match xs with
  | [] => []
  | x :: t => (n, x) :: enumerate_from (S n) t
  end.

Definition enumerate {A : Type} (xs : list A) := enumerate_from 0 xs.

(** Comparison of byte strings, [a <= b] of Python 2 [str]: lexicographic on
    the character codes, a proper prefix first. *)
Fixpoint str_leb (a b : str) : bool :=
  match a, b with
  | [], _ => true
  | _ :: _, [] => false
  | x :: a', y :: b' =>
      if code x <? code y then true
      else if code y <? code x then false
      else str_leb a' b'
  end.

(** ** Exceptions and results *)

Inductive exn : Type :=
| InvalidDirective
| FileNotFound
| ValueError (msg : string)
| IndexError
| OtherError (tag : nat).

Inductive result (A : Type) : Type :=
| Ok (a : A)
| Raise (e : exn).

Arguments Ok {A} a.
Arguments Raise {A} e.

(** [xs[i]] *)
Definition getitem {A : Type} (xs : list A) (i : nat) : result A :=
  match nth_error xs i with
  | Some x => Ok x
  | None => Raise IndexError
  end.

(** ** The backtracking matcher of [re]

    The constructs of the two patterns of the class.  A match state is the
    offset in the subject, the text from there on and the spans of the
    groups closed so far. *)

Inductive regex : Type :=
| Chr (c : ascii)
| Cls (p : ascii -> bool)
| AnyChar
| Bol
| Eol
| Seq (r1 r2 : regex)
| Alt (r1 r2 : regex)
| Star (r : regex)
| LazyStar (r : regex)
| Opt (r : regex)
| Group (n : nat) (r : regex).

(** [r+] is [r] followed by a greedy [r*]. *)
Definition Plus (r : regex) : regex := Seq r (Star r).

Record mstate : Type := MState {
  pos : nat;
  rest : str;
  caps : list (nat * (nat * nat))
}.

Definition advance (st : mstate) (t : str) : mstate :=
  MState (S (pos st)) t (caps st).

Definition set_cap (n : nat) (span : nat * nat) (st : mstate) : mstate :=
  MState (pos st) (rest st) ((n, span) :: caps st).

(** [bt r k st]: match [r] at [st], then the rest of the pattern [k];
    alternatives are tried in the order of the engine: the left branch of
    [|] first, one more iteration first for a greedy repeat, the rest of the
    pattern first for a lazy one.  An iteration of a repeat has to consume
    text; the repeats of both patterns always do. *)
Fixpoint bt (r : regex) (k : mstate -> option mstate) (st : mstate)
  : option mstate :=
  match r with
  | Chr c =>
      match rest st with
      | x :: t => if Ascii.eqb x c then k (advance st t) else None
      | [] => None
      end
  | Cls p =>
      match rest st with
      | x :: t => if p x then k (advance st t) else None
      | [] => None
      end
  | AnyChar =>
      match rest st with
      | _ :: t => k (advance st t)
      | [] => None
      end
  | Bol => if pos st =? 0 then k st else None
  | Eol =>
      match rest st with
      | [] => k st
      | [x] => if Ascii.eqb x "010" then k st else None
      | _ => None
      end
  | Seq r1 r2 => bt r1 (bt r2 k) st
  | Alt r1 r2 =>
      match bt r1 k st with
      | Some m => Some m
      | None => bt r2 k st
      end
  | Star r1 =>
      (fix loop (fuel : nat) (st : mstate) : option mstate :=
         match fuel with
         | 0 => k st
         | S fuel' =>
             match bt r1 (fun st' =>
                            if List.length (rest st') <? List.length (rest st)
                            then loop fuel' st' else None) st with
             | Some m => Some m
             | None => k st
             end
         end) (List.length (rest st)) st
  | LazyStar r1 =>
      (fix loop (fuel : nat) (st : mstate) : option mstate :=
         match fuel with
         | 0 => k st
         | S fuel' =>
             match k st with
             | Some m => Some m
             | None =>
                 bt r1 (fun st' =>
                          if List.length (rest st') <? List.length (rest st)
                          then loop fuel' st' else None) st
             end
         end) (List.length (rest st)) st
  | Opt r1 =>
      match bt r1 k st with
      | Some m => Some m
      | None => k st
      end
  | Group n r1 =>
      bt r1 (fun st' => k (set_cap n (pos st, pos st') st')) st
  end.

(** [pattern.match(s)]: a match anchored at offset 0. *)
Definition re_match (r : regex) (s : str) : option mstate :=
  bt r (fun st => Some st) (MState 0 s []).

(** The match tried at offset [i], where [t] is the subject from [i] on. *)
Definition re_match_at (r : regex) (i : nat) (t : str) : option mstate :=
  bt r (fun st => Some st) (MState i t []).

(** [m.group(0)] of a match that started at offset 0. *)
Definition group0 (s : str) (m : mstate) : str := firstn (pos m) s.

Fixpoint lookup_cap (n : nat) (cs : list (nat * (nat * nat)))
  : option (nat * nat) :=
  match cs with
  | [] => None
  | (i, span) :: t => if i =? n then Some span else lookup_cap n t
  end.

(** [m.group(n)]: the text of the last span recorded for group [n];
    [None] when the group took no part in the match. *)
Definition group (n : nat) (s : str) (m : mstate) : option str :=
  match lookup_cap n (caps m) with
  | Some (b, e) => Some (firstn (e - b) (skipn b s))
  | None => None
  end.

(** [pattern.sub('', s)]: the subject without the spans of the successive
    matches, found from left to right.  Where no match starts, or only an
    empty one, the character is kept and the scan moves on by one. *)
Fixpoint sub_from (r : regex) (fuel : nat) (i : nat) (t : str) : str :=
  match fuel with
  | 0 => t
  | S fuel' =>
      let keep :=
        match t with
        | [] => []
        | c :: t' => c :: sub_from r fuel' (S i) t'
        end in
      match re_match_at r i t with
      | Some m =>
          if pos m =? i then keep else sub_from r fuel' (pos m) (rest m)
      | None => keep
      end
  end.

Definition re_sub_empty (r : regex) (s : str) : str :=
  sub_from r (S (List.length s)) 0 s.

(** ** [shlex.split(s)]

    The lexer in POSIX mode with [whitespace_split] set and no comment
    characters, as [split] configures it.  [lex] follows [read_token]
    character by character; where [read_token] breaks out of its loop the
    token is handed over and the next call starts on the text that is left,
    with the lexer state kept. *)

Inductive lexstate : Type :=
| S_space                 (* state ' ' *)
| S_word                  (* state 'a' *)
| S_quote (q : ascii)     (* state in self.quotes *)
| S_escape (e : ascii).   (* state in self.escape *)

Definition shlex_whitespace : str := [" "; "009"; "013"; "010"]%char.
Definition shlex_quotes : str := ["039"; "034"]%char.
Definition shlex_escape : str := ["\"]%char.
Definition shlex_escapedquotes : str := ["034"]%char.

(** The end of [read_token]: an empty result that was not quoted is the
    end-of-input token [None]. *)
Definition token_result (quoted : bool) (token : str) : option str :=
  match token with
  | [] => if quoted then Some [] else None
  | _ => Some token
  end.

(** [list(lex)] stops at the first end-of-input token. *)
Definition yield_token (tok : option str) (more : result (list str))
  : result (list str) :=
  match tok with
  | None => Ok []
  | Some t =>
      match more with
      | Ok ts => Ok (t :: ts)
      | Raise e => Raise e
      end
  end.

Definition in_quotes (st : lexstate) : bool :=
  match st with S_quote _ => true | _ => false end.

Fixpoint lex (state escapedstate : lexstate) (quoted : bool) (token : str)
  (input : str) : result (list str) :=
  match input with
  | [] =>
      match state with
      | S_space | S_word =>
          (* end of file: the state becomes None and the following call
             returns the end-of-input token *)
          yield_token (token_result quoted token) (Ok [])
      | S_quote _ => Raise (ValueError "No closing quotation")
      | S_escape _ => Raise (ValueError "No escaped character")
      end
  | nextchar :: input' =>
      match state with
      | S_space =>
          if in_chars nextchar shlex_whitespace then
            if negb (str_eqb token []) || quoted
            then yield_token (token_result quoted token)
                             (lex S_space S_space false [] input')
            else lex S_space escapedstate quoted token input'
          else if in_chars nextchar shlex_escape then
            lex (S_escape nextchar) S_word quoted token input'
          else if in_chars nextchar shlex_quotes then
            lex (S_quote nextchar) escapedstate quoted token input'
          else
            (* a word character, or any other one under whitespace_split *)
            lex S_word escapedstate quoted [nextchar] input'
      | S_quote q =>
          if Ascii.eqb nextchar q then
            lex S_word escapedstate true token input'
          else if in_chars nextchar shlex_escape
                  && in_chars q shlex_escapedquotes then
            lex (S_escape nextchar) (S_quote q) true token input'
          else
            lex (S_quote q) escapedstate true (token ++ [nextchar]) input'
      | S_escape e =>
          let token1 :=
            match escapedstate with
            | S_quote q =>
                if negb (Ascii.eqb nextchar e) && negb (Ascii.eqb nextchar q)
                then token ++ [e] else token
            | _ => token
            end in
          lex escapedstate escapedstate quoted (token1 ++ [nextchar]) input'
      | S_word =>
          if in_chars nextchar shlex_whitespace then
            if negb (str_eqb token []) || quoted
            then yield_token (token_result quoted token)
                             (lex S_space S_space false [] input')
            else lex S_space escapedstate quoted token input'
          else if in_chars nextchar shlex_quotes then
            lex (S_quote nextchar) escapedstate quoted token input'
          else if in_chars nextchar shlex_escape then
            lex (S_escape nextchar) S_word quoted token input'
          else
            lex S_word escapedstate quoted (token ++ [nextchar]) input'
      end
  end.

Definition shlex_split (s : str) : result (list str) :=
  lex S_space S_space false [] s.

(** ** [posixpath] *)

Definition startswith (p s : str) : bool :=
  str_eqb (firstn (List.length p) s) p.

Definition endswith (p s : str) : bool :=
  str_eqb (skipn (List.length s - List.length p) s) p.

(** [s.split('/')] *)
Fixpoint split_slash_from (cur : str) (s : str) : list str :=
  match s with
  | [] => [rev cur]
  | c :: t =>
      if Ascii.eqb c "/" then rev cur :: split_slash_from [] t
      else split_slash_from (c :: cur) t
  end.

Definition split_slash (s : str) : list str := split_slash_from [] s.

Fixpoint lstrip_slash (s : str) : str :=
  match s with
  | c :: t => if Ascii.eqb c "/" then lstrip_slash t else s
  | [] => []
  end.

(** [s.rstrip('/')] *)
Definition rstrip_slash (s : str) : str := rev (lstrip_slash (rev s)).

(** [p[:p.rfind('/') + 1]]: the text up to and including the last slash. *)
Definition upto_last_slash (p : str) : str :=
  rev ((fix drop (r : str) : str :=
          match r with
          | c :: t => if Ascii.eqb c "/" then r else drop t
          | [] => []
          end) (rev p)).

(** [posixpath.dirname(p)] *)
Definition dirname (p : str) : str :=
  let head := upto_last_slash p in
  if negb (str_eqb head []) && negb (forallb (Ascii.eqb "/") head)
  then rstrip_slash head
  else head.

(** [posixpath.join(a, b)] *)
Definition path_join (a b : str) : str :=
  if startswith (py "/") b then b
  else if str_eqb a [] || endswith (py "/") a then a ++ b
  else a ++ py "/" ++ b.

(** The loop of [normpath] over the components; [new_comps] grows and
    shrinks at its end. *)
Fixpoint norm_comps (initial_slashes : nat) (new_comps : list str)
  (comps : list str) : list str :=
  match comps with
  | [] => new_comps
  | comp :: comps' =>
      if str_eqb comp [] || str_eqb comp (py ".") then
        norm_comps initial_slashes new_comps comps'
      else if negb (str_eqb comp (py ".."))
              || ((initial_slashes =? 0)
                  && match new_comps with [] => true | _ => false end)
              || match new_comps with
                 | [] => false
                 | _ => str_eqb (last new_comps []) (py "..")
                 end
      then norm_comps initial_slashes (new_comps ++ [comp]) comps'
      else
        match new_comps with
        | [] => norm_comps initial_slashes new_comps comps'
        | _ => norm_comps initial_slashes (removelast new_comps) comps'
        end
  end.

(** [posixpath.normpath(path)] *)
Definition normpath (path : str) : str :=
  if str_eqb path [] then py "." else
  let initial_slashes :=
    if startswith (py "/") path then
      if startswith (py "//") path && negb (startswith (py "///") path)
      then 2 else 1
    else 0 in
  let comps := norm_comps initial_slashes [] (split_slash path) in
  let path' := repeat "/"%char initial_slashes ++ join (py "/") comps in
  if str_eqb path' [] then py "." else path'.

(** ** [sorted(xs, key=...)] on byte-string keys

    A stable sort: an element goes before the first one whose key is not
    smaller, so equal keys keep the order of the input. *)

Section Sorted.
Variable A : Type.
Variable key : A -> str.

Fixpoint insert_by (x : A) (l : list A) : list A :=
  match l with
  | [] => [x]
  | y :: t =>
      if str_leb (key x) (key y) then x :: l else y :: insert_by x t
  end.

Definition sorted_by (l : list A) : list A := fold_right insert_by [] l.

(** The order the sort puts its result in. *)
Definition key_le (x y : A) : Prop := str_leb (key x) (key y) = true.
End Sorted.

(** ** The two patterns of [DirectivesProcessor] *)

Definition not_newline (c : ascii) : bool := negb (Ascii.eqb c "010").

(** The block comment of the header pattern: slash, star, a lazy run of
    any characters (DOTALL), star, slash. *)
Definition block_comment : regex :=
  Seq (Chr "/") (Seq (Chr "*") (Seq (LazyStar AnyChar)
    (Seq (Chr "*") (Chr "/")))).

(** The line comment of the header pattern: two slashes, a greedy run of
    characters other than the newline, an optional newline. *)
Definition line_comment : regex :=
  Seq (Chr "/") (Seq (Chr "/") (Seq (Star (Cls not_newline))
    (Opt (Chr "010")))).

(** [header_re]: anchored at the start, one or more times (group 1):
    a run of whitespace, then (group 2) a block comment (group 3) or one or
    more line comments (group 4). *)
Definition header_re : regex :=
  Seq Bol
    (Plus (Group 1
      (Seq (Star (Cls isspace))
        (Group 2 (Alt (Group 3 block_comment)
                      (Plus (Group 4 line_comment))))))).

(** The character class of the directive text: dot, slash, single quote,
    double quote, whitespace, word characters and the hyphen. *)
Definition directive_char (c : ascii) : bool :=
  in_chars c ["."; "/"; "039"; "034"; "-"]%char || isspace c || isword c.

(** [directive_re]: anchored at the start, whitespace, one of the markers
    star, two slashes or hash, whitespace, the equals sign, whitespace, then
    (group 1) one or more word characters and a run of the class above, up
    to the end of the line. *)
Definition directive_re : regex :=
  Seq Bol
    (Seq (Star (Cls isspace))
      (Seq (Alt (Chr "*") (Alt (Seq (Chr "/") (Chr "/")) (Chr "#")))
        (Seq (Star (Cls isspace))
          (Seq (Chr "=")
            (Seq (Star (Cls isspace))
              (Seq (Group 1 (Seq (Plus (Cls isword))
                                 (Star (Cls directive_char))))
                   Eol)))))).

(** ** Generators

    What a generator function hands to the [for] loop that drives it:
    the values it yields, one at a time, until it returns or raises. *)

Inductive generator (A : Type) : Type :=
| GStop
| GYield (a : A) (next : generator A)
| GRaise (e : exn).

Arguments GStop {A}.
Arguments GYield {A} a next.
Arguments GRaise {A} e.

(** ** Computations with a state that may raise

    The state as it is when the computation returns or raises is part of
    the outcome: what was appended to a list before an exception stays
    appended. *)

Definition M (S A : Type) : Type := S -> result A * S.

Definition ret {S A : Type} (a : A) : M S A := fun s => (Ok a, s).

Definition raise {S A : Type} (e : exn) : M S A := fun s => (Raise e, s).

Definition bind {S A B : Type} (m : M S A) (f : A -> M S B) : M S B :=
  fun s =>
    match m s with
    | (Ok a, s') => f a s'
    | (Raise e, s') => (Raise e, s')
    end.

(** [try: m  except e: h] for one exception class. *)
Definition try_except {S A : Type} (m : M S A) (is_e : exn -> bool)
  (h : M S A) : M S A :=
  fun s =>
    match m s with
    | (Ok a, s') => (Ok a, s')
    | (Raise e, s') => if is_e e then h s' else (Raise e, s')
    end.

Definition of_result {S A : Type} (r : result A) : M S A := fun s => (r, s).

Declare Scope monad_scope.
Delimit Scope monad_scope with monad.
Notation "x <- m ;; k" := (bind m (fun x => k))
  (at level 61, m at next level, right associativity) : monad_scope.
Notation "m ;;; k" := (bind m (fun _ => k))
  (at level 61, right associativity) : monad_scope.

Definition is_InvalidDirective (e : exn) : bool :=
  match e with InvalidDirective => true | _ => false end.

Definition is_FileNotFound (e : exn) : bool :=
  match e with FileNotFound => true | _ => false end.

(** ** The collaborators

    [AssetAttributes], [Asset] and the environment are defined in other
    modules of the package.  The processor reads three attributes of an
    [AssetAttributes], builds one from a path, asks the environment to find
    an asset and to list a directory, builds an [Asset] and takes its
    [str].  The calls that run code of the environment or of an asset act
    on a world the processor does not see into, and may raise.  Every call
    returns or raises: a rendering that never ends (a cycle of requires
    that the collaborators do not break) has no counterpart here. *)

Class Environment : Type := {
  AssetAttributes : Type;
  Suffix : Type;
  RenderContext : Type;
  Calls : Type;
  Asset : Type;
  World : Type;
  (* asset_attributes.path, .extensions, .suffix *)
  attr_path : AssetAttributes -> str;
  attr_extensions : AssetAttributes -> list str;
  attr_suffix : AssetAttributes -> Suffix;
  (* AssetAttributes(environment, path) *)
  new_AssetAttributes : str -> AssetAttributes;
  (* environment.find(asset_attributes, logical) *)
  env_find : AssetAttributes -> bool -> M World (AssetAttributes * str);
  (* environment.list(path, suffix) *)
  env_list : str -> Suffix -> M World (list (AssetAttributes * str));
  (* Asset(asset_attributes, absolute_path, context, calls) *)
  new_Asset :
  AssetAttributes -> str -> RenderContext -> Calls -> M World Asset;
  (* str(asset) *)
  asset_str : Asset -> M World str
}.

Section Processor.
Context {E : Environment}.
Local Open Scope monad_scope.

(** The state of [process_directives]: the list [body], which the
    handlers of the directives append to, and the world of the
    collaborators. *)
Record pstate : Type := PState {
  body : list str;
  world : World
}.

(** A call of a collaborator. *)
Definition call {A : Type} (m : M World A) : M pstate A :=
  fun s =>
    let '(r, w) := m (world s) in (r, PState (body s) w).

(** [body.append(x)] *)
Definition body_append (x : str) : M pstate unit :=
  fun s => (Ok tt, PState (body s ++ [x]) (world s)).

(** The attributes of a processor, as [__init__] sets them. *)
Record DirectivesProcessor : Type := {
  asset_attributes : AssetAttributes;
  path : str;
  source : str;
  context : RenderContext;
  calls : Calls;
  source_header : str;
  source_body : str
}.

(** [DirectivesProcessor(asset_attributes, source, context, calls)] *)
Definition init (attrs : AssetAttributes) (src : str) (ctx : RenderContext)
  (cls : Calls) : DirectivesProcessor :=
  match re_match header_re src with
  | Some m =>
      {| asset_attributes := attrs; path := attr_path attrs;
         source := src; context := ctx; calls := cls;
         source_header := group0 src m;
         source_body := re_sub_empty header_re src |}
  | None =>
      {| asset_attributes := attrs; path := attr_path attrs;
         source := src; context := ctx; calls := cls;
         source_header := [];
         source_body := src |}
  end.

Variable self : DirectivesProcessor.

Definition get_relative_path (require_path : str) (is_directory : bool)
  : str :=
  let require_path := path_join (dirname (path self)) require_path in
  let require_path := normpath require_path in
  if is_directory then require_path
  else require_path ++ List.concat (attr_extensions (asset_attributes self)).

Definition find (require_path : str) : M World (AssetAttributes * str) :=
  let require_path := get_relative_path require_path false in
  let asset_attributes := new_AssetAttributes require_path in
  env_find asset_attributes true.

Definition get_asset (asset_attributes : AssetAttributes)
  (absolute_path : str) : M World Asset :=
  new_Asset asset_attributes absolute_path (context self) (calls self).

Definition process_require_directive (args : list str) (lineno : nat)
  : M pstate unit :=
  if negb (List.length args =? 1) then raise InvalidDirective
  else
    found <- try_except
               (a0 <- of_result (getitem args 0) ;; call (find a0))
               is_FileNotFound
               (raise InvalidDirective) ;;
    let '(asset_attributes, absolute_path) := found in
    asset <- call (get_asset asset_attributes absolute_path) ;;
    text <- call (asset_str asset) ;;
    body_append (strip text).

Definition process_require_self_directive (args : list str) (lineno : nat)
  : M pstate unit :=
  match args with
  | _ :: _ => raise InvalidDirective
  | [] => body_append (strip (source_body self))
  end.

(** The loop of [process_require_directory_directive] over the sorted
    listing. *)
Fixpoint append_assets (entries : list (AssetAttributes * str))
  : M pstate unit :=
  match entries with
  | [] => ret tt
  | (asset_attributes, absolute_path) :: entries' =>
      asset <- call (get_asset asset_attributes absolute_path) ;;
      text <- call (asset_str asset) ;;
      body_append (strip text) ;;;
      append_assets entries'
  end.

Definition process_require_directory_directive (args : list str)
  (lineno : nat) : M pstate unit :=
  if negb (List.length args =? 1) then raise InvalidDirective
  else
    a0 <- of_result (getitem args 0) ;;
    let path := get_relative_path a0 true in
    list <- call (env_list path (attr_suffix (asset_attributes self))) ;;
    append_assets (sorted_by (fun x => attr_path (fst x)) list).

(** The lines of the header that match the directive pattern, numbered
    from 0, each with its tokens.  Tokenising a line may raise; the
    generator then ends there.  Group 1 takes part in every match of the
    pattern, so the branch without it is never taken. *)
Fixpoint parse_lines (lines : list (nat * str))
  : generator (nat * list str) :=
  match lines with
  | [] => GStop
  | (lineno, line) :: lines' =>
      match re_match directive_re line with
      | Some m =>
          match group 1 line m with
          | Some text =>
              match shlex_split text with
              | Ok args => GYield (lineno, args) (parse_lines lines')
              | Raise e => GRaise e
              end
          | None => GRaise (OtherError 0)
          end
      | None => parse_lines lines'
      end
  end.

Definition parse_directives (header : str) : generator (nat * list str) :=
  parse_lines (enumerate (splitlines header)).

(** The body of the [try] statement of [process_directives] for one
    directive; the result is the new value of [has_require_self]. *)
Definition dispatch (lineno : nat) (args : list str)
  (has_require_self : bool) : M pstate bool :=
  name <- of_result (getitem args 0) ;;
  if str_eqb name (py "require") then
    process_require_directive (tl args) lineno ;;; ret has_require_self
  else if str_eqb name (py "require_directory") then
    process_require_directory_directive (tl args) lineno ;;;
    ret has_require_self
  else if str_eqb name (py "require_self") then
    process_require_self_directive (tl args) lineno ;;; ret true
  else raise InvalidDirective.

(** The [for] loop of [process_directives]. *)
Fixpoint directives_loop (g : generator (nat * list str))
  (has_require_self : bool) : M pstate bool :=
  match g with
  | GStop => ret has_require_self
  | GRaise e => raise e
  | GYield (lineno, args) g' =>
      flag <- try_except (dispatch lineno args has_require_self)
                         is_InvalidDirective
                         (ret has_require_self) ;;
      directives_loop g' flag
  end.

Definition process_directives : M World str :=
  fun w =>
    match directives_loop (parse_directives (source_header self)) false
            (PState [] w) with
    | (Ok has_require_self, s) =>
        let body :=
          if negb has_require_self
          then body s ++ [strip (source_body self)]
          else body s in
        (Ok (strip (join (newline ++ newline) body)), world s)
    | (Raise e, s) => (Raise e, world s)
    end.

Definition process : M World str :=
  match source_header self with
  | [] => ret (strip (source_body self) ++ newline)
  | _ =>
      source <- process_directives ;;
      ret (source ++ newline)
  end.

End Processor.

(** ** A declarative reading of the patterns

    [reach r st st']: the pattern [r] can take the matcher from [st] to
    [st'].  Whatever the backtracking matcher returns is such a path. *)

Inductive reach : regex -> mstate -> mstate -> Prop :=
| reach_chr c st t :
    rest st = c :: t -> reach (Chr c) st (advance st t)
| reach_cls p x st t :
    rest st = x :: t -> p x = true -> reach (Cls p) st (advance st t)
| reach_any x st t :
    rest st = x :: t -> reach AnyChar st (advance st t)
| reach_bol st :
    pos st = 0 -> reach Bol st st
| reach_eol st :
    rest st = [] \/ rest st = newline -> reach Eol st st
| reach_seq r1 r2 st st1 st2 :
    reach r1 st st1 -> reach r2 st1 st2 -> reach (Seq r1 r2) st st2
| reach_alt_l r1 r2 st st' :
    reach r1 st st' -> reach (Alt r1 r2) st st'
| reach_alt_r r1 r2 st st' :
    reach r2 st st' -> reach (Alt r1 r2) st st'
| reach_star_stop r st :
    reach (Star r) st st
| reach_star_more r st st1 st2 :
    reach r st st1 -> reach (Star r) st1 st2 -> reach (Star r) st st2
| reach_lazy_stop r st :
    reach (LazyStar r) st st
| reach_lazy_more r st st1 st2 :
    reach r st st1 -> reach (LazyStar r) st1 st2 ->
    reach (LazyStar r) st st2
| reach_opt_some r st st' :
    reach r st st' -> reach (Opt r) st st'
| reach_opt_none r st :
    reach (Opt r) st st
| reach_group n r st st' :
    reach r st st' -> reach (Group n r) st (set_cap n (pos st, pos st') st').

(** A match state of the subject [input]. *)
Definition state_of (input : str) (st : mstate) : Prop :=
  skipn (pos st) input = rest st /\ pos st <= List.length input.

(** ** Notions used in the statements *)

(** The values a generator yields before it stops or raises. *)
Fixpoint yielded {A : Type} (g : generator A) : list A :=
  match g with
  | GYield a g' => a :: yielded g'
  | _ => []
  end.

(** No leading, no trailing whitespace. *)
Definition no_leading_space (s : str) : Prop :=
  match s with c :: _ => isspace c = false | [] => True end.

Definition no_trailing_space (s : str) : Prop := no_leading_space (rev s).

(** The components of a normalised path: none is empty or a single dot,
    and [..] stands only in front, and only in a relative path. *)
Definition clean_component (c : str) : Prop := c <> [] /\ c <> py ".".

Definition normalised (initial_slashes : nat) (comps : list str) : Prop :=
  Forall clean_component comps /\
  exists k others,
    comps = repeat (py "..") k ++ others /\
    ~ In (py "..") others /\
    (0 < initial_slashes -> k = 0).

Section Outcomes.
Context {E : Environment}.
Variable self : DirectivesProcessor.

(** A computation that only appends to [body]: what it does does not
    depend on the fragments already there, and it leaves them alone. *)
Definition appends_only {A : Type} (m : M pstate A) : Prop :=
  forall b w,
    m (PState b w) =
    match m (PState [] w) with
    | (r, s) => (r, PState (b ++ body s) (world s))
    end.

(** What one directive does when it is run by itself, on an empty list:
    the fragments it leaves there and the new value of
    [has_require_self].  An [InvalidDirective] is swallowed as in the
    loop. *)
Definition directive_outcome (lineno : nat) (args : list str)
  (has_require_self : bool) (w : World)
  : result (list str * bool) * World :=
  match try_except (dispatch self lineno args has_require_self)
          is_InvalidDirective (ret has_require_self) (PState [] w) with
  | (Ok flag, s) => (Ok (body s, flag), world s)
  | (Raise e, s) => (Raise e, world s)
  end.

(** The fragments of the directives of a header, each directive run by
    itself, put one after the other in the order of the directives. *)
Fixpoint fragments_in_order (g : generator (nat * list str))
  (has_require_self : bool) (w : World)
  : result (list str * bool) * World :=
  match g with
  | GStop => (Ok ([], has_require_self), w)
  | GRaise e => (Raise e, w)
  | GYield (lineno, args) g' =>
      match directive_outcome lineno args has_require_self w with
      | (Ok (frags, flag), w') =>
          match fragments_in_order g' flag w' with
          | (Ok (frags', flag'), w'') => (Ok (frags ++ frags', flag'), w'')
          | (Raise e, w'') => (Raise e, w'')
          end
      | (Raise e, w') => (Raise e, w')
      end
  end.

(** A [require_self] directive without arguments. *)
Definition is_plain_require_self (args : list str) : bool :=
  match args with
  | [name] => str_eqb name (py "require_self")
  | _ => false
  end.

(** The directive-level errors: a wrong number of arguments, an unknown
    name, a [require] whose target the environment does not find.  The
    last one is raised by a call of the environment, which takes the
    world from [w] to [w']; the others leave it as it is. *)
Inductive directive_error : list str -> World -> World -> Prop :=
| require_arity rest w :
    List.length rest <> 1 ->
    directive_error (py "require" :: rest) w w
| require_directory_arity rest w :
    List.length rest <> 1 ->
    directive_error (py "require_directory" :: rest) w w
| require_self_arity a rest w :
    directive_error (py "require_self" :: a :: rest) w w
| unknown_name name rest w :
    name <> py "require" -> name <> py "require_directory" ->
    name <> py "require_self" ->
    directive_error (name :: rest) w w
| require_not_found p w w' :
    find self p w = (Raise FileNotFound, w') ->
    directive_error [py "require"; p] w w'.

(** The assets of a list rendered one after the other: the stripped text
    of each, in the order of the list. *)
Fixpoint render_in_order (entries : list (AssetAttributes * str))
  : M World (list str) :=
  match entries with
  | [] => ret []
  | (attrs, absolute_path) :: entries' =>
      bind (get_asset self attrs absolute_path) (fun asset =>
      bind (asset_str asset) (fun text =>
      bind (render_in_order entries') (fun texts =>
      ret (strip text :: texts))))
  end.
End Outcomes.

(** ** A small asset tree

    Four files under two directories; the environment lists a directory in
    the order of the table, and the world records the assets rendered. *)

Definition demo_files : list (str * str) :=
  [ (py "sub/b.js", py "B();");
    (py "sub/a.js", py " A();" ++ newline);
    (py "sub/c.js", py "C();");
    (py "lib/dep.js", py "dep();") ].

Fixpoint demo_lookup (files : list (str * str)) (p : str) : option str :=
  match files with
  | [] => None
  | (q, text) :: files' =>
      if str_eqb q p then Some text else demo_lookup files' p
  end.

Definition demo_env : Environment := {|
  AssetAttributes := str;
  Suffix := list str;
  RenderContext := unit;
  Calls := unit;
  Asset := str;
  World := list str;
  attr_path := fun a => a;
  attr_extensions := fun _ => [py ".js"];
  attr_suffix := fun _ => [py ".js"];
  new_AssetAttributes := fun p => p;
  env_find := fun a _ w =>
    match demo_lookup demo_files a with
    | Some _ => (Ok (a, py "/srv/" ++ a), w)
    | None => (Raise FileNotFound, w)
    end;
  env_list := fun dir _ w =>
    (Ok (map (fun f => (fst f, py "/srv/" ++ fst f))
           (filter (fun f => str_eqb (dirname (fst f)) dir) demo_files)), w);
  new_Asset := fun a _ _ _ w => (Ok a, w);
  asset_str := fun a w =>
    match demo_lookup demo_files a with
    | Some text => (Ok text, w ++ [a])
    | None => (Raise (OtherError 1), w)
    end
|}.

(** A processor of the demo tree for the asset [app.js]. *)
Definition demo_processor (src : str) : @DirectivesProcessor demo_env :=
  @init demo_env (py "app.js") src tt tt.

(** A state of the loop on the demo tree: the fragments and the assets
    rendered so far. *)
Definition demo_state (frags : list str) (rendered : list str)
  : @pstate demo_env := @PState demo_env frags rendered.

(** Sources for the asset [app.js]: one with the three directives, one
    whose directives fail or are rejected, one with a comment and no
    directive. *)
Definition demo_source : str := py "//= require lib/dep
//= require_self
//= require_directory sub
main();
".

Definition demo_source_errors : str := py "/*
 *= require nonexistent
 *= require_self here
 *= frobnicate foo
 *= require lib/dep
 */
main();
".

Definition demo_source_plain : str := py "/* plain words */
  main();  ".

(** ** Further notions used in the statements *)

(** How a generator ends: it stops, or it raises. *)
Fixpoint gen_end {A : Type} (g : generator A) : option exn :=
  match g with
  | GStop => None
  | GYield _ g' => gen_end g'
  | GRaise e => Some e
  end.

(** A character that is neither whitespace, nor a quote, nor the escape
    character of the lexer. *)
Definition plain_char (c : ascii) : bool :=
  negb (in_chars c shlex_whitespace) && negb (in_chars c shlex_quotes)
  && negb (in_chars c shlex_escape).

(** A word of such characters. *)
Definition plain_word (w : str) : Prop :=
  w <> [] /\ forallb plain_char w = true.

(** The three markers of a directive line. *)
Definition is_marker (mk : str) : Prop :=
  mk = py "*" \/ mk = py "//" \/ mk = py "#".

(** Collaborators that always answer: the environment finds an asset or
    raises [FileNotFound], lists every directory, and every asset is built
    and rendered without an exception. *)
Definition benign (E : Environment) : Prop :=
  (forall a logical w,
      (exists r w', env_find a logical w = (Ok r, w')) \/
      (exists w', env_find a logical w = (Raise FileNotFound, w'))) /\
  (forall p s w, exists r w', env_list p s w = (Ok r, w')) /\
  (forall a p ctx cls w, exists r w', new_Asset a p ctx cls w = (Ok r, w')) /\
  (forall a w, exists r w', asset_str a w = (Ok r, w')).

(** The demo tree with assets that render to the empty text when the
    table does not have them. *)
Definition lenient_env : Environment := {|
  AssetAttributes := str;
  Suffix := list str;
  RenderContext := unit;
  Calls := unit;
  Asset := str;
  World := list str;
  attr_path := fun a => a;
  attr_extensions := fun _ => [py ".js"];
  attr_suffix := fun _ => [py ".js"];
  new_AssetAttributes := fun p => p;
  env_find := fun a _ w =>
    match demo_lookup demo_files a with
    | Some _ => (Ok (a, py "/srv/" ++ a), w)
    | None => (Raise FileNotFound, w)
    end;
  env_list := fun dir _ w =>
    (Ok (map (fun f => (fst f, py "/srv/" ++ fst f))
           (filter (fun f => str_eqb (dirname (fst f)) dir) demo_files)), w);
  new_Asset := fun a _ _ _ w => (Ok a, w);
  asset_str := fun a w =>
    match demo_lookup demo_files a with
    | Some text => (Ok text, w ++ [a])
    | None => (Ok [], w ++ [a])
    end
|}.

Definition lenient_processor (src : str) : @DirectivesProcessor lenient_env :=
  @init lenient_env (py "app.js") src tt tt.

(** ** Patterns whose repeats consume text *)

(** A pattern that may match the empty text. *)
Fixpoint nullable (r : regex) : bool :=
  match r with
  | Chr _ | Cls _ | AnyChar => false
  | Bol | Eol => true
  | Seq r1 r2 => nullable r1 && nullable r2
  | Alt r1 r2 => nullable r1 || nullable r2
  | Star _ | LazyStar _ | Opt _ => true
  | Group _ r1 => nullable r1
  end.

(** Every repeat of the pattern has a body that takes at least one
    character. *)
Fixpoint consuming_repeats (r : regex) : bool :=
  match r with
  | Seq r1 r2 | Alt r1 r2 => consuming_repeats r1 && consuming_repeats r2
  | Star r1 | LazyStar r1 => negb (nullable r1) && consuming_repeats r1
  | Opt r1 | Group _ r1 => consuming_repeats r1
  | _ => true
  end.

(** A pattern without the start anchor. *)
Fixpoint anchor_free (r : regex) : bool :=
  match r with
  | Bol => false
  | Seq r1 r2 | Alt r1 r2 => anchor_free r1 && anchor_free r2
  | Star r1 | LazyStar r1 | Opt r1 | Group _ r1 => anchor_free r1
  | _ => true
  end.

(** One round of the header pattern: whitespace, then a block comment or
    a run of line comments. *)
Definition header_round : regex :=
  Group 1
    (Seq (Star (Cls isspace))
       (Group 2 (Alt (Group 3 block_comment)
                     (Plus (Group 4 line_comment))))).

(** Text that begins, after whitespace, with a block comment that is
    closed or with a line comment. *)
Definition opens_with_comment (s : str) : Prop :=
  exists w r,
    s = w ++ r /\ forallb isspace w = true /\
    ((exists inner tail, r = py "/*" ++ inner ++ py "*/" ++ tail) \/
     (exists tail, r = py "//" ++ tail)).

(** ** The Handlebars compiler (gears/compilers/handlebars.py)

    [template % mapping] for the two forms the template of the module
    uses: [%(key)s], replaced by the value of the key, and text copied as
    it is ([%%] stands for a percent sign).  [None] stands for the
    exceptions of the operator (a key the mapping does not have, a
    conversion that is cut short) and for conversions other than these. *)

Inductive format_mode : Type :=
| F_text                (* copying text *)
| F_percent             (* after a percent sign *)
| F_key (key : str)     (* inside the parentheses; the key so far, reversed *)
| F_conversion (key : str).   (* after the closing parenthesis *)

Fixpoint format_from (mode : format_mode) (mapping : str -> option str)
  (template : str) : option str :=
  match template with
  | [] => match mode with F_text => Some [] | _ => None end
  | c :: t =>
      match mode with
      | F_text =>
          if Ascii.eqb c "%" then format_from F_percent mapping t
          else option_map (cons c) (format_from F_text mapping t)
      | F_percent =>
          if Ascii.eqb c "(" then format_from (F_key []) mapping t
          else if Ascii.eqb c "%"
               then option_map (cons c) (format_from F_text mapping t)
               else None
      | F_key key =>
          if Ascii.eqb c ")" then format_from (F_conversion (rev key)) mapping t
          else format_from (F_key (c :: key)) mapping t
      | F_conversion key =>
          if Ascii.eqb c "s" then
            match mapping key with
            | Some value =>
                option_map (app value) (format_from F_text mapping t)
            | None => None
            end
          else None
      end
  end.

Definition format (template : str) (mapping : str -> option str)
  : option str :=
  format_from F_text mapping template.

(** The dictionary literal with the keys [name] and [source]. *)
Definition name_and_source (name source : str) (key : str) : option str :=
  if str_eqb key (py "name") then Some name
  else if str_eqb key (py "source") then Some source
  else None.

(** [SOURCE] *)
Definition SOURCE : str :=
  join newline
    [ py "(function() {";
      py "  var template  = Handlebars.template,";
      py "      templates = Handlebars.templates = Handlebars.templates || {};";
      py "  templates['%(name)s'] = template(%(source)s);";
      py "}).call(this);" ].

(** The two attributes of an asset that the compiler uses. *)
Record CompiledAsset : Type := {
  path_without_suffix : str;     (* asset.attributes.path_without_suffix *)
  processed_source : str
}.

Section Handlebars.
(** [ExecCompiler.process], defined in another module of the package:
    it runs the executable on the asset and leaves its output in
    [processed_source], or raises. *)
Variable exec_process : CompiledAsset -> result CompiledAsset.

(** [HandlebarsCompiler.process(asset)] *)
Definition handlebars_process (asset : CompiledAsset)
  : result CompiledAsset :=
  match exec_process asset with
  | Raise e => Raise e
  | Ok asset1 =>
      match format SOURCE
              (name_and_source (path_without_suffix asset1)
                               (processed_source asset1)) with
      | Some text =>
          Ok {| path_without_suffix := path_without_suffix asset1;
                processed_source := text |}
      | None => Raise (OtherError 2)
      end
  end.
End Handlebars.

(** A path component: text without a slash. *)
Definition slash_free (c : str) : Prop := ~ In "/"%char c.

(** The demo tree with an environment that raises [FileNotFound] for a
    directory that holds none of its files. *)
Definition strict_env : Environment := {|
  AssetAttributes := str;
  Suffix := list str;
  RenderContext := unit;
  Calls := unit;
  Asset := str;
  World := list str;
  attr_path := fun a => a;
  attr_extensions := fun _ => [py ".js"];
  attr_suffix := fun _ => [py ".js"];
  new_AssetAttributes := fun p => p;
  env_find := fun a _ w =>
    match demo_lookup demo_files a with
    | Some _ => (Ok (a, py "/srv/" ++ a), w)
    | None => (Raise FileNotFound, w)
    end;
  env_list := fun dir _ w =>
    match filter (fun f => str_eqb (dirname (fst f)) dir) demo_files with
    | [] => (Raise FileNotFound, w)
    | files => (Ok (map (fun f => (fst f, py "/srv/" ++ fst f)) files), w)
    end;
  new_Asset := fun a _ _ _ w => (Ok a, w);
  asset_str := fun a w =>
    match demo_lookup demo_files a with
    | Some text => (Ok text, w ++ [a])
    | None => (Raise (OtherError 1), w)
    end
|}.

Definition strict_processor (src : str) : @DirectivesProcessor strict_env :=
  @init strict_env (py "app.js") src tt tt.

Definition strict_state (frags : list str) (rendered : list str)
  : @pstate strict_env := @PState strict_env frags rendered.

(** ** Path resolution in the words of the specification

    The notions below say what the specification promises of a resolved
    path without the functions of [posixpath]: the directory that
    contains a logical path, the argument placed in that directory, and
    the lexical normal form of a path reached by collapsing its
    segments.  They are compared with [dirname], [path_join] and
    [normpath] in the properties. *)

(** A run of slashes. *)
Definition slashes (s : str) : Prop := Forall (eq "/"%char) s.

(** [directory_of p d]: [d] is the directory that contains [p].  A path
    without a slash has none; otherwise it is what stands before the last
    run of slashes, or that run when nothing stands before it. *)
Inductive directory_of : str -> str -> Prop :=
| directory_none (name : str) :
    slash_free name -> directory_of name []
| directory_root (sl name : str) :
    sl <> [] -> slashes sl -> slash_free name ->
    directory_of (sl ++ name) sl
| directory_some (d : str) (c : ascii) (sl name : str) :
    c <> "/"%char -> sl <> [] -> slashes sl -> slash_free name ->
    directory_of ((d ++ [c]) ++ sl ++ name) (d ++ [c]).

(** The argument joined to a directory: the directory, a slash unless the
    directory ends in one, and the argument; the argument alone when
    there is no directory. *)
Definition in_directory (d arg : str) : str :=
  match rev d with
  | [] => arg
  | c :: _ => if Ascii.eqb c "/" then d ++ arg else d ++ "/"%char :: arg
  end.

(** The slashes a normal form starts with: none for a relative path, two
    for a path that starts with exactly two, one otherwise. *)
Fixpoint leading_slashes (s : str) : nat :=
  match s with
  | c :: t => if Ascii.eqb c "/" then S (leading_slashes t) else 0
  | [] => 0
  end.

Definition root_slashes (s : str) : nat :=
  match leading_slashes s with
  | 0 => 0
  | 2 => 2
  | _ => 1
  end.

(** One step of collapsing the segments of a path: an empty segment or a
    dot goes away, a name goes away together with the [..] after it, and
    a [..] at the front of a rooted path goes away. *)
Inductive collapse (initial_slashes : nat) : list str -> list str -> Prop :=
| collapse_empty (l1 l2 : list str) :
    collapse initial_slashes (l1 ++ [] :: l2) (l1 ++ l2)
| collapse_dot (l1 l2 : list str) :
    collapse initial_slashes (l1 ++ py "." :: l2) (l1 ++ l2)
| collapse_parent (l1 : list str) (c : str) (l2 : list str) :
    clean_component c -> c <> py ".." ->
    collapse initial_slashes (l1 ++ c :: py ".." :: l2) (l1 ++ l2)
| collapse_root (l2 : list str) :
    0 < initial_slashes ->
    collapse initial_slashes (py ".." :: l2) l2.

Inductive collapses (initial_slashes : nat) : list str -> list str -> Prop :=
| collapses_refl (l : list str) : collapses initial_slashes l l
| collapses_step (l1 l2 l3 : list str) :
    collapse initial_slashes l1 l2 -> collapses initial_slashes l2 l3 ->
    collapses initial_slashes l1 l3.

(** The text of a normal form: the initial slashes and the components
    with slashes between them; a dot for the empty relative path. *)
Definition render (initial_slashes : nat) (comps : list str) : str :=
  match initial_slashes, comps with
  | 0, [] => py "."
  | _, _ => repeat "/"%char initial_slashes ++ join (py "/") comps
  end.

(** [normal_form_of text result]: [result] is [text] lexically
    normalised.  The segments of [text] are the slash-free pieces between
    its slashes; they collapse to components where no step applies any
    more, and [result] is the text of these. *)
Definition normal_form_of (text result : str) : Prop :=
  exists segs comps,
    join (py "/") segs = text /\ Forall slash_free segs /\
    collapses (root_slashes text) segs comps /\
    normalised (root_slashes text) comps /\
    result = render (root_slashes text) comps.

(** [resolution_of p arg result]: [arg] is joined to the directory of the
    logical path [p] and the outcome is normalised to [result]. *)
Definition resolution_of (p arg result : str) : Prop :=
  exists d, directory_of p d /\ normal_form_of (in_directory d arg) result.

(** * Properties *)

Unset Implicit Arguments.

(** ** Byte strings *)

Lemma str_eqb_eq (a b : str) : str_eqb a b = true <-> a = b.
Proof.
  unfold str_eqb. destruct (list_eq_dec ascii_dec a b); split; congruence.
Qed.

Lemma str_eqb_neq (a b : str) : str_eqb a b = false <-> a <> b.
Proof.
  unfold str_eqb. destruct (list_eq_dec ascii_dec a b); split; congruence.
Qed.

Lemma str_eqb_refl (a : str) : str_eqb a a = true.
Proof. apply str_eqb_eq. reflexivity. Qed.

Lemma lstrip_no_leading (s : str) : no_leading_space (lstrip s).
Proof.
  induction s as [|c t IH]; simpl; [exact I|].
  destruct (isspace c) eqn:Hc; [exact IH | simpl; exact Hc].
Qed.

Lemma lstrip_fixed (s : str) : no_leading_space s -> lstrip s = s.
Proof.
  destruct s as [|c t]; simpl; [reflexivity|].
  intros ->. reflexivity.
Qed.

Lemma lstrip_suffix (s : str) :
  exists w, forallb isspace w = true /\ s = w ++ lstrip s.
Proof.
  induction s as [|c t IH]; simpl.
  - exists []. split; reflexivity.
  - destruct (isspace c) eqn:Hc.
    + destruct IH as [w [Hw Heq]]. exists (c :: w). simpl.
      rewrite Hc, Hw. split; [reflexivity|]. f_equal. exact Heq.
    + exists []. split; reflexivity.
Qed.

Lemma lstrip_skips (w : str) (c : ascii) (t : str) :
  forallb isspace w = true -> isspace c = false ->
  lstrip (w ++ c :: t) = c :: t.
Proof.
  intros Hw Hc. induction w as [|x w IH]; simpl in *.
  - rewrite Hc. reflexivity.
  - apply andb_prop in Hw. destruct Hw as [Hx Hw]. rewrite Hx. auto.
Qed.

Lemma no_leading_app (a b : str) :
  a <> [] -> no_leading_space (a ++ b) -> no_leading_space a.
Proof. destruct a; simpl; [congruence | auto]. Qed.

Lemma lstrip_keeps_no_trailing (s : str) :
  no_trailing_space s -> no_trailing_space (lstrip s).
Proof.
  unfold no_trailing_space. intros H.
  destruct (lstrip_suffix s) as [w [_ Heq]].
  destruct (lstrip s) as [|c t] eqn:Hl; [exact I|].
  rewrite Heq, rev_app_distr in H.
  apply no_leading_app in H; [exact H|].
  simpl. destruct (rev t); discriminate.
Qed.

Lemma rstrip_no_trailing (s : str) : no_trailing_space (rstrip s).
Proof.
  unfold no_trailing_space, rstrip. rewrite rev_involutive.
  apply lstrip_no_leading.
Qed.

Lemma rstrip_fixed (s : str) : no_trailing_space s -> rstrip s = s.
Proof.
  unfold no_trailing_space, rstrip. intros H.
  rewrite (lstrip_fixed _ H). apply rev_involutive.
Qed.

Lemma strip_trimmed (s : str) :
  no_leading_space (strip s) /\ no_trailing_space (strip s).
Proof.
  unfold strip. split.
  - apply lstrip_no_leading.
  - apply lstrip_keeps_no_trailing, rstrip_no_trailing.
Qed.

Lemma strip_fixed (s : str) :
  no_leading_space s -> no_trailing_space s -> strip s = s.
Proof.
  intros Hl Ht. unfold strip. rewrite (rstrip_fixed _ Ht).
  apply lstrip_fixed, Hl.
Qed.

Lemma strip_idempotent (s : str) : strip (strip s) = strip s.
Proof.
  destruct (strip_trimmed s). apply strip_fixed; assumption.
Qed.

Lemma join_single (sep p : str) : join sep [p] = p.
Proof. reflexivity. Qed.

(** ** The matcher *)

Ltac inv H := inversion H; subst; clear H.

(** What the matcher returns is a path of the pattern that the rest of the
    pattern accepts. *)
Lemma bt_sound (r : regex) :
  forall k st x,
    bt r k st = Some x ->
    exists st', reach r st st' /\ k st' = Some x.
Proof.
  induction r as [c|p| | | |r1 IH1 r2 IH2|r1 IH1 r2 IH2|r1 IH1|r1 IH1|r1 IH1
                 |n r1 IH1]; intros k st x H; simpl in H.
  - destruct (rest st) as [|y t] eqn:Hr; [discriminate|].
    destruct (Ascii.eqb y c) eqn:Hc; [|discriminate].
    apply Ascii.eqb_eq in Hc. subst y.
    exists (advance st t). split; [constructor; exact Hr | exact H].
  - destruct (rest st) as [|y t] eqn:Hr; [discriminate|].
    destruct (p y) eqn:Hc; [|discriminate].
    exists (advance st t). split; [econstructor; eauto | exact H].
  - destruct (rest st) as [|y t] eqn:Hr; [discriminate|].
    exists (advance st t). split; [econstructor; eauto | exact H].
  - destruct (pos st =? 0) eqn:Hp; [|discriminate].
    apply Nat.eqb_eq in Hp.
    exists st. split; [constructor; exact Hp | exact H].
  - destruct (rest st) as [|y [|z t]] eqn:Hr.
    + exists st. split; [constructor; left; exact Hr | exact H].
    + destruct (Ascii.eqb y "010") eqn:Hc; [|discriminate].
      apply Ascii.eqb_eq in Hc. subst y.
      exists st. split; [constructor; right; exact Hr | exact H].
    + discriminate.
  - apply IH1 in H. destruct H as [st1 [H1 H]].
    apply IH2 in H. destruct H as [st2 [H2 H]].
    exists st2. split; [econstructor; eauto | exact H].
  - destruct (bt r1 k st) as [m|] eqn:H1.
    + inv H. apply IH1 in H1. destruct H1 as [st' [H1 Hk]].
      exists st'. split; [apply reach_alt_l; exact H1 | exact Hk].
    + apply IH2 in H. destruct H as [st' [H2 Hk]].
      exists st'. split; [apply reach_alt_r; exact H2 | exact Hk].
  - remember (List.length (rest st)) as fuel eqn:Hf. clear Hf.
    revert st H. induction fuel as [|fuel IHf]; intros st H.
    + exists st. split; [constructor | exact H].
    + match type of H with
      | match ?b with _ => _ end = _ => destruct b as [m|] eqn:H1
      end.
      * inv H. apply IH1 in H1. destruct H1 as [st1 [H1 Hk]].
        destruct (List.length (rest st1) <? List.length (rest st));
          [|discriminate].
        apply IHf in Hk. destruct Hk as [st2 [H2 Hk]].
        exists st2. split; [eapply reach_star_more; eauto | exact Hk].
      * exists st. split; [constructor | exact H].
  - remember (List.length (rest st)) as fuel eqn:Hf. clear Hf.
    revert st H. induction fuel as [|fuel IHf]; intros st H.
    + exists st. split; [constructor | exact H].
    + destruct (k st) as [m|] eqn:Hk0.
      * inv H. exists st. split; [constructor | exact Hk0].
      * apply IH1 in H. destruct H as [st1 [H1 Hk]].
        destruct (List.length (rest st1) <? List.length (rest st));
          [|discriminate].
        apply IHf in Hk. destruct Hk as [st2 [H2 Hk]].
        exists st2. split; [eapply reach_lazy_more; eauto | exact Hk].
  - destruct (bt r1 k st) as [m|] eqn:H1.
    + inv H. apply IH1 in H1. destruct H1 as [st' [H1 Hk]].
      exists st'. split; [apply reach_opt_some; exact H1 | exact Hk].
    + exists st. split; [apply reach_opt_none | exact H].
  - apply IH1 in H. destruct H as [st' [H1 Hk]].
    eexists. split; [apply reach_group; exact H1 | exact Hk].
Qed.

Lemma re_match_at_sound (r : regex) (i : nat) (t : str) (m : mstate) :
  re_match_at r i t = Some m -> reach r (MState i t []) m.
Proof.
  unfold re_match_at. intros H. apply bt_sound in H.
  destruct H as [st' [H Heq]]. inv Heq. exact H.
Qed.

Lemma re_match_sound (r : regex) (s : str) (m : mstate) :
  re_match r s = Some m -> reach r (MState 0 s []) m.
Proof. apply re_match_at_sound. Qed.

Lemma skipn_cons_inv {A : Type} (n : nat) (l : list A) (x : A) (t : list A) :
  skipn n l = x :: t -> skipn (S n) l = t /\ S n <= List.length l.
Proof.
  revert l. induction n as [|n IH]; intros l H.
  - simpl in H. subst l. simpl. split; [reflexivity | lia].
  - destruct l as [|y l]; [discriminate|].
    simpl in H. apply IH in H. destruct H as [H1 H2].
    split; [exact H1 | simpl; lia].
Qed.

Lemma advance_state_of (input : str) (st : mstate) (c : ascii) (t : str) :
  state_of input st -> rest st = c :: t -> state_of input (advance st t).
Proof.
  intros [Hs Hl] Hr. rewrite Hr in Hs.
  apply skipn_cons_inv in Hs. exact Hs.
Qed.

(** A path of a pattern moves forward inside the subject. *)
Lemma reach_state_of (input : str) (r : regex) (st st' : mstate) :
  reach r st st' -> state_of input st ->
  state_of input st' /\ pos st <= pos st'.
Proof.
  induction 1; intros Hw;
    try (split; [eapply advance_state_of; eauto | simpl; lia]);
    try (split; [exact Hw | lia]); auto.
  - destruct (IHreach1 Hw) as [H1 L1]. destruct (IHreach2 H1) as [H2 L2].
    split; [exact H2 | lia].
  - destruct (IHreach1 Hw) as [H1 L1]. destruct (IHreach2 H1) as [H2 L2].
    split; [exact H2 | lia].
  - destruct (IHreach1 Hw) as [H1 L1]. destruct (IHreach2 H1) as [H2 L2].
    split; [exact H2 | lia].
Qed.

Lemma initial_state_of (s : str) : state_of s (MState 0 s []).
Proof. split; simpl; [reflexivity | lia]. Qed.

Lemma reach_chr_inv (c : ascii) (st st' : mstate) :
  reach (Chr c) st st' ->
  exists t, rest st = c :: t /\ st' = advance st t.
Proof. inversion 1; subst; eauto. Qed.

Lemma reach_cls_inv (p : ascii -> bool) (st st' : mstate) :
  reach (Cls p) st st' ->
  exists x t, rest st = x :: t /\ p x = true /\ st' = advance st t.
Proof. inversion 1; subst; eauto. Qed.

Lemma reach_seq_inv (r1 r2 : regex) (st st' : mstate) :
  reach (Seq r1 r2) st st' ->
  exists st1, reach r1 st st1 /\ reach r2 st1 st'.
Proof. inversion 1; subst; eauto. Qed.

Lemma reach_alt_inv (r1 r2 : regex) (st st' : mstate) :
  reach (Alt r1 r2) st st' -> reach r1 st st' \/ reach r2 st st'.
Proof. inversion 1; subst; auto. Qed.

Lemma reach_group_inv (n : nat) (r : regex) (st st' : mstate) :
  reach (Group n r) st st' ->
  exists st1, reach r st st1 /\ st' = set_cap n (pos st, pos st1) st1.
Proof. inversion 1; subst; eauto. Qed.

Lemma reach_bol_inv (st st' : mstate) :
  reach Bol st st' -> st' = st /\ pos st = 0.
Proof. inversion 1; subst; auto. Qed.

Lemma reach_eol_inv (st st' : mstate) :
  reach Eol st st' -> st' = st.
Proof. inversion 1; subst; auto. Qed.

(** A run of one character class: the characters it took, and nothing
    else changed. *)
Lemma reach_star_cls (p : ascii -> bool) (st st' : mstate) :
  reach (Star (Cls p)) st st' ->
  exists w, forallb p w = true /\ rest st = w ++ rest st' /\
            pos st' = pos st + List.length w /\ caps st' = caps st.
Proof.
  intros H. remember (Star (Cls p)) as r eqn:Hr.
  induction H; try discriminate.
  - exists []. simpl. repeat split; lia.
  - inv Hr. specialize (IHreach2 eq_refl).
    destruct IHreach2 as [w [Hw [Hrest [Hpos Hcaps]]]].
    apply reach_cls_inv in H. destruct H as [x [t [Hx [Hpx ->]]]].
    exists (x :: w). simpl in *.
    rewrite Hpx, Hw, Hx, Hrest. repeat split; try lia. exact Hcaps.
Qed.

(** A pattern anchored at the start matches at no other offset. *)
Lemma anchored_only_at_start (r : regex) (i : nat) (t : str) :
  0 < i -> re_match_at (Seq Bol r) i t = None.
Proof.
  intros Hi. unfold re_match_at. simpl.
  destruct i; [lia | reflexivity].
Qed.

Lemma sub_from_anchored (r : regex) (fuel i : nat) (t : str) :
  0 < i -> sub_from (Seq Bol r) fuel i t = t.
Proof.
  revert i t. induction fuel as [|fuel IH]; intros i t Hi; [reflexivity|].
  cbn [sub_from]. rewrite (anchored_only_at_start r i t Hi).
  destruct t as [|c t]; [reflexivity|].
  rewrite IH by lia. reflexivity.
Qed.

(** Removing the matches of an anchored pattern removes the match at the
    start and nothing else. *)
Lemma anchored_split (r : regex) (s : str) (m : mstate) :
  re_match (Seq Bol r) s = Some m ->
  group0 s m ++ re_sub_empty (Seq Bol r) s = s.
Proof.
  intros Hm. unfold re_sub_empty, group0.
  cbn [sub_from]. change (re_match_at (Seq Bol r) 0 s) with
    (re_match (Seq Bol r) s). rewrite Hm.
  destruct (pos m =? 0) eqn:Hp.
  - apply Nat.eqb_eq in Hp. rewrite Hp. simpl.
    destruct s as [|c s]; [reflexivity|].
    rewrite sub_from_anchored by lia. reflexivity.
  - apply Nat.eqb_neq in Hp.
    rewrite sub_from_anchored by lia.
    apply re_match_sound in Hm.
    destruct (reach_state_of s _ _ _ Hm (initial_state_of s)) as [[Hs _] _].
    rewrite <- Hs. apply firstn_skipn.
Qed.

(** ** The header pattern *)

Ltac reach_inv :=
  repeat match goal with
  | H : reach (Seq _ _) _ _ |- _ =>
      apply reach_seq_inv in H; destruct H as [? [? ?]]
  | H : reach (Group _ _) _ _ |- _ =>
      apply reach_group_inv in H; destruct H as [? [? ?]]
  | H : reach (Chr _) _ _ |- _ =>
      apply reach_chr_inv in H; destruct H as [? [? ?]]
  | H : reach (Cls _) _ _ |- _ =>
      apply reach_cls_inv in H; destruct H as [? [? [? [? ?]]]]
  | H : reach Bol _ _ |- _ =>
      apply reach_bol_inv in H; destruct H as [? ?]
  | H : reach Eol _ _ |- _ =>
      apply reach_eol_inv in H
  | H : reach (Star (Cls _)) _ _ |- _ =>
      apply reach_star_cls in H; destruct H as [? [? [? [? ?]]]]
  | H : reach (Alt _ _) _ _ |- _ =>
      apply reach_alt_inv in H; destruct H as [?|?]
  end.

(** A header starts, after whitespace, with the opening of a block comment
    or of a line comment. *)
Lemma header_starts_with_comment (s : str) (m : mstate) :
  re_match header_re s = Some m ->
  exists w c t,
    forallb isspace w = true /\ s = w ++ "/"%char :: c :: t /\
    (c = "*"%char \/ c = "/"%char).
Proof.
  intros Hm. apply re_match_sound in Hm.
  unfold header_re, Plus, block_comment, line_comment in Hm.
  apply reach_seq_inv in Hm. destruct Hm as [s0 [Hb Hm]].
  apply reach_bol_inv in Hb. destruct Hb as [-> _].
  apply reach_seq_inv in Hm. destruct Hm as [s1 [Hg _]].
  apply reach_group_inv in Hg. destruct Hg as [s2 [Hg _]].
  apply reach_seq_inv in Hg. destruct Hg as [sa [Hw Hg]].
  apply reach_star_cls in Hw. destruct Hw as [w [Hw [Hrest _]]].
  simpl in Hrest.
  apply reach_group_inv in Hg. destruct Hg as [s3 [Hg _]].
  apply reach_alt_inv in Hg. destruct Hg as [Hg|Hg].
  - apply reach_group_inv in Hg. destruct Hg as [s4 [Hg _]].
    apply reach_seq_inv in Hg. destruct Hg as [s5 [H1 Hg]].
    apply reach_seq_inv in Hg. destruct Hg as [s6 [H2 _]].
    apply reach_chr_inv in H1. destruct H1 as [t1 [R1 ->]].
    apply reach_chr_inv in H2. destruct H2 as [t2 [R2 _]].
    simpl in R2. subst t1.
    exists w, "*"%char, t2. rewrite Hrest, R1. auto.
  - apply reach_seq_inv in Hg. destruct Hg as [s4 [Hg _]].
    apply reach_group_inv in Hg. destruct Hg as [s5 [Hg _]].
    apply reach_seq_inv in Hg. destruct Hg as [s6 [H1 Hg]].
    apply reach_seq_inv in Hg. destruct Hg as [s7 [H2 _]].
    apply reach_chr_inv in H1. destruct H1 as [t1 [R1 ->]].
    apply reach_chr_inv in H2. destruct H2 as [t2 [R2 _]].
    simpl in R2. subst t1.
    exists w, "/"%char, t2. rewrite Hrest, R1. auto.
Qed.

(** Text whose first character after whitespace is not a slash has no
    header. *)
Lemma no_header_without_slash (w : str) (c : ascii) (t : str) :
  forallb isspace w = true -> isspace c = false -> c <> "/"%char ->
  re_match header_re (w ++ c :: t) = None.
Proof.
  intros Hw Hc Hne.
  destruct (re_match header_re (w ++ c :: t)) as [m|] eqn:Hm; [|reflexivity].
  exfalso. apply header_starts_with_comment in Hm.
  destruct Hm as [w' [c' [t' [Hw' [Heq _]]]]].
  apply (f_equal lstrip) in Heq.
  rewrite (lstrip_skips w c t Hw Hc) in Heq.
  rewrite (lstrip_skips w' "/"%char (c' :: t') Hw' eq_refl) in Heq.
  congruence.
Qed.

Section HeaderSplit.
Context {E : Environment}.

Lemma init_source (attrs : AssetAttributes) (src : str) (ctx : RenderContext)
  (cls : Calls) : source (init attrs src ctx cls) = src.
Proof. unfold init. destruct (re_match header_re src); reflexivity. Qed.

Lemma init_no_match (attrs : AssetAttributes) (src : str) (ctx : RenderContext)
  (cls : Calls) :
  re_match header_re src = None ->
  source_header (init attrs src ctx cls) = [] /\
  source_body (init attrs src ctx cls) = src.
Proof. unfold init. intros ->. split; reflexivity. Qed.

(** C5.  The split of the source made by [__init__] always yields one
    header and one body, and the header followed by the body is the
    source text again. *)
Theorem header_body_split (attrs : AssetAttributes) (src : str)
  (ctx : RenderContext) (cls : Calls) :
  source_header (init attrs src ctx cls)
    ++ source_body (init attrs src ctx cls) = src.
Proof.
  unfold init. destruct (re_match header_re src) as [m|] eqn:Hm; simpl.
  - apply anchored_split. exact Hm.
  - reflexivity.
Qed.

(** C10.  When the first character of the source after whitespace is the
    hash sign, the header is empty, the body is the whole source and
    [process] returns it stripped, with a newline, without a call of a
    collaborator; a header begins with the slash of a block or line
    comment, although the hash sign is a marker of the directive
    pattern. *)
Theorem hash_comments_no_header (attrs : AssetAttributes) (w t : str)
  (ctx : RenderContext) (cls : Calls) (wd : World) :
  forallb isspace w = true ->
  source_header (init attrs (w ++ "#"%char :: t) ctx cls) = [] /\
  source_body (init attrs (w ++ "#"%char :: t) ctx cls)
    = w ++ "#"%char :: t /\
  process (init attrs (w ++ "#"%char :: t) ctx cls) wd
    = (Ok (strip (w ++ "#"%char :: t) ++ newline), wd) /\
  parse_directives (py "#= require a")
  = GYield (0, [py "require"; py "a"]) GStop.
Proof.
  intros Hw.
  assert (Hn : re_match header_re (w ++ "#"%char :: t) = None).
  { apply no_header_without_slash; [exact Hw | reflexivity | discriminate]. }
  destruct (init_no_match attrs _ ctx cls Hn) as [Hh Hb].
  repeat split; try assumption.
  unfold process. rewrite Hh, Hb. reflexivity.
Qed.
End HeaderSplit.

Lemma hash_comments_no_header_witness :
  forallb isspace (py "  ") = true /\
  source_header (demo_processor (py "  # = require lib/dep")) = [] /\
  process (demo_processor (py "  # = require lib/dep")) []
  = (Ok (py "# = require lib/dep
"), []).
Proof.
  assert (H : forallb isspace (py "  ") = true) by reflexivity.
  split; [exact H|].
  destruct (@hash_comments_no_header demo_env (py "app.js") (py "  ")
              (py " = require lib/dep") tt tt [] H) as [Hh [_ [Hp _]]].
  split; [exact Hh|].
  change (py "  " ++ "#"%char :: py " = require lib/dep")
    with (py "  # = require lib/dep") in Hp.
  unfold demo_processor. rewrite Hp. vm_compute. reflexivity.
Defined.

(** ** The directive pattern and the tokens *)

Lemma reach_seq_state (input : str) (r1 r2 : regex) (st st' : mstate) :
  reach (Seq r1 r2) st st' -> state_of input st ->
  exists st1, reach r1 st st1 /\ reach r2 st1 st' /\ state_of input st1.
Proof.
  intros H Hs. apply reach_seq_inv in H. destruct H as [st1 [H1 H2]].
  exists st1. repeat split; try assumption.
  - apply (reach_state_of input _ _ _ H1 Hs).
  - apply (reach_state_of input _ _ _ H1 Hs).
Qed.

(** On a line that matches the directive pattern, group 1 is set and its
    text begins with a word character. *)
Lemma directive_text_starts_with_word (line : str) (m : mstate) :
  re_match directive_re line = Some m ->
  exists c t, group 1 line m = Some (c :: t) /\ isword c = true.
Proof.
  intros Hm. apply re_match_sound in Hm.
  pose proof (initial_state_of line) as Hs.
  unfold directive_re, Plus in Hm.
  repeat match goal with
  | H : reach (Seq _ (Seq _ _)) ?s _, Hst : state_of line ?s |- _ =>
      let s1 := fresh "s" in let Hr := fresh "Hr" in
      let Hs1 := fresh "Hs" in
      apply (reach_seq_state line) in H; [|exact Hst];
      destruct H as [s1 [Hr [H Hs1]]]; clear Hr Hst
  end.
  apply reach_seq_inv in Hm. destruct Hm as [s7 [Hg He]].
  apply reach_eol_inv in He. subst m.
  apply reach_group_inv in Hg. destruct Hg as [s8 [Hg ->]].
  apply reach_seq_inv in Hg. destruct Hg as [s9 [Hw Hd]].
  apply reach_seq_inv in Hw. destruct Hw as [s10 [Hw Hw']].
  apply reach_cls_inv in Hw. destruct Hw as [x [t [Hx [Hpx ->]]]].
  match goal with Hst : state_of line ?s |- _ =>
    assert (Hadv : state_of line (advance s t))
      by (eapply advance_state_of; eauto);
    destruct Hst as [Hskip _]
  end.
  pose proof (reach_state_of line _ _ _ Hw' Hadv) as [Hs9 L9].
  pose proof (reach_state_of line _ _ _ Hd Hs9) as [_ L8].
  simpl in L9.
  unfold group. simpl. rewrite Hskip, Hx.
  match goal with |- context [firstn (?a - ?b) _] =>
    replace (a - b) with (S (a - S b)) by lia
  end.
  simpl. eauto.
Qed.

Lemma word_not_special (c : ascii) :
  isword c = true ->
  in_chars c shlex_whitespace = false /\
  in_chars c shlex_escape = false /\
  in_chars c shlex_quotes = false.
Proof.
  destruct c as [[] [] [] [] [] [] [] []]; vm_compute; intros H;
    try discriminate H; repeat split.
Qed.

(** Once the lexer holds a token that is not empty, its list of tokens is
    not empty. *)
Lemma lex_token_kept (input : str) :
  forall state escapedstate quoted token args,
    token <> [] ->
    lex state escapedstate quoted token input = Ok args -> args <> [].
Proof.
  assert (Hy : forall quoted token more args,
             token <> [] ->
             yield_token (token_result quoted token) more = Ok args ->
             args <> []).
  { intros quoted token more args Ht H. destruct token; [congruence|].
    simpl in H. destruct more; [|discriminate]. inv H. discriminate. }
  assert (Hsnoc : forall (t : str) c, t ++ [c] <> [])
    by (intros t c; destruct t; discriminate).
  induction input as [|c input IH];
    intros state escapedstate quoted token args Ht H.
  - simpl in H. destruct state; try discriminate; eapply Hy; eauto.
  - cbn [lex] in H. destruct state.
    + destruct (in_chars c shlex_whitespace).
      * apply str_eqb_neq in Ht. rewrite Ht in H. cbn [negb orb] in H.
        apply str_eqb_neq in Ht. eapply Hy; eauto.
      * destruct (in_chars c shlex_escape); [eapply IH; eauto|].
        destruct (in_chars c shlex_quotes); [eapply IH; eauto|].
        eapply IH; [|exact H]. discriminate.
    + destruct (in_chars c shlex_whitespace).
      * apply str_eqb_neq in Ht. rewrite Ht in H. cbn [negb orb] in H.
        apply str_eqb_neq in Ht. eapply Hy; eauto.
      * destruct (in_chars c shlex_quotes); [eapply IH; eauto|].
        destruct (in_chars c shlex_escape); [eapply IH; eauto|].
        eapply IH; [|exact H]. apply Hsnoc.
    + destruct (Ascii.eqb c q); [eapply IH; eauto|].
      destruct (in_chars c shlex_escape && in_chars q shlex_escapedquotes);
        [eapply IH; eauto|].
      eapply IH; [|exact H]. apply Hsnoc.
    + eapply IH; [|exact H]. apply Hsnoc.
Qed.

Lemma shlex_split_word_first (c : ascii) (t : str) (args : list str) :
  isword c = true -> shlex_split (c :: t) = Ok args -> args <> [].
Proof.
  intros Hc H. destruct (word_not_special c Hc) as [H1 [H2 H3]].
  unfold shlex_split in H. cbn [lex] in H. rewrite H1, H2, H3 in H.
  eapply lex_token_kept; [|exact H]. discriminate.
Qed.

Lemma parse_lines_yield (lines : list (nat * str)) (lineno : nat)
  (args : list str) :
  In (lineno, args) (yielded (parse_lines lines)) ->
  exists line m text,
    In (lineno, line) lines /\
    re_match directive_re line = Some m /\
    group 1 line m = Some text /\
    shlex_split text = Ok args.
Proof.
  induction lines as [|[n line] lines IH]; simpl; [tauto|].
  destruct (re_match directive_re line) as [m|] eqn:Hm.
  - destruct (group 1 line m) as [text|] eqn:Hg; [|simpl; tauto].
    destruct (shlex_split text) as [a|e] eqn:Hx; [|simpl; tauto].
    simpl. intros [Heq|Hin].
    + inv Heq. exists line, m, text. auto.
    + destruct (IH Hin) as [l' [m' [t' [H1 H2]]]].
      exists l', m', t'. auto.
  - intros Hin. destruct (IH Hin) as [l' [m' [t' [H1 H2]]]].
    exists l', m', t'. auto.
Qed.

(** C8.  Every directive that the parser yields for a header has a first
    token, the name of the directive: the text of a matching line begins
    with a word character, so the list of its tokens is not empty and
    reading [args[0]] does not raise. *)
Theorem directive_has_name (header : str) (lineno : nat) (args : list str) :
  In (lineno, args) (yielded (parse_directives header)) ->
  args <> [] /\ exists name, getitem args 0 = Ok name.
Proof.
  intros Hin. unfold parse_directives in Hin.
  apply parse_lines_yield in Hin.
  destruct Hin as [line [m [text [_ [Hm [Hg Hx]]]]]].
  destruct (directive_text_starts_with_word line m Hm) as [c [t [Hg' Hc]]].
  rewrite Hg in Hg'. inv Hg'.
  pose proof (shlex_split_word_first c t args Hc Hx) as Hne.
  split; [exact Hne|].
  destruct args as [|name rest]; [congruence|].
  exists name. reflexivity.
Qed.

Lemma directive_has_name_witness :
  In (0, [py "require"; py "a b.js"])
     (yielded (parse_directives (py "//= require 'a b.js'"))) /\
  [py "require"; py "a b.js"] <> [].
Proof.
  assert (Hy : yielded (parse_directives (py "//= require 'a b.js'"))
               = [(0, [py "require"; py "a b.js"])])
    by (vm_compute; reflexivity).
  assert (H : In (0, [py "require"; py "a b.js"])
                (yielded (parse_directives (py "//= require 'a b.js'"))))
    by (rewrite Hy; left; reflexivity).
  split; [exact H|].
  exact (proj1 (directive_has_name _ _ _ H)).
Defined.

(** ** Dispatch and assembly *)

Section Assembly.
Context {E : Environment}.
Variable self : DirectivesProcessor.

Lemma appends_ret {A : Type} (a : A) : appends_only (ret a).
Proof. intros b w. unfold ret. simpl. rewrite app_nil_r. reflexivity. Qed.

Lemma appends_raise {A : Type} (e : exn) : appends_only (@raise _ A e).
Proof. intros b w. unfold raise. simpl. rewrite app_nil_r. reflexivity. Qed.

Lemma appends_of_result {A : Type} (r : result A) :
  appends_only (of_result r).
Proof.
  intros b w. unfold of_result. simpl. rewrite app_nil_r. reflexivity.
Qed.

Lemma appends_call {A : Type} (m : M World A) : appends_only (call m).
Proof.
  intros b w. unfold call. simpl. destruct (m w) as [r w'].
  simpl. rewrite app_nil_r. reflexivity.
Qed.

Lemma appends_body_append (x : str) : appends_only (body_append x).
Proof. intros b w. reflexivity. Qed.

Lemma appends_bind {A B : Type} (m : M pstate A) (f : A -> M pstate B) :
  appends_only m -> (forall a, appends_only (f a)) ->
  appends_only (bind m f).
Proof.
  intros Hm Hf b w. unfold bind. rewrite (Hm b w).
  destruct (m (PState [] w)) as [[a|e] [b1 w1]]; simpl.
  - rewrite (Hf a (b ++ b1) w1), (Hf a b1 w1).
    destruct (f a (PState [] w1)) as [r [b2 w2]]. simpl.
    rewrite app_assoc. reflexivity.
  - reflexivity.
Qed.

Lemma appends_try_except {A : Type} (m : M pstate A) (is_e : exn -> bool)
  (h : M pstate A) :
  appends_only m -> appends_only h -> appends_only (try_except m is_e h).
Proof.
  intros Hm Hh b w. unfold try_except. rewrite (Hm b w).
  destruct (m (PState [] w)) as [[a|e] [b1 w1]]; simpl.
  - reflexivity.
  - destruct (is_e e); [|reflexivity].
    rewrite (Hh (b ++ b1) w1), (Hh b1 w1).
    destruct (h (PState [] w1)) as [r [b2 w2]]. simpl.
    rewrite app_assoc. reflexivity.
Qed.

Create HintDb appends.
Hint Resolve appends_ret appends_raise appends_of_result appends_call
  appends_body_append : appends.

Ltac appends :=
  repeat first
    [ progress auto with appends
    | apply appends_bind; [|intros ?]
    | apply appends_try_except
    | match goal with
      | |- appends_only (let '(_, _) := ?x in _) => destruct x
      | |- appends_only (if ?c then _ else _) => destruct c
      | |- appends_only (match ?x with _ => _ end) => destruct x
      end ].

Lemma appends_require (args : list str) (lineno : nat) :
  appends_only (process_require_directive self args lineno).
Proof. unfold process_require_directive. appends. Qed.
Hint Resolve appends_require : appends.

Lemma appends_require_self (args : list str) (lineno : nat) :
  appends_only (process_require_self_directive self args lineno).
Proof. unfold process_require_self_directive. appends. Qed.
Hint Resolve appends_require_self : appends.

Lemma appends_assets (entries : list (AssetAttributes * str)) :
  appends_only (append_assets self entries).
Proof.
  induction entries as [|[a p] entries IH]; simpl; appends.
Qed.
Hint Resolve appends_assets : appends.

Lemma appends_require_directory (args : list str) (lineno : nat) :
  appends_only (process_require_directory_directive self args lineno).
Proof.
  unfold process_require_directory_directive. appends.
Qed.
Hint Resolve appends_require_directory : appends.

Lemma appends_dispatch (lineno : nat) (args : list str) (flag : bool) :
  appends_only (dispatch self lineno args flag).
Proof.
  unfold dispatch. appends.
Qed.
Hint Resolve appends_dispatch : appends.

Lemma appends_guarded (lineno : nat) (args : list str) (flag : bool) :
  appends_only (try_except (dispatch self lineno args flag)
                  is_InvalidDirective (ret flag)).
Proof. appends. Qed.

Lemma loop_step (lineno : nat) (args : list str)
  (g : generator (nat * list str)) (flag : bool) (b : list str)
  (w : World) :
  directives_loop self (GYield (lineno, args) g) flag (PState b w) =
  match try_except (dispatch self lineno args flag)
          is_InvalidDirective (ret flag) (PState [] w) with
  | (Ok flag1, s) =>
      directives_loop self g flag1 (PState (b ++ body s) (world s))
  | (Raise e, s) => (Raise e, PState (b ++ body s) (world s))
  end.
Proof.
  cbn [directives_loop]. unfold bind.
  rewrite (appends_guarded lineno args flag b w).
  destruct (try_except (dispatch self lineno args flag)
              is_InvalidDirective (ret flag) (PState [] w))
    as [[flag1|e] s]; reflexivity.
Qed.

(** The loop of [process_directives] puts the fragments of the
    directives, each run by itself, after the fragments it started
    with. *)
Lemma loop_as_fragments (g : generator (nat * list str)) :
  forall flag b w,
    match fragments_in_order self g flag w with
    | (Ok (frags, flag'), w') =>
        directives_loop self g flag (PState b w)
        = (Ok flag', PState (b ++ frags) w')
    | (Raise e, w') =>
        exists b', directives_loop self g flag (PState b w)
                   = (Raise e, PState b' w')
    end.
Proof.
  induction g as [|[lineno args] g IH|e]; intros flag b w.
  - simpl. unfold ret. rewrite app_nil_r. reflexivity.
  - cbn [fragments_in_order]. unfold directive_outcome.
    rewrite loop_step.
    destruct (try_except (dispatch self lineno args flag)
                is_InvalidDirective (ret flag) (PState [] w))
      as [[flag1|e] [b1 w1]]; simpl.
    + specialize (IH flag1 (b ++ b1) w1).
      destruct (fragments_in_order self g flag1 w1)
        as [[[frags' flag']|e] w''].
      * rewrite IH, app_assoc. reflexivity.
      * exact IH.
    + eexists. reflexivity.
  - simpl. eexists. reflexivity.
Qed.

Lemma process_directives_as_fragments (w : World) :
  process_directives self w =
  match fragments_in_order self (parse_directives (source_header self))
          false w with
  | (Ok (frags, placed), w') =>
      (Ok (strip (join (newline ++ newline)
                    (frags ++ if placed then []
                              else [strip (source_body self)]))), w')
  | (Raise e, w') => (Raise e, w')
  end.
Proof.
  unfold process_directives.
  pose proof (loop_as_fragments (parse_directives (source_header self))
                false [] w) as H.
  destruct (fragments_in_order self (parse_directives (source_header self))
              false w) as [[[frags placed]|e] w'].
  - rewrite H. simpl. destruct placed; simpl.
    + rewrite app_nil_r. reflexivity.
    + reflexivity.
  - destruct H as [b' H]. rewrite H. reflexivity.
Qed.

Lemma process_with_header (w : World) :
  source_header self <> [] ->
  process self w =
  match process_directives self w with
  | (Ok text, w') => (Ok (text ++ newline), w')
  | (Raise e, w') => (Raise e, w')
  end.
Proof.
  intros Hh. unfold process.
  destruct (source_header self) as [|c t]; [congruence|].
  unfold bind, ret. destruct (process_directives self w) as [[text|e] w'];
    reflexivity.
Qed.

(** A [require_self] without arguments, run by itself, leaves the
    stripped body and sets the flag. *)
Lemma outcome_require_self (lineno : nat) (flag : bool) (w : World) :
  directive_outcome self lineno [py "require_self"] flag w
  = (Ok ([strip (source_body self)], true), w).
Proof. reflexivity. Qed.

(** A [require_self] with arguments leaves nothing and keeps the flag. *)
Lemma outcome_require_self_args (lineno : nat) (a : str) (rest : list str)
  (flag : bool) (w : World) :
  directive_outcome self lineno (py "require_self" :: a :: rest) flag w
  = (Ok ([], flag), w).
Proof. reflexivity. Qed.

Lemma bind_ok {S A B : Type} (m : M S A) (f : A -> M S B) (s s' : S)
  (b : B) :
  bind m f s = (Ok b, s') ->
  exists a s1, m s = (Ok a, s1) /\ f a s1 = (Ok b, s').
Proof.
  unfold bind. destruct (m s) as [[a|e] s1]; [eauto | discriminate].
Qed.

(** Only a [require_self] without arguments sets the flag. *)
Lemma outcome_flag (lineno : nat) (args : list str) (flag : bool)
  (w w' : World) (frags : list str) (flag' : bool) :
  directive_outcome self lineno args flag w = (Ok (frags, flag'), w') ->
  flag' = flag || is_plain_require_self args.
Proof.
  unfold directive_outcome, try_except.
  destruct (dispatch self lineno args flag (PState [] w))
    as [[f|e] s] eqn:Hd.
  - intros H. inv H. unfold dispatch in Hd.
    apply bind_ok in Hd. destruct Hd as [name [s1 [Hn Hd]]].
    destruct args as [|name' rest]; [discriminate|].
    unfold of_result, getitem in Hn. simpl in Hn. inv Hn.
    unfold is_plain_require_self.
    destruct (str_eqb name (py "require")) eqn:H1.
    { apply bind_ok in Hd. destruct Hd as [u [s2 [_ Hd]]]. inv Hd.
      apply str_eqb_eq in H1. subst name.
      destruct rest; [|rewrite orb_false_r; reflexivity].
      rewrite orb_false_r. reflexivity. }
    destruct (str_eqb name (py "require_directory")) eqn:H2.
    { apply bind_ok in Hd. destruct Hd as [u [s2 [_ Hd]]]. inv Hd.
      apply str_eqb_eq in H2. subst name.
      destruct rest; rewrite orb_false_r; reflexivity. }
    destruct (str_eqb name (py "require_self")) eqn:H3.
    { apply bind_ok in Hd. destruct Hd as [u [s2 [Hs Hd]]]. inv Hd.
      destruct rest; [|discriminate].
      rewrite orb_true_r. reflexivity. }
    discriminate.
  - destruct (is_InvalidDirective e) eqn:He; [|discriminate].
    intros H. inv H. unfold dispatch in Hd.
    destruct args as [|name rest]; [inv Hd; discriminate|].
    unfold is_plain_require_self.
    destruct rest; [|rewrite orb_false_r; reflexivity].
    destruct (str_eqb name (py "require_self")) eqn:H3;
      [|rewrite orb_false_r; reflexivity].
    apply str_eqb_eq in H3. subst name. exfalso.
    vm_compute in Hd. inv Hd.
Qed.

Lemma fragments_flag (g : generator (nat * list str)) :
  forall flag w frags placed w',
    fragments_in_order self g flag w = (Ok (frags, placed), w') ->
    placed = flag
             || existsb (fun d => is_plain_require_self (snd d)) (yielded g).
Proof.
  induction g as [|[lineno args] g IH|e]; intros flag w frags placed w' H.
  - inv H. rewrite orb_false_r. reflexivity.
  - cbn [fragments_in_order] in H.
    destruct (directive_outcome self lineno args flag w)
      as [[[f1 flag1]|e] w1] eqn:Ho; [|discriminate].
    destruct (fragments_in_order self g flag1 w1)
      as [[[f2 flag2]|e] w2] eqn:Hf; [|discriminate].
    inv H. apply outcome_flag in Ho. apply IH in Hf. subst.
    simpl. rewrite orb_assoc. reflexivity.
  - discriminate.
Qed.
End Assembly.

Section Claims.
Context {E : Environment}.
Variable self : DirectivesProcessor.

(** C1.  With a header, the output of [process] is made of the fragments
    of the directives in the order of the directives: a [require_self]
    without arguments puts the stripped body of the asset at its place;
    the stripped body is added at the end exactly when no such
    [require_self] was run; the fragments are joined with a blank line,
    stripped, and one newline follows.  Where a directive lets an
    exception other than [InvalidDirective] through, [process] raises
    it. *)
Theorem process_fragment_order (w : World) :
  source_header self <> [] ->
  (forall lineno flag w0,
      directive_outcome self lineno [py "require_self"] flag w0
      = (Ok ([strip (source_body self)], true), w0)) /\
  match fragments_in_order self (parse_directives (source_header self))
          false w with
  | (Ok (frags, placed), w') =>
      placed = existsb (fun d => is_plain_require_self (snd d))
                 (yielded (parse_directives (source_header self))) /\
      exists text,
        text = strip (join (newline ++ newline)
                        (frags ++ if placed then []
                                  else [strip (source_body self)])) /\
        process self w = (Ok (text ++ newline), w') /\
        no_trailing_space text
  | (Raise e, w') => process self w = (Raise e, w')
  end.
Proof.
  intros Hh. split; [intros; apply outcome_require_self|].
  rewrite (process_with_header self w Hh).
  rewrite process_directives_as_fragments.
  destruct (fragments_in_order self (parse_directives (source_header self))
              false w) as [[[frags placed]|e] w'] eqn:Hf.
  - split.
    + apply fragments_flag in Hf. exact Hf.
    + eexists. split; [reflexivity|]. split; [reflexivity|].
      apply strip_trimmed.
  - reflexivity.
Qed.

(** C2.  A directive with a directive-level error leaves the list of
    fragments and the flag as they are, and the loop goes on with the
    directives that follow it, from the same fragments. *)
Theorem directive_error_skipped (args : list str) (w w' : World) :
  directive_error self args w w' ->
  forall lineno g flag b,
    directives_loop self (GYield (lineno, args) g) flag (PState b w)
    = directives_loop self g flag (PState b w').
Proof.
  intros Herr lineno g flag b. rewrite loop_step.
  assert (Hg : try_except (dispatch self lineno args flag)
                 is_InvalidDirective (ret flag) (PState [] w)
               = (Ok flag, PState [] w')).
  { destruct Herr as [rest w Hn|rest w Hn|a rest w|name rest w H1 H2 H3
                     |p w w' Hf].
    - unfold try_except, dispatch, process_require_directive.
      apply Nat.eqb_neq in Hn. cbn. rewrite Hn. reflexivity.
    - unfold try_except, dispatch, process_require_directory_directive.
      apply Nat.eqb_neq in Hn. cbn. rewrite Hn. reflexivity.
    - reflexivity.
    - unfold try_except, dispatch, bind, of_result, getitem. cbn [nth_error].
      apply str_eqb_neq in H1, H2, H3. rewrite H1, H2, H3. reflexivity.
    - unfold dispatch, process_require_directive.
      unfold try_except, bind, of_result, getitem, call.
      cbn -[find]. rewrite Hf. reflexivity. }
  rewrite Hg. simpl. rewrite app_nil_r. reflexivity.
Qed.

(** C9.  When every [require_self] of the header has arguments, each of
    them is rejected and adds nothing, the flag stays unset, and the
    stripped body is added once, after the fragments of the other
    directives. *)
Theorem rejected_require_self_default_placement (w : World) :
  source_header self <> [] ->
  (forall lineno args,
      In (lineno, args) (yielded (parse_directives (source_header self))) ->
      getitem args 0 = Ok (py "require_self") -> 2 <= List.length args) ->
  (forall lineno a rest flag w0,
      directive_outcome self lineno (py "require_self" :: a :: rest) flag w0
      = (Ok ([], flag), w0)) /\
  match fragments_in_order self (parse_directives (source_header self))
          false w with
  | (Ok (frags, placed), w') =>
      placed = false /\
      process self w
      = (Ok (strip (join (newline ++ newline)
                      (frags ++ [strip (source_body self)])) ++ newline),
         w')
  | (Raise e, w') => process self w = (Raise e, w')
  end.
Proof.
  intros Hh Hall. split; [intros; apply outcome_require_self_args|].
  rewrite (process_with_header self w Hh).
  rewrite process_directives_as_fragments.
  destruct (fragments_in_order self (parse_directives (source_header self))
              false w) as [[[frags placed]|e] w'] eqn:Hf; [|reflexivity].
  apply fragments_flag in Hf. simpl in Hf.
  assert (Hp : placed = false).
  { rewrite Hf. apply not_true_is_false. intros Hex.
    apply existsb_exists in Hex. destruct Hex as [[lineno args] [Hin Hp]].
    simpl in Hp. unfold is_plain_require_self in Hp.
    destruct args as [|name [|a rest]]; try discriminate.
    apply str_eqb_eq in Hp. subst name.
    specialize (Hall lineno _ Hin eq_refl). simpl in Hall. lia. }
  clear Hf. subst placed. split; reflexivity.
Qed.

(** C4.  With an empty header, and with a header none of whose lines
    matches the directive pattern, [process] returns the stripped body,
    which ends in no whitespace, and one newline; no collaborator is
    called. *)
Theorem no_directives_plain_body (w : World) :
  source_header self = [] \/
  (forall line, In line (splitlines (source_header self)) ->
                re_match directive_re line = None) ->
  process self w = (Ok (strip (source_body self) ++ newline), w) /\
  no_trailing_space (strip (source_body self)).
Proof.
  intros H. split; [|apply strip_trimmed].
  destruct H as [Hh|Hno].
  - unfold process. rewrite Hh. reflexivity.
  - destruct (source_header self) as [|c t] eqn:Hh.
    + unfold process. rewrite Hh. reflexivity.
    + assert (Hne : source_header self <> []) by (rewrite Hh; discriminate).
      rewrite (process_with_header self w Hne).
      rewrite process_directives_as_fragments.
      assert (Hg : parse_directives (source_header self) = GStop).
      { unfold parse_directives. rewrite Hh.
        unfold enumerate. generalize 0.
        induction (splitlines (c :: t)) as [|l ls IH]; intros n;
          [reflexivity|].
        simpl. rewrite (Hno l) by (left; reflexivity).
        apply IH. intros l' Hl'. apply Hno. right. exact Hl'. }
      rewrite Hg. simpl. rewrite strip_idempotent. reflexivity.
Qed.
End Claims.

(** ** The order of byte strings and the sort *)

Lemma code_inj (x y : ascii) : code x = code y -> x = y.
Proof.
  unfold code. intros H.
  rewrite <- (ascii_nat_embedding x), <- (ascii_nat_embedding y), H.
  reflexivity.
Qed.

Lemma str_leb_total (a b : str) : str_leb a b = false -> str_leb b a = true.
Proof.
  revert b. induction a as [|x a IH]; intros [|y b]; simpl; try congruence.
  destruct (code x <? code y) eqn:H1; [discriminate|].
  destruct (code y <? code x) eqn:H2; [reflexivity|]. apply IH.
Qed.

Lemma str_leb_trans (a b c : str) :
  str_leb a b = true -> str_leb b c = true -> str_leb a c = true.
Proof.
  revert b c. induction a as [|x a IH]; intros [|y b] [|z c]; simpl;
    try congruence.
  destruct (code x <? code y) eqn:H1; destruct (code y <? code x) eqn:H2;
    destruct (code y <? code z) eqn:H3; destruct (code z <? code y) eqn:H4;
    destruct (code x <? code z) eqn:H5; destruct (code z <? code x) eqn:H6;
    try congruence;
    repeat match goal with
    | H : (_ <? _) = true |- _ => apply Nat.ltb_lt in H
    | H : (_ <? _) = false |- _ => apply Nat.ltb_ge in H
    end; try lia.
  apply IH.
Qed.

Lemma str_leb_antisym (a b : str) :
  str_leb a b = true -> str_leb b a = true -> a = b.
Proof.
  revert b. induction a as [|x a IH]; intros [|y b]; simpl; try congruence.
  destruct (code x <? code y) eqn:H1; destruct (code y <? code x) eqn:H2;
    try congruence;
    repeat match goal with
    | H : (_ <? _) = true |- _ => apply Nat.ltb_lt in H
    | H : (_ <? _) = false |- _ => apply Nat.ltb_ge in H
    end; try lia.
  intros Ha Hb. f_equal; [apply code_inj; lia | apply IH; assumption].
Qed.

Section SortedBy.
Variable A : Type.
Variable key : A -> str.

Lemma insert_by_perm (x : A) (l : list A) :
  Permutation (x :: l) (insert_by key x l).
Proof.
  induction l as [|y l IH]; simpl; [reflexivity|].
  destruct (str_leb (key x) (key y)); [reflexivity|].
  rewrite perm_swap. apply perm_skip. exact IH.
Qed.

Lemma sorted_by_perm (l : list A) : Permutation l (sorted_by key l).
Proof.
  induction l as [|x l IH]; simpl; [reflexivity|].
  rewrite <- insert_by_perm. apply perm_skip. exact IH.
Qed.

Lemma insert_by_sorted (x : A) (l : list A) :
  StronglySorted (key_le key) l ->
  StronglySorted (key_le key) (insert_by key x l).
Proof.
  induction 1 as [|y l Hs IH Hall]; simpl.
  - constructor; constructor.
  - destruct (str_leb (key x) (key y)) eqn:Hxy.
    + constructor; [constructor; assumption|].
      constructor; [exact Hxy|].
      eapply Forall_impl; [|exact Hall].
      intros z Hz. unfold key_le in *. eapply str_leb_trans; eauto.
    + constructor; [exact IH|].
      apply str_leb_total in Hxy.
      apply (Permutation_Forall (insert_by_perm x l)).
      constructor; assumption.
Qed.

Lemma sorted_by_sorted (l : list A) :
  StronglySorted (key_le key) (sorted_by key l).
Proof.
  induction l as [|x l IH]; simpl; [constructor|].
  apply insert_by_sorted. exact IH.
Qed.

Lemma distinct_keys (l : list A) (x y : A) :
  NoDup (map key l) -> In x l -> In y l -> key x = key y -> x = y.
Proof.
  induction l as [|z l IH]; simpl; [tauto|].
  intros Hnd Hx Hy Hk.
  apply NoDup_cons_iff in Hnd. destruct Hnd as [Hz Hnd].
  destruct Hx as [->|Hx]; destruct Hy as [->|Hy]; auto.
  - exfalso. apply Hz. rewrite Hk. apply in_map. exact Hy.
  - exfalso. apply Hz. rewrite <- Hk. apply in_map. exact Hx.
Qed.

(** Two sorted lists with the same elements, all keys different, are
    equal. *)
Lemma sorted_unique (l1 : list A) :
  forall l2,
    StronglySorted (key_le key) l1 -> StronglySorted (key_le key) l2 ->
    Permutation l1 l2 -> NoDup (map key l1) -> l1 = l2.
Proof.
  induction l1 as [|x l1 IH]; intros l2 H1 H2 HP Hnd.
  - apply Permutation_nil in HP. congruence.
  - destruct l2 as [|y l2].
    { apply Permutation_sym, Permutation_nil in HP. discriminate. }
    assert (Hxy : x = y).
    { assert (Hx : In x (y :: l2))
        by (apply (Permutation_in _ HP); left; reflexivity).
      assert (Hy : In y (x :: l1))
        by (apply (Permutation_in _ (Permutation_sym HP)); left;
            reflexivity).
      destruct Hx as [Hx|Hx]; [congruence|].
      destruct Hy as [Hy|Hy]; [congruence|].
      apply StronglySorted_inv in H1. destruct H1 as [_ F1].
      apply StronglySorted_inv in H2. destruct H2 as [_ F2].
      rewrite Forall_forall in F1, F2.
      apply (distinct_keys (x :: l1)); auto.
      - left; reflexivity.
      - right; exact Hy.
      - apply str_leb_antisym; [apply F1, Hy | apply F2, Hx]. }
    subst y. f_equal.
    apply StronglySorted_inv in H1. destruct H1 as [S1 _].
    apply StronglySorted_inv in H2. destruct H2 as [S2 _].
    apply NoDup_cons_iff in Hnd. destruct Hnd as [_ Hnd].
    apply IH; auto. eapply Permutation_cons_inv; eauto.
Qed.

Lemma sorted_by_order_free (l1 l2 : list A) :
  Permutation l1 l2 -> NoDup (map key l1) ->
  sorted_by key l2 = sorted_by key l1.
Proof.
  intros HP Hnd. symmetry. apply sorted_unique.
  - apply sorted_by_sorted.
  - apply sorted_by_sorted.
  - rewrite <- (sorted_by_perm l1), <- (sorted_by_perm l2). exact HP.
  - apply (Permutation_NoDup (l := map key l1)); [|exact Hnd].
    apply Permutation_map, sorted_by_perm.
Qed.
End SortedBy.

Section Directory.
Context {E : Environment}.
Variable self : DirectivesProcessor.

Lemma append_assets_rendered (entries : list (AssetAttributes * str)) :
  forall b w texts w',
    render_in_order self entries w = (Ok texts, w') ->
    append_assets self entries (PState b w)
    = (Ok tt, PState (b ++ texts) w').
Proof.
  induction entries as [|[a p] entries IH]; intros b w texts w' H.
  - inv H. simpl. unfold ret. rewrite app_nil_r. reflexivity.
  - cbn [render_in_order] in H. cbn [append_assets].
    unfold bind in H. unfold bind, call. cbn [world body].
    destruct (get_asset self a p w) as [[asset|e] w1]; [|discriminate].
    cbn [world body].
    destruct (asset_str asset w1) as [[text|e] w2]; [|discriminate].
    destruct (render_in_order self entries w2) as [[ts|e] w3] eqn:Hr;
      [|discriminate].
    inv H. unfold body_append. cbn [world body].
    rewrite (IH _ _ _ _ Hr).
    rewrite <- app_assoc. reflexivity.
Qed.

(** C6.  A [require_directory] with one argument renders the entries the
    environment lists for the resolved directory and the suffix of the
    asset in ascending order of their logical paths and appends the
    stripped texts in that order; the sorted entries are the listed
    ones, and with distinct paths they come out the same for every order
    of the listing. *)
Theorem require_directory_sorted (arg : str) (lineno : nat)
  (b : list str) (w w1 w2 : World)
  (entries : list (AssetAttributes * str)) (texts : list str) :
  let key := fun x : AssetAttributes * str => attr_path (fst x) in
  env_list (get_relative_path self arg true)
           (attr_suffix (asset_attributes self)) w = (Ok entries, w1) ->
  render_in_order self (sorted_by key entries) w1 = (Ok texts, w2) ->
  process_require_directory_directive self [arg] lineno (PState b w)
  = (Ok tt, PState (b ++ texts) w2) /\
  Permutation entries (sorted_by key entries) /\
  StronglySorted (fun x y => str_leb (key x) (key y) = true)
    (sorted_by key entries) /\
  (forall entries',
      Permutation entries entries' -> NoDup (map key entries) ->
      sorted_by key entries' = sorted_by key entries).
Proof.
  intros key Hl Hr. repeat split.
  - unfold process_require_directory_directive.
    unfold bind, of_result, getitem, call. cbn -[get_relative_path].
    rewrite Hl. apply append_assets_rendered. exact Hr.
  - apply sorted_by_perm.
  - apply sorted_by_sorted.
  - intros entries' HP Hnd. apply sorted_by_order_free; assumption.
Qed.
End Directory.

(** ** Path resolution *)

Lemma last_repeat {A : Type} (x d : A) (k : nat) :
  last (repeat x (S k)) d = x.
Proof.
  change (repeat x (S k)) with (x :: repeat x k).
  rewrite repeat_cons. apply last_last.
Qed.

Lemma last_in_second {A : Type} (l others : list A) (d : A) :
  others <> [] -> In (last (l ++ others) d) others.
Proof.
  intros Hne. destruct (exists_last Hne) as [o' [z Hz]]. subst others.
  rewrite app_assoc, last_last. apply in_or_app. right. left. reflexivity.
Qed.

Lemma empty_normalised (i : nat) : normalised i [].
Proof.
  split; [constructor|]. exists 0, []. simpl. auto.
Qed.

(** The loop of [normpath] keeps its list of components normalised. *)
Lemma norm_comps_normalised (i : nat) (comps : list str) :
  forall acc, normalised i acc -> normalised i (norm_comps i acc comps).
Proof.
  induction comps as [|comp comps IH]; intros acc Hacc; [exact Hacc|].
  cbn [norm_comps].
  destruct (str_eqb comp [] || str_eqb comp (py ".")) eqn:Hskip;
    [apply IH; exact Hacc|].
  apply orb_false_elim in Hskip. destruct Hskip as [He Hd].
  apply str_eqb_neq in He, Hd.
  destruct Hacc as [Hclean [k [others [Hacc [Hno Hk]]]]].
  destruct (str_eqb comp (py "..")) eqn:Hdd; cbn [negb orb].
  - apply str_eqb_eq in Hdd. subst comp.
    destruct acc as [|a acc'] eqn:Ha.
    + (* nothing to go up from *)
      rewrite andb_true_r, orb_false_r.
      destruct (i =? 0) eqn:Hi.
      * apply IH. split; [repeat constructor; assumption|].
        exists 1, []. simpl. repeat split; auto.
        apply Nat.eqb_eq in Hi. lia.
      * apply IH. split; [constructor|]. exists 0, []. simpl. auto.
    + rewrite andb_false_r. cbn [orb]. rewrite <- Ha in *.
      assert (Hne : acc <> []) by (rewrite Ha; discriminate).
      clear Ha a acc'.
      destruct (str_eqb (last acc []) (py "..")) eqn:Hlast.
      * (* the list is a run of [..]: one more *)
        apply str_eqb_eq in Hlast.
        assert (Ho : others = []).
        { destruct others as [|o os]; [reflexivity|]. exfalso.
          apply Hno. rewrite <- Hlast, Hacc.
          apply last_in_second. discriminate. }
        subst others. rewrite app_nil_r in Hacc.
        apply IH. split.
        { apply Forall_app. split; [exact Hclean|].
          repeat constructor; assumption. }
        exists (S k), []. rewrite app_nil_r.
        repeat split; auto.
        -- rewrite Hacc. change (repeat (py "..") (S k))
             with (py ".." :: repeat (py "..") k).
           rewrite repeat_cons. reflexivity.
        -- intros Hpos. specialize (Hk Hpos). subst k.
           simpl in Hacc. congruence.
      * (* the last component is a name: drop it *)
        apply str_eqb_neq in Hlast.
        assert (Ho : others <> []).
        { intros Ho. subst others. rewrite app_nil_r in Hacc.
          destruct k; [simpl in Hacc; congruence|].
          apply Hlast. rewrite Hacc. apply last_repeat. }
        destruct (exists_last Ho) as [o' [z Hz]]. subst others.
        rewrite app_assoc in Hacc.
        assert (Hgoal : normalised i (removelast acc)).
        { rewrite Hacc, removelast_last.
          rewrite Hacc in Hclean. apply Forall_app in Hclean.
          split; [apply Hclean|].
          exists k, o'. repeat split; auto.
          intros Hin. apply Hno. apply in_or_app. left. exact Hin. }
        destruct acc; [congruence|]. apply IH. exact Hgoal.
  - (* an ordinary name *)
    apply str_eqb_neq in Hdd.
    apply IH. split.
    + apply Forall_app. split; [exact Hclean|].
      repeat constructor; assumption.
    + exists k, (others ++ [comp]). rewrite Hacc, app_assoc.
      repeat split; auto.
      intros Hin. apply in_app_or in Hin. destruct Hin as [Hin|[Hin|[]]];
        [exact (Hno Hin) | congruence].
Qed.

Section Resolution.
Context {E : Environment}.
Variable self : DirectivesProcessor.

Lemma raising_header (w : World) (e : exn) :
  source_header self <> [] ->
  parse_directives (source_header self) = GRaise e ->
  process self w = (Raise e, w).
Proof.
  intros Hh Hg. rewrite (process_with_header self w Hh).
  rewrite process_directives_as_fragments, Hg. reflexivity.
Qed.
End Resolution.

(** ** A directive with an unbalanced quote *)

Lemma unbalanced_header :
  exists m,
    re_match header_re (py "//= require 'a") = Some m /\
    group0 (py "//= require 'a") m = py "//= require 'a" /\
    parse_directives (py "//= require 'a")
    = GRaise (ValueError "No closing quotation").
Proof. vm_compute. eexists. repeat split. Qed.

(** C3.  A header line with a quote that is not closed matches the
    directive pattern, and tokenising it raises [ValueError] outside the
    [try] statement of the loop: for every environment [process] raises
    on the source made of that line. *)
Theorem unbalanced_quote_raises {E : Environment} (attrs : AssetAttributes)
  (ctx : RenderContext) (cls : Calls) (w : World) :
  process (init attrs (py "//= require 'a") ctx cls) w
  = (Raise (ValueError "No closing quotation"), w).
Proof.
  destruct unbalanced_header as [m [Hm [Hg Hp]]].
  apply raising_header.
  - unfold init. rewrite Hm. cbn [source_header]. rewrite Hg. discriminate.
  - unfold init. rewrite Hm. cbn [source_header]. rewrite Hg. exact Hp.
Qed.

(** ** The properties on the demo tree *)

Lemma demo_source_run :
  source_header (demo_processor demo_source) <> [] /\
  fragments_in_order (demo_processor demo_source)
    (parse_directives (source_header (demo_processor demo_source))) false []
  = (Ok ([py "dep();"; py "main();"; py "A();"; py "B();"; py "C();"], true),
     [py "lib/dep.js"; py "sub/a.js"; py "sub/b.js"; py "sub/c.js"]).
Proof. split; [vm_compute; discriminate | vm_compute; reflexivity]. Qed.

Lemma process_fragment_order_witness :
  source_header (demo_processor demo_source) <> [] /\
  process (demo_processor demo_source) []
  = (Ok (py "dep();

main();

A();

B();

C();
"), [py "lib/dep.js"; py "sub/a.js"; py "sub/b.js"; py "sub/c.js"]).
Proof.
  destruct demo_source_run as [H Hf].
  split; [exact H|].
  pose proof (process_fragment_order (demo_processor demo_source) [] H)
    as [_ P].
  rewrite Hf in P. destruct P as [_ [text [Ht [P _]]]].
  rewrite P, Ht. vm_compute. reflexivity.
Defined.

Lemma directive_error_skipped_witness :
  directive_error (demo_processor demo_source_errors)
    [py "require"; py "nonexistent"] (@nil str) (@nil str) /\
  directives_loop (demo_processor demo_source_errors)
    (GYield (0, [py "require"; py "nonexistent"])
       (GYield (1, [py "require_self"]) GStop))
    false (demo_state [py "before"] [])
  = (Ok true, demo_state [py "before"; py "main();"] []).
Proof.
  assert (H : directive_error (demo_processor demo_source_errors)
                [py "require"; py "nonexistent"] (@nil str) (@nil str))
    by (apply require_not_found; vm_compute; reflexivity).
  split; [exact H|]. unfold demo_state.
  rewrite (directive_error_skipped (demo_processor demo_source_errors)
             _ _ _ H 0 (GYield (1, [py "require_self"]) GStop) false
             [py "before"]).
  vm_compute. reflexivity.
Defined.

Lemma demo_source_errors_run :
  source_header (demo_processor demo_source_errors) <> [] /\
  yielded (parse_directives
             (source_header (demo_processor demo_source_errors)))
  = [ (1, [py "require"; py "nonexistent"]);
      (2, [py "require_self"; py "here"]);
      (3, [py "frobnicate"; py "foo"]);
      (4, [py "require"; py "lib/dep"]) ] /\
  fragments_in_order (demo_processor demo_source_errors)
    (parse_directives (source_header (demo_processor demo_source_errors)))
    false []
  = (Ok ([py "dep();"], false), [py "lib/dep.js"]).
Proof.
  split; [vm_compute; discriminate|].
  split; vm_compute; reflexivity.
Qed.

Lemma rejected_require_self_default_placement_witness :
  source_header (demo_processor demo_source_errors) <> [] /\
  process (demo_processor demo_source_errors) []
  = (Ok (py "dep();

main();
"), [py "lib/dep.js"]).
Proof.
  destruct demo_source_errors_run as [H [Hy Hf]].
  split; [exact H|].
  assert (Hall : forall lineno args,
             In (lineno, args)
                (yielded (parse_directives
                   (source_header (demo_processor demo_source_errors)))) ->
             getitem args 0 = Ok (py "require_self") ->
             2 <= List.length args).
  { intros lineno args Hin Hname. rewrite Hy in Hin.
    repeat match type of Hin with
           | In _ (_ :: _) =>
               destruct Hin as [Hone|Hin];
               [ inversion Hone; subst; clear Hone;
                 first [ simpl; lia | discriminate Hname ]
               | ]
           end.
    destruct Hin. }
  pose proof (rejected_require_self_default_placement
                (demo_processor demo_source_errors) [] H Hall) as [_ P].
  rewrite Hf in P. destruct P as [_ P]. rewrite P. vm_compute. reflexivity.
Defined.

Lemma demo_source_plain_lines :
  splitlines (source_header (demo_processor demo_source_plain))
  = [py "/* plain words */"] /\
  re_match directive_re (py "/* plain words */") = None.
Proof. split; vm_compute; reflexivity. Qed.

Lemma no_directives_plain_body_witness :
  (forall line,
      In line (splitlines (source_header (demo_processor demo_source_plain)))
      -> re_match directive_re line = None) /\
  process (demo_processor demo_source_plain) [] = (Ok (py "main();
"), []).
Proof.
  destruct demo_source_plain_lines as [Hl Hm].
  assert (H : forall line,
             In line (splitlines
                        (source_header (demo_processor demo_source_plain)))
             -> re_match directive_re line = None).
  { intros line Hin. rewrite Hl in Hin. destruct Hin as [Hin|[]].
    subst line. exact Hm. }
  split; [exact H|].
  rewrite (proj1 (no_directives_plain_body
                    (demo_processor demo_source_plain) [] (or_intror H))).
  vm_compute. reflexivity.
Defined.

Lemma require_directory_sorted_witness :
  process_require_directory_directive (demo_processor demo_source)
    [py "sub"] 2 (demo_state [py "dep();"] [])
  = (Ok tt, demo_state [py "dep();"; py "A();"; py "B();"; py "C();"]
              [py "sub/a.js"; py "sub/b.js"; py "sub/c.js"]).
Proof.
  refine (proj1 (require_directory_sorted (demo_processor demo_source)
                   (py "sub") 2 [py "dep();"] (@nil str) (@nil str)
                   [py "sub/a.js"; py "sub/b.js"; py "sub/c.js"]
                   [ (py "sub/b.js", py "/srv/sub/b.js");
                     (py "sub/a.js", py "/srv/sub/a.js");
                     (py "sub/c.js", py "/srv/sub/c.js") ]
                   [py "A();"; py "B();"; py "C();"] _ _));
    vm_compute; reflexivity.
Defined.

(** * Further properties of the processor *)

(** ** The loop and the output *)

Section Loop.
Context {E : Environment}.
Variable self : DirectivesProcessor.

Lemma loop_appends_only (g : generator (nat * list str)) :
  forall flag, appends_only (directives_loop self g flag).
Proof.
  induction g as [|[lineno args] g IH|e]; intros flag; cbn [directives_loop].
  - apply appends_ret.
  - apply appends_bind; [apply appends_guarded | intros f; apply IH].
  - apply appends_raise.
Qed.

(** The fragments that are in [body] when the loop starts stay in front,
    unchanged, whatever the directives do and also when the loop ends
    in an exception; what the loop returns and does to the world does
    not depend on them. *)
Theorem loop_keeps_fragments (g : generator (nat * list str))
  (flag : bool) (b : list str) (w : World) :
  directives_loop self g flag (PState b w) =
  (fst (directives_loop self g flag (PState [] w)),
   PState (b ++ body (snd (directives_loop self g flag (PState [] w))))
          (world (snd (directives_loop self g flag (PState [] w))))).
Proof.
  rewrite (loop_appends_only g flag b w).
  destruct (directives_loop self g flag (PState [] w)) as [r s].
  reflexivity.
Qed.

Lemma guarded_not_invalid (lineno : nat) (args : list str) (flag : bool)
  (st s' : pstate) :
  try_except (dispatch self lineno args flag) is_InvalidDirective
    (ret flag) st <> (Raise InvalidDirective, s').
Proof.
  unfold try_except.
  destruct (dispatch self lineno args flag st) as [[f|e] s1].
  - discriminate.
  - destruct (is_InvalidDirective e) eqn:He.
    + discriminate.
    + intros H. inv H. discriminate.
Qed.

Lemma loop_not_invalid (g : generator (nat * list str)) :
  gen_end g <> Some InvalidDirective ->
  forall flag st s',
    directives_loop self g flag st <> (Raise InvalidDirective, s').
Proof.
  induction g as [|[lineno args] g IH|e]; intros Hg flag st s';
    cbn [directives_loop].
  - discriminate.
  - unfold bind.
    destruct (try_except (dispatch self lineno args flag)
                is_InvalidDirective (ret flag) st) as [[f|e] s1] eqn:Ht.
    + apply IH. exact Hg.
    + intros H. inv H. exact (guarded_not_invalid _ _ _ _ _ Ht).
  - intros H. inv H. apply Hg. reflexivity.
Qed.
End Loop.

Lemma yield_token_raises (tok : option str) (more : result (list str))
  (e : exn) :
  yield_token tok more = Raise e -> more = Raise e.
Proof.
  destruct tok as [t|]; simpl; [|discriminate].
  destruct more; [discriminate | auto].
Qed.

(** The lexer raises nothing but [ValueError]. *)
Lemma lex_raises_value_error (input : str) :
  forall state escapedstate quoted token e,
    lex state escapedstate quoted token input = Raise e ->
    exists msg, e = ValueError msg.
Proof.
  induction input as [|c input IH];
    intros state escapedstate quoted token e H.
  - simpl in H. destruct state; try solve [inv H; eauto];
      apply yield_token_raises in H; discriminate.
  - cbn [lex] in H.
    repeat match type of H with
    | (if ?b then _ else _) = _ => destruct b
    | match ?s with _ => _ end = _ => destruct s
    | yield_token _ _ = _ => apply yield_token_raises in H
    end; eapply IH; eauto.
Qed.

Lemma parse_lines_end (lines : list (nat * str)) (e : exn) :
  gen_end (parse_lines lines) = Some e ->
  e = OtherError 0 \/
  exists text, shlex_split text = Raise e.
Proof.
  induction lines as [|[n line] lines IH]; simpl; [discriminate|].
  destruct (re_match directive_re line) as [m|]; [|exact IH].
  destruct (group 1 line m) as [text|].
  - destruct (shlex_split text) as [a|e'] eqn:Hx; simpl.
    + exact IH.
    + intros H. inv H. right. eauto.
  - simpl. intros H. inv H. left. reflexivity.
Qed.

Section Output.
Context {E : Environment}.
Variable self : DirectivesProcessor.

(** Whatever the collaborators do, also when they raise
    [InvalidDirective] themselves, [process] never raises
    [InvalidDirective]. *)
Theorem process_never_raises_InvalidDirective (w w' : World) :
  process self w <> (Raise InvalidDirective, w').
Proof.
  unfold process. destruct (source_header self) as [|c t] eqn:Hh.
  - discriminate.
  - unfold bind, process_directives.
    destruct (directives_loop self (parse_directives (source_header self))
                false (PState [] w)) as [[f|e] s] eqn:Hl.
    + discriminate.
    + intros H. inv H.
      revert Hl. apply loop_not_invalid.
      intros Hg. apply parse_lines_end in Hg.
      destruct Hg as [Hg|[text Hg]]; [discriminate|].
      apply lex_raises_value_error in Hg. destruct Hg as [msg Hg].
      discriminate.
Qed.

(** What [process] returns is a text without whitespace at its ends,
    followed by one newline. *)
Theorem process_output_trimmed (w w' : World) (out : str) :
  process self w = (Ok out, w') ->
  exists text,
    out = text ++ newline /\ strip text = text /\
    no_leading_space text /\ no_trailing_space text.
Proof.
  unfold process. destruct (source_header self) as [|c t] eqn:Hh.
  - unfold ret. intros H. inv H.
    exists (strip (source_body self)).
    split; [reflexivity|]. split; [apply strip_idempotent|].
    apply strip_trimmed.
  - unfold bind, ret, process_directives.
    destruct (directives_loop self (parse_directives (source_header self))
                false (PState [] w)) as [[f|e] s]; [|discriminate].
    intros H. inv H. eexists. split; [reflexivity|].
    split; [apply strip_idempotent|]. apply strip_trimmed.
Qed.
End Output.

Lemma process_output_trimmed_witness :
  process (demo_processor demo_source_plain) []
  = (Ok (py "main();
"), []) /\
  exists text, py "main();
" = text ++ newline /\ strip text = text.
Proof.
  assert (H : process (demo_processor demo_source_plain) []
              = (Ok (py "main();
"), [])) by (vm_compute; reflexivity).
  split; [exact H|].
  destruct (process_output_trimmed (demo_processor demo_source_plain)
              [] [] _ H) as [text [H1 [H2 _]]].
  exists text. split; assumption.
Defined.

(** ** The line numbers of the directives *)

Lemma parse_lines_numbers (lines : list str) :
  forall n lineno args,
    In (lineno, args) (yielded (parse_lines (enumerate_from n lines))) ->
    n <= lineno /\
    exists line,
      nth_error lines (lineno - n) = Some line /\
      re_match directive_re line <> None.
Proof.
  induction lines as [|l lines IH]; intros n lineno args; simpl; [tauto|].
  assert (Hrest :
    In (lineno, args) (yielded (parse_lines (enumerate_from (S n) lines))) ->
    n <= lineno /\
    exists line,
      nth_error (l :: lines) (lineno - n) = Some line /\
      re_match directive_re line <> None).
  { intros Hin. apply IH in Hin. destruct Hin as [Hle [line [Hn Hm]]].
    split; [lia|]. exists line. split; [|exact Hm].
    replace (lineno - n) with (S (lineno - S n)) by lia. exact Hn. }
  destruct (re_match directive_re l) as [m|] eqn:Hm; [|exact Hrest].
  destruct (group 1 l m) as [text|]; [|simpl; tauto].
  destruct (shlex_split text) as [a|e]; [|simpl; tauto].
  simpl. intros [Heq|Hin]; [|exact (Hrest Hin)].
  inv Heq. split; [lia|]. exists l. rewrite Nat.sub_diag. simpl.
  split; [reflexivity | congruence].
Qed.

Lemma parse_lines_increasing (lines : list str) :
  forall n,
    StronglySorted lt
      (map fst (yielded (parse_lines (enumerate_from n lines)))) /\
    Forall (fun k => n <= k)
      (map fst (yielded (parse_lines (enumerate_from n lines)))).
Proof.
  induction lines as [|l lines IH]; intros n; simpl.
  - split; constructor.
  - destruct (IH (S n)) as [Hs Hf].
    assert (Hf' : Forall (fun k => n <= k)
              (map fst (yielded (parse_lines (enumerate_from (S n) lines))))).
    { eapply Forall_impl; [|exact Hf]. simpl. intros k Hk. lia. }
    destruct (re_match directive_re l) as [m|]; [|split; assumption].
    destruct (group 1 l m) as [text|]; [|simpl; split; constructor].
    destruct (shlex_split text) as [a|e]; [|simpl; split; constructor].
    simpl. split.
    + constructor; [exact Hs|].
      eapply Forall_impl; [|exact Hf]. simpl. intros k Hk. lia.
    + constructor; [lia | exact Hf'].
Qed.

(** The directives come with the numbers of their lines in the header,
    counted from 0: the numbers increase strictly, and each is the index
    of a line of the header that matches the directive pattern. *)
Theorem directive_line_numbers (header : str) :
  StronglySorted lt (map fst (yielded (parse_directives header))) /\
  forall lineno args,
    In (lineno, args) (yielded (parse_directives header)) ->
    exists line,
      nth_error (splitlines header) lineno = Some line /\
      re_match directive_re line <> None.
Proof.
  unfold parse_directives, enumerate. split.
  - apply parse_lines_increasing.
  - intros lineno args Hin. apply parse_lines_numbers in Hin.
    destruct Hin as [_ [line [Hn Hm]]]. rewrite Nat.sub_0_r in Hn.
    exists line. split; assumption.
Qed.

(** ** The tokens of a directive *)

Lemma plain_char_tests (c : ascii) :
  plain_char c = true ->
  in_chars c shlex_whitespace = false /\
  in_chars c shlex_quotes = false /\
  in_chars c shlex_escape = false.
Proof.
  unfold plain_char. intros H.
  apply andb_prop in H. destruct H as [H H3].
  apply andb_prop in H. destruct H as [H1 H2].
  apply negb_true_iff in H1, H2, H3. auto.
Qed.

(** In a word, plain characters go to the token. *)
Lemma lex_word_run (w : str) :
  forall escapedstate quoted token s,
    forallb plain_char w = true ->
    lex S_word escapedstate quoted token (w ++ s)
    = lex S_word escapedstate quoted (token ++ w) s.
Proof.
  induction w as [|c w IH]; intros escapedstate quoted token s Hw.
  - rewrite app_nil_r. reflexivity.
  - simpl in Hw. apply andb_prop in Hw. destruct Hw as [Hc Hw].
    destruct (plain_char_tests c Hc) as [H1 [H2 H3]].
    cbn [app lex]. rewrite H1, H2, H3. rewrite IH by exact Hw.
    rewrite <- app_assoc. reflexivity.
Qed.

(** Inside quotes everything up to the closing quote goes to the token. *)
Lemma lex_quoted_run (q : ascii) (t : str) :
  forall escapedstate quoted token s,
    (forall c, In c t ->
               Ascii.eqb c q = false /\
               in_chars c shlex_escape && in_chars q shlex_escapedquotes
               = false) ->
    lex (S_quote q) escapedstate quoted token (t ++ q :: s)
    = lex S_word escapedstate true (token ++ t) s.
Proof.
  induction t as [|c t IH]; intros escapedstate quoted token s Ht.
  - cbn [app lex]. rewrite Ascii.eqb_refl, app_nil_r. reflexivity.
  - destruct (Ht c (or_introl eq_refl)) as [H1 H2].
    cbn [app lex]. rewrite H1, H2.
    rewrite IH by (intros c' Hc'; apply Ht; right; exact Hc').
    rewrite <- app_assoc. reflexivity.
Qed.

Lemma lex_word_start (c : ascii) (s : str) (escapedstate : lexstate)
  (quoted : bool) :
  plain_char c = true ->
  lex S_space escapedstate quoted [] (c :: s)
  = lex S_word escapedstate quoted [c] s.
Proof.
  intros Hc. destruct (plain_char_tests c Hc) as [H1 [H2 H3]].
  cbn [lex]. rewrite H1, H2, H3. reflexivity.
Qed.

Lemma lex_word_end (w : str) (s : str) (escapedstate : lexstate)
  (quoted : bool) :
  w <> [] ->
  lex S_word escapedstate quoted w (" "%char :: s)
  = yield_token (Some w) (lex S_space S_space false [] s).
Proof.
  intros Hw. cbn [lex].
  change (in_chars " " shlex_whitespace) with true. cbn iota.
  apply str_eqb_neq in Hw. rewrite Hw. cbn [negb orb].
  destruct w; [apply str_eqb_neq in Hw; congruence | reflexivity].
Qed.

Lemma lex_plain_words (ws : list str) :
  Forall plain_word ws ->
  lex S_space S_space false [] (join [" "%char] ws) = Ok ws.
Proof.
  induction ws as [|w ws IH]; intros Hall; [reflexivity|].
  apply Forall_cons_iff in Hall. destruct Hall as [[Hne Hw] Hall].
  destruct w as [|c w]; [congruence|].
  simpl in Hw. apply andb_prop in Hw. destruct Hw as [Hc Hw].
  destruct ws as [|w2 ws].
  - cbn [join]. rewrite (lex_word_start c w S_space false Hc).
    rewrite <- (app_nil_r w) at 1.
    rewrite lex_word_run by exact Hw. reflexivity.
  - change (join [" "%char] ((c :: w) :: w2 :: ws))
      with (c :: w ++ " "%char :: join [" "%char] (w2 :: ws)).
    rewrite (lex_word_start c _ S_space false Hc).
    rewrite lex_word_run by exact Hw.
    rewrite lex_word_end by discriminate.
    rewrite (IH Hall). reflexivity.
Qed.

(** Round trip of plain words: the words of a directive written with one
    space between them are the tokens, in the same order. *)
Theorem shlex_split_plain_words (ws : list str) :
  Forall plain_word ws -> shlex_split (join [" "%char] ws) = Ok ws.
Proof. apply lex_plain_words. Qed.

Lemma shlex_split_plain_words_witness :
  Forall plain_word [py "require"; py "lib/dep-1.0"; py "x_y"] /\
  shlex_split (py "require lib/dep-1.0 x_y")
  = Ok [py "require"; py "lib/dep-1.0"; py "x_y"].
Proof.
  assert (H : Forall plain_word [py "require"; py "lib/dep-1.0"; py "x_y"]).
  { repeat constructor; discriminate. }
  split; [exact H|].
  exact (shlex_split_plain_words _ H).
Defined.

(** A quoted argument: after a plain word and a space, a text in single
    or double quotes is one token, the text without the quotes, with its
    whitespace kept; an empty pair of quotes is the empty token.  In
    double quotes the text has no backslash. *)
Theorem shlex_split_quoted_argument (w : str) (q : ascii) (t : str) :
  plain_word w ->
  in_chars q shlex_quotes = true ->
  ~ In q t ->
  (q = "034"%char -> ~ In "\"%char t) ->
  shlex_split (w ++ " "%char :: q :: t ++ [q]) = Ok [w; t].
Proof.
  intros [Hne Hw] Hq Hnq Hesc.
  destruct w as [|c w]; [congruence|].
  simpl in Hw. apply andb_prop in Hw. destruct Hw as [Hc Hw].
  unfold shlex_split. cbn [app].
  rewrite (lex_word_start c _ S_space false Hc).
  rewrite lex_word_run by exact Hw.
  rewrite lex_word_end by discriminate.
  assert (Hstart : lex S_space S_space false [] (q :: t ++ [q])
                   = lex (S_quote q) S_space false [] (t ++ [q])).
  { assert (Hq' : q = "039"%char \/ q = "034"%char).
    { unfold in_chars, shlex_quotes in Hq. simpl in Hq.
      apply orb_prop in Hq. destruct Hq as [Hq|Hq].
      - left. apply Ascii.eqb_eq. exact Hq.
      - rewrite orb_false_r in Hq. right. apply Ascii.eqb_eq. exact Hq. }
    destruct Hq' as [->| ->]; reflexivity. }
  rewrite Hstart.
  rewrite (lex_quoted_run q t S_space false [] []).
  - simpl. destruct t; reflexivity.
  - intros c' Hc'. split.
    + apply Ascii.eqb_neq. intros ->. exact (Hnq Hc').
    + destruct (in_chars q shlex_escapedquotes) eqn:Hq2;
        [|apply andb_false_r].
      rewrite andb_true_r.
      assert (q = "034"%char).
      { unfold in_chars, shlex_escapedquotes in Hq2. simpl in Hq2.
        rewrite orb_false_r in Hq2. apply Ascii.eqb_eq. exact Hq2. }
      unfold in_chars, shlex_escape. simpl. rewrite orb_false_r.
      apply Ascii.eqb_neq. intros ->. exact (Hesc H Hc').
Qed.

Lemma shlex_split_quoted_argument_witness :
  plain_word (py "require") /\
  shlex_split (py "require 'path with space.js'")
  = Ok [py "require"; py "path with space.js"].
Proof.
  assert (H : plain_word (py "require")) by (split; [discriminate|reflexivity]).
  split; [exact H|].
  refine (shlex_split_quoted_argument (py "require") "039"%char
            (py "path with space.js") H eq_refl _ _).
  - intros Hin. simpl in Hin.
    repeat (destruct Hin as [Hin|Hin]; [discriminate Hin|]). exact Hin.
  - discriminate.
Defined.

(** ** The shape of a directive line *)

Lemma word_is_directive_char (c : ascii) :
  isword c = true -> directive_char c = true.
Proof. intros H. unfold directive_char. rewrite H. apply orb_true_r. Qed.

Lemma firstn_exact {A : Type} (a b : list A) (n : nat) :
  n = List.length a -> firstn n (a ++ b) = a.
Proof.
  intros ->. rewrite firstn_app, Nat.sub_diag, firstn_all. simpl.
  apply app_nil_r.
Qed.

Lemma reach_marker (st st' : mstate) :
  reach (Alt (Chr "*") (Alt (Seq (Chr "/") (Chr "/")) (Chr "#"))) st st' ->
  exists mk, is_marker mk /\ rest st = mk ++ rest st' /\
             pos st' = pos st + List.length mk /\ caps st' = caps st.
Proof.
  intros H. apply reach_alt_inv in H. destruct H as [H|H].
  - apply reach_chr_inv in H. destruct H as [t [Hr ->]].
    exists (py "*"). unfold is_marker. simpl. repeat split; auto; lia.
  - apply reach_alt_inv in H. destruct H as [H|H].
    + apply reach_seq_inv in H. destruct H as [s1 [H1 H2]].
      apply reach_chr_inv in H1. destruct H1 as [t1 [Hr1 ->]].
      apply reach_chr_inv in H2. destruct H2 as [t2 [Hr2 ->]].
      simpl in Hr2. subst t1.
      exists (py "//"). unfold is_marker. simpl. repeat split; auto; lia.
    + apply reach_chr_inv in H. destruct H as [t [Hr ->]].
      exists (py "#"). unfold is_marker. simpl. repeat split; auto; lia.
Qed.

Lemma reach_eol_rest (st st' : mstate) :
  reach Eol st st' -> st' = st /\ (rest st = [] \/ rest st = newline).
Proof. inversion 1; subst; auto. Qed.

(** What a match of the directive pattern says about the line: whitespace,
    a marker, whitespace, the equals sign, whitespace, then the text of
    group 1, a word character followed by characters of the class, up to
    the end of the line or to a newline that ends it. *)
Lemma directive_match_shape (line : str) (m : mstate) :
  re_match directive_re line = Some m ->
  exists ws1 mk ws2 ws3 c t tail,
    line = ws1 ++ mk ++ ws2 ++ "="%char :: ws3 ++ (c :: t) ++ tail /\
    forallb isspace ws1 = true /\ is_marker mk /\
    forallb isspace ws2 = true /\ forallb isspace ws3 = true /\
    isword c = true /\ forallb directive_char t = true /\
    (tail = [] \/ tail = newline) /\
    group 1 line m = Some (c :: t).
Proof.
  intros Hm. apply re_match_sound in Hm.
  pose proof (initial_state_of line) as Hs0.
  unfold directive_re, Plus in Hm.
  apply (reach_seq_state line) in Hm; [|exact Hs0].
  destruct Hm as [s0 [Hb [Hm _]]].
  apply reach_bol_inv in Hb. destruct Hb as [-> _].
  apply (reach_seq_state line) in Hm; [|exact Hs0].
  destruct Hm as [sa [H1 [Hm Hsa]]].
  apply reach_star_cls in H1. destruct H1 as [ws1 [Hw1 [R1 [P1 C1]]]].
  apply (reach_seq_state line) in Hm; [|exact Hsa].
  destruct Hm as [sb [H2 [Hm Hsb]]].
  apply reach_marker in H2. destruct H2 as [mk [Hmk [R2 [P2 C2]]]].
  apply (reach_seq_state line) in Hm; [|exact Hsb].
  destruct Hm as [sc [H3 [Hm Hsc]]].
  apply reach_star_cls in H3. destruct H3 as [ws2 [Hw2 [R3 [P3 C3]]]].
  apply (reach_seq_state line) in Hm; [|exact Hsc].
  destruct Hm as [sd [H4 [Hm Hsd]]].
  apply reach_chr_inv in H4. destruct H4 as [t4 [R4 ->]].
  apply (reach_seq_state line) in Hm; [|exact Hsd].
  destruct Hm as [se [H5 [Hm Hse]]].
  apply reach_star_cls in H5. destruct H5 as [ws3 [Hw3 [R5 [P5 C5]]]].
  apply reach_seq_inv in Hm. destruct Hm as [sg [Hg He]].
  apply reach_eol_rest in He. destruct He as [-> Htail].
  apply reach_group_inv in Hg. destruct Hg as [sf3 [Hg Hsg]].
  rewrite Hsg in Htail |- *. simpl in Htail.
  apply reach_seq_inv in Hg. destruct Hg as [sf2 [Hg H8]].
  apply reach_seq_inv in Hg. destruct Hg as [sf1 [H6 H7]].
  apply reach_cls_inv in H6. destruct H6 as [c [t6 [R6 [Hc ->]]]].
  apply reach_star_cls in H7. destruct H7 as [w1 [Hw4 [R7 [P7 C7]]]].
  apply reach_star_cls in H8. destruct H8 as [w2 [Hw5 [R8 [P8 C8]]]].
  cbn [rest pos caps advance set_cap] in *.
  exists ws1, mk, ws2, ws3, c, (w1 ++ w2), (rest sf3).
  assert (Hse_rest : rest se = (c :: w1 ++ w2) ++ rest sf3).
  { rewrite R6, R7, R8. simpl. rewrite <- app_assoc. reflexivity. }
  repeat split; auto.
  - rewrite R1, R2, R3, R4, R5, Hse_rest. reflexivity.
  - rewrite forallb_app, Hw5, andb_true_r.
    clear - Hw4. induction w1 as [|x w1 IH]; [reflexivity|].
    simpl in *. apply andb_prop in Hw4. destruct Hw4 as [Hx Hw4].
    rewrite (word_is_directive_char x Hx). simpl. exact (IH Hw4).
  - unfold group. cbn [caps set_cap lookup_cap Nat.eqb].
    destruct Hse as [Hskip _]. rewrite Hskip, Hse_rest.
    rewrite firstn_exact; [reflexivity|].
    simpl. rewrite length_app. lia.
Qed.

(** ** When parsing and processing raise *)

Lemma directive_char_not_escape (c : ascii) :
  directive_char c = true -> in_chars c shlex_escape = false.
Proof.
  destruct c as [[] [] [] [] [] [] [] []]; vm_compute; intros H;
    try discriminate H; reflexivity.
Qed.

(** Without the escape character in the text, the only error of the lexer
    is a quote that is not closed. *)
Lemma lex_without_escape (input : str) :
  forall state escapedstate quoted token e,
    (forall c, In c input -> in_chars c shlex_escape = false) ->
    (forall x, state <> S_escape x) ->
    lex state escapedstate quoted token input = Raise e ->
    e = ValueError "No closing quotation".
Proof.
  induction input as [|c input IH];
    intros state escapedstate quoted token e Hin Hst H.
  - simpl in H. destruct state; try solve [inv H; reflexivity].
    + apply yield_token_raises in H. discriminate.
    + apply yield_token_raises in H. discriminate.
    + exfalso. exact (Hst e0 eq_refl).
  - assert (Hc : in_chars c shlex_escape = false)
      by (apply Hin; left; reflexivity).
    assert (Hin' : forall c', In c' input -> in_chars c' shlex_escape = false)
      by (intros c' Hc'; apply Hin; right; exact Hc').
    cbn [lex] in H. destruct state as [| |q|x].
    + rewrite Hc in H.
      repeat match type of H with
      | (if ?b then _ else _) = _ => destruct b
      | yield_token _ _ = _ => apply yield_token_raises in H
      end; (eapply IH; [exact Hin' | | exact H]); discriminate.
    + rewrite Hc in H.
      repeat match type of H with
      | (if ?b then _ else _) = _ => destruct b
      | yield_token _ _ = _ => apply yield_token_raises in H
      end; (eapply IH; [exact Hin' | | exact H]); discriminate.
    + rewrite Hc in H. cbn [andb] in H.
      destruct (Ascii.eqb c q);
        (eapply IH; [exact Hin' | | exact H]); discriminate.
    + exfalso. exact (Hst x eq_refl).
Qed.

(** Without quotes and escape characters the lexer returns. *)
Lemma lex_without_quotes (input : str) :
  forall state escapedstate quoted token,
    (forall c, In c input ->
               in_chars c shlex_escape = false /\
               in_chars c shlex_quotes = false) ->
    state = S_space \/ state = S_word ->
    exists args, lex state escapedstate quoted token input = Ok args.
Proof.
  assert (Hy : forall tok more,
             (exists args, more = Ok args) ->
             exists args, yield_token tok more = Ok args).
  { intros tok more [args ->]. destruct tok; simpl; eauto. }
  induction input as [|c input IH];
    intros state escapedstate quoted token Hin Hst.
  - destruct Hst as [-> | ->]; simpl; apply Hy; eauto.
  - destruct (Hin c (or_introl eq_refl)) as [He Hq].
    assert (Hin' : forall c', In c' input ->
                     in_chars c' shlex_escape = false /\
                     in_chars c' shlex_quotes = false)
      by (intros c' Hc'; apply Hin; right; exact Hc').
    destruct Hst as [-> | ->]; cbn [lex]; rewrite He, Hq;
      repeat match goal with
      | |- exists _, (if ?b then _ else _) = _ => destruct b
      | |- exists _, yield_token _ _ = _ => apply Hy
      end; apply IH; auto.
Qed.

Lemma enumerate_from_in {A : Type} (xs : list A) :
  forall n k x, In (k, x) (enumerate_from n xs) -> In x xs.
Proof.
  induction xs as [|y xs IH]; intros n k x; simpl; [tauto|].
  intros [H|H]; [inv H; auto | right; eapply IH; eauto].
Qed.

Lemma splitlines_from_chars (n : nat) :
  forall s cur line c,
    List.length s <= n ->
    In line (splitlines_from cur s) -> In c line -> In c cur \/ In c s.
Proof.
  induction n as [|n IH]; intros s cur line c Hn Hl Hc.
  - destruct s; [|simpl in Hn; lia].
    simpl in Hl. destruct cur as [|y cur]; [destruct Hl|].
    destruct Hl as [<-|[]]. left. apply in_rev. exact Hc.
  - destruct s as [|x s].
    { simpl in Hl. destruct cur as [|y cur]; [destruct Hl|].
      destruct Hl as [<-|[]]. left. apply in_rev. exact Hc. }
    simpl in Hn. cbn [splitlines_from] in Hl.
    assert (Hnew : forall s', List.length s' <= n ->
                     (forall c', In c' s' -> In c' (x :: s)) ->
                     In line (rev cur :: splitlines_from [] s') ->
                     In c cur \/ In c (x :: s)).
    { intros s' Hn' Hsub [<-|Hl']; [left; apply in_rev; exact Hc|].
      destruct (IH s' [] line c Hn' Hl' Hc) as [[]|H].
      right. apply Hsub. exact H. }
    destruct (Ascii.eqb x "010").
    { apply (Hnew s); [lia | intros c' H'; right; exact H' | exact Hl]. }
    destruct (Ascii.eqb x "013").
    + destruct s as [|y s'].
      { apply (Hnew []); [simpl; lia | intros c' [] | exact Hl]. }
      destruct (Ascii.eqb y "010").
      * apply (Hnew s'); [simpl in Hn; lia | | exact Hl].
        intros c' H'. right. right. exact H'.
      * apply (Hnew (y :: s')); [lia | | exact Hl].
        intros c' H'. right. exact H'.
    + destruct (IH s (x :: cur) line c ltac:(lia) Hl Hc) as [[<-|H]|H].
      * right. left. reflexivity.
      * left. exact H.
      * right. right. exact H.
Qed.

Lemma splitlines_chars (s line : str) (c : ascii) :
  In line (splitlines s) -> In c line -> In c s.
Proof.
  intros Hl Hc.
  destruct (splitlines_from_chars (List.length s) s [] line c
              (Nat.le_refl _) Hl Hc) as [[]|H].
  exact H.
Qed.

(** How the parser ends on a list of numbered lines: where it raises, a
    line matches the pattern and the lexer raises on the text of its
    group 1. *)
Lemma parse_lines_raise (lines : list (nat * str)) (e : exn) :
  gen_end (parse_lines lines) = Some e ->
  exists n line m text,
    In (n, line) lines /\
    re_match directive_re line = Some m /\
    group 1 line m = Some text /\
    shlex_split text = Raise e.
Proof.
  induction lines as [|[n line] lines IH]; simpl; [discriminate|].
  assert (Hrest : gen_end (parse_lines lines) = Some e ->
            exists n0 line0 m text,
              ((n, line) = (n0, line0) \/ In (n0, line0) lines) /\
              re_match directive_re line0 = Some m /\
              group 1 line0 m = Some text /\
              shlex_split text = Raise e).
  { intros H. destruct (IH H) as [n0 [l0 [m [text [Hin Hr]]]]].
    exists n0, l0, m, text. split; [right; exact Hin | exact Hr]. }
  destruct (re_match directive_re line) as [m|] eqn:Hm; [|exact Hrest].
  destruct (directive_text_starts_with_word line m Hm) as [c [t [Hg _]]].
  rewrite Hg.
  destruct (shlex_split (c :: t)) as [a|e'] eqn:Hx; simpl.
  - exact Hrest.
  - intros H. inv H. exists n, line, m, (c :: t). auto.
Qed.

Lemma shape_text_chars (line : str) (m : mstate) (text : str) :
  re_match directive_re line = Some m ->
  group 1 line m = Some text ->
  forallb directive_char text = true /\
  (forall c, In c text -> In c line).
Proof.
  intros Hm Hg. apply directive_match_shape in Hm.
  destruct Hm as [ws1 [mk [ws2 [ws3 [c [t [tail H]]]]]]].
  destruct H as [Hl [_ [_ [_ [_ [Hc [Ht [_ Hg']]]]]]]].
  rewrite Hg in Hg'. injection Hg' as Htext. rewrite Htext. split.
  - simpl. rewrite (word_is_directive_char c Hc), Ht. reflexivity.
  - intros x Hx. rewrite Hl.
    apply in_or_app. right. apply in_or_app. right.
    apply in_or_app. right. right.
    apply in_or_app. right. apply in_or_app. left. exact Hx.
Qed.

(** The only exception of [parse_directives] is the [ValueError] of a
    quote that is not closed. *)
Theorem parse_raises_only_unclosed_quote (header : str) (e : exn) :
  gen_end (parse_directives header) = Some e ->
  e = ValueError "No closing quotation".
Proof.
  intros H. apply parse_lines_raise in H.
  destruct H as [n [line [m [text [_ [Hm [Hg Hx]]]]]]].
  destruct (shape_text_chars line m text Hm Hg) as [Hchars _].
  unfold shlex_split in Hx. revert Hx. apply lex_without_escape.
  - intros c Hc. apply directive_char_not_escape.
    rewrite forallb_forall in Hchars. apply Hchars. exact Hc.
  - discriminate.
Qed.

Lemma parse_raises_only_unclosed_quote_witness :
  gen_end (parse_directives (py "//= require 'a"))
  = Some (ValueError "No closing quotation").
Proof.
  assert (H : exists e, gen_end (parse_directives (py "//= require 'a"))
                        = Some e)
    by (vm_compute; eexists; reflexivity).
  destruct H as [e H]. rewrite H. f_equal.
  exact (parse_raises_only_unclosed_quote _ e H).
Defined.

Lemma parse_lines_quote_free (lines : list (nat * str)) :
  (forall n line c, In (n, line) lines -> In c line ->
                    in_chars c shlex_quotes = false) ->
  gen_end (parse_lines lines) = None.
Proof.
  intros Hq.
  destruct (gen_end (parse_lines lines)) as [e|] eqn:He; [|reflexivity].
  exfalso. apply parse_lines_raise in He.
  destruct He as [n [line [m [text [Hin [Hm [Hg Hx]]]]]]].
  destruct (shape_text_chars line m text Hm Hg) as [Hchars Hsub].
  destruct (lex_without_quotes text S_space S_space false []) as [args Ha].
  - intros c Hc. split.
    + apply directive_char_not_escape.
      rewrite forallb_forall in Hchars. apply Hchars. exact Hc.
    + apply (Hq n line c Hin). apply Hsub. exact Hc.
  - left. reflexivity.
  - unfold shlex_split in Hx. congruence.
Qed.

(** A header without quote characters is parsed to its end: the parser
    does not raise. *)
Theorem parse_without_quotes_ends (header : str) :
  (forall c, In c header -> in_chars c shlex_quotes = false) ->
  gen_end (parse_directives header) = None.
Proof.
  intros Hq. apply parse_lines_quote_free.
  intros n line c Hin Hc. apply Hq.
  apply enumerate_from_in in Hin.
  apply (splitlines_chars header line c Hin Hc).
Qed.

Lemma quote_free_forallb (s : str) :
  forallb (fun c => negb (in_chars c shlex_quotes)) s = true ->
  forall c, In c s -> in_chars c shlex_quotes = false.
Proof.
  intros H c Hc. rewrite forallb_forall in H.
  apply negb_true_iff. apply H. exact Hc.
Qed.

Lemma parse_without_quotes_ends_witness :
  (forall c, In c (py "//= require lib/dep") ->
             in_chars c shlex_quotes = false) /\
  gen_end (parse_directives (py "//= require lib/dep")) = None.
Proof.
  assert (H : forall c, In c (py "//= require lib/dep") ->
                        in_chars c shlex_quotes = false)
    by (apply quote_free_forallb; reflexivity).
  split; [exact H|].
  exact (parse_without_quotes_ends _ H).
Defined.

Lemma parse_lines_args (lines : list (nat * str)) (lineno : nat)
  (args : list str) :
  In (lineno, args) (yielded (parse_lines lines)) -> args <> [].
Proof.
  intros Hin. apply parse_lines_yield in Hin.
  destruct Hin as [line [m [text [_ [Hm [Hg Hx]]]]]].
  destruct (directive_text_starts_with_word line m Hm) as [c [t [Hg' Hc]]].
  rewrite Hg in Hg'. injection Hg' as ->.
  exact (shlex_split_word_first c t args Hc Hx).
Qed.

Section Benign.
Context {E : Environment}.
Variable self : DirectivesProcessor.
Hypothesis Hbenign : benign E.

Lemma render_returns (a : AssetAttributes) (p : str) (st : pstate) :
  exists s',
    bind (call (get_asset self a p)) (fun asset =>
    bind (call (asset_str asset)) (fun text =>
    body_append (strip text))) st = (Ok tt, s').
Proof.
  destruct Hbenign as [_ [_ [Hnew Hstr]]].
  unfold bind, call, get_asset.
  destruct (Hnew a p (context self) (calls self) (world st))
    as [asset [w1 H1]].
  rewrite H1. cbn [world body].
  destruct (Hstr asset w1) as [text [w2 H2]]. rewrite H2.
  unfold body_append. eexists. reflexivity.
Qed.

Lemma append_assets_returns (entries : list (AssetAttributes * str)) :
  forall st, exists s', append_assets self entries st = (Ok tt, s').
Proof.
  induction entries as [|[a p] entries IH]; intros st.
  - eexists. reflexivity.
  - cbn [append_assets].
    destruct (render_returns a p st) as [s1 H1].
    destruct (IH s1) as [s2 H2]. exists s2.
    unfold bind in *.
    destruct (call (get_asset self a p) st) as [[asset|e] sa];
      [|discriminate].
    destruct (call (asset_str asset) sa) as [[text|e] sb];
      [|discriminate].
    rewrite H1. exact H2.
Qed.

Lemma require_returns (args : list str) (lineno : nat) (st : pstate) :
  exists r s',
    process_require_directive self args lineno st = (r, s') /\
    (r = Ok tt \/ r = Raise InvalidDirective).
Proof.
  unfold process_require_directive.
  destruct args as [|a0 [|a1 args]]; cbn [List.length Nat.eqb negb].
  - eexists. eexists. split; [reflexivity | right; reflexivity].
  - destruct Hbenign as [Hfind _].
    unfold bind at 1. unfold try_except, bind at 1, of_result, getitem.
    cbn [nth_error]. unfold call at 1.
    destruct (Hfind (new_AssetAttributes (get_relative_path self a0 false))
                true (world st)) as [[[a p] [w1 H1]]|[w1 H1]].
    + unfold find. rewrite H1. cbn [is_FileNotFound].
      destruct (render_returns a p (PState (body st) w1)) as [s2 H2].
      exists (Ok tt), s2. split; [exact H2 | left; reflexivity].
    + unfold find. rewrite H1. cbn [is_FileNotFound]. unfold raise.
      eexists. eexists. split; [reflexivity | right; reflexivity].
  - eexists. eexists. split; [reflexivity | right; reflexivity].
Qed.

Lemma require_directory_returns (args : list str) (lineno : nat)
  (st : pstate) :
  exists r s',
    process_require_directory_directive self args lineno st = (r, s') /\
    (r = Ok tt \/ r = Raise InvalidDirective).
Proof.
  unfold process_require_directory_directive.
  destruct args as [|a0 [|a1 args]]; cbn [List.length Nat.eqb negb].
  - eexists. eexists. split; [reflexivity | right; reflexivity].
  - destruct Hbenign as [_ [Hlist _]].
    unfold bind, of_result, getitem, call. cbn [nth_error].
    destruct (Hlist (get_relative_path self a0 true)
                (attr_suffix (asset_attributes self)) (world st))
      as [entries [w1 H1]].
    rewrite H1.
    destruct (append_assets_returns
                (sorted_by (fun x => attr_path (fst x)) entries)
                (PState (body st) w1)) as [s2 H2].
    exists (Ok tt), s2. split; [exact H2 | left; reflexivity].
  - eexists. eexists. split; [reflexivity | right; reflexivity].
Qed.

Lemma guarded_returns (lineno : nat) (args : list str) (flag : bool)
  (st : pstate) :
  args <> [] ->
  exists f s',
    try_except (dispatch self lineno args flag) is_InvalidDirective
      (ret flag) st = (Ok f, s').
Proof.
  intros Hne. destruct args as [|name rest]; [congruence|].
  unfold try_except, dispatch. unfold bind at 1, of_result, getitem.
  cbn [nth_error tl].
  destruct (str_eqb name (py "require")).
  { unfold bind.
    destruct (require_returns rest lineno st) as [r [s1 [H [-> | ->]]]];
      rewrite H; eexists; eexists; reflexivity. }
  destruct (str_eqb name (py "require_directory")).
  { unfold bind.
    destruct (require_directory_returns rest lineno st)
      as [r [s1 [H [-> | ->]]]];
      rewrite H; eexists; eexists; reflexivity. }
  destruct (str_eqb name (py "require_self")).
  { unfold bind, process_require_self_directive.
    destruct rest; eexists; eexists; reflexivity. }
  eexists. eexists. reflexivity.
Qed.

Lemma loop_returns (g : generator (nat * list str)) :
  gen_end g = None ->
  (forall lineno args, In (lineno, args) (yielded g) -> args <> []) ->
  forall flag st,
    exists f s', directives_loop self g flag st = (Ok f, s').
Proof.
  induction g as [|[lineno args] g IH|e]; intros Hend Hargs flag st.
  - eexists. eexists. reflexivity.
  - cbn [directives_loop]. unfold bind.
    destruct (guarded_returns lineno args flag st) as [f [s1 H1]].
    { apply (Hargs lineno). left. reflexivity. }
    rewrite H1. apply IH; [exact Hend|].
    intros l a Hin. apply (Hargs l). right. exact Hin.
  - discriminate.
Qed.

(** With a header without quote characters and collaborators that
    always answer, [process] returns: no directive of the header, well
    formed or not, makes it raise. *)
Theorem process_returns (w : World) :
  (forall c, In c (source_header self) ->
             in_chars c shlex_quotes = false) ->
  exists out w', process self w = (Ok out, w').
Proof.
  intros Hq. unfold process.
  destruct (source_header self) as [|c t] eqn:Hh.
  - eexists. eexists. reflexivity.
  - unfold bind, process_directives. rewrite <- Hh in *.
    destruct (loop_returns (parse_directives (source_header self)))
      with (flag := false) (st := PState [] w) as [f [s H]].
    + apply parse_lines_quote_free.
      intros n line x Hin Hx. apply Hq.
      apply enumerate_from_in in Hin.
      apply (splitlines_chars _ line x Hin Hx).
    + intros lineno args Hin. exact (parse_lines_args _ _ _ Hin).
    + rewrite H. eexists. eexists. reflexivity.
Qed.
End Benign.

Lemma lenient_env_benign : benign lenient_env.
Proof.
  repeat split.
  - intros a logical w. cbn -[demo_lookup demo_files].
    destruct (demo_lookup demo_files a);
      [left; eexists; eexists | right; eexists]; reflexivity.
  - intros p s w. cbn. eexists. eexists. reflexivity.
  - intros a p ctx cls w. cbn. eexists. eexists. reflexivity.
  - intros a w. cbn -[demo_lookup demo_files].
    destruct (demo_lookup demo_files a); eexists; eexists; reflexivity.
Qed.

Lemma process_returns_witness :
  benign lenient_env /\
  (forall c, In c (source_header (lenient_processor demo_source_errors)) ->
             in_chars c shlex_quotes = false) /\
  exists out w',
    process (lenient_processor demo_source_errors) [] = (Ok out, w').
Proof.
  assert (Hh : source_header (lenient_processor demo_source_errors)
               = py "/*
 *= require nonexistent
 *= require_self here
 *= frobnicate foo
 *= require lib/dep
 */") by (vm_compute; reflexivity).
  assert (Hq : forall c,
             In c (source_header (lenient_processor demo_source_errors)) ->
             in_chars c shlex_quotes = false).
  { rewrite Hh. apply quote_free_forallb. vm_compute. reflexivity. }
  split; [exact lenient_env_benign|]. split; [exact Hq|].
  exact (process_returns (lenient_processor demo_source_errors)
           lenient_env_benign [] Hq).
Defined.

(** ** The matcher finds every match *)

Lemma reach_length (r : regex) (st st' : mstate) :
  reach r st st' -> List.length (rest st') <= List.length (rest st).
Proof.
  induction 1; cbn [advance set_cap rest] in *;
    try match goal with
        | H : rest _ = _ :: _ |- _ => rewrite H; simpl
        end; lia.
Qed.

Lemma reach_consumes (r : regex) (st st' : mstate) :
  reach r st st' -> nullable r = false ->
  List.length (rest st') < List.length (rest st).
Proof.
  induction 1; cbn [nullable]; intros Hn; try discriminate;
    cbn [advance set_cap rest] in *;
    try match goal with
        | H : rest _ = _ :: _ |- _ => rewrite H; simpl; lia
        end.
  - apply andb_false_iff in Hn. destruct Hn as [Hn|Hn].
    + specialize (IHreach1 Hn). apply reach_length in H0. lia.
    + specialize (IHreach2 Hn). apply reach_length in H. lia.
  - apply orb_false_elim in Hn. destruct Hn as [Hn _]. auto.
  - apply orb_false_elim in Hn. destruct Hn as [_ Hn]. auto.
  - auto.
Qed.

(** Where the pattern has a path that the rest of the pattern accepts, the
    matcher returns a match. *)
Lemma bt_complete (r : regex) :
  consuming_repeats r = true ->
  forall k st st',
    reach r st st' -> k st' <> None -> bt r k st <> None.
Proof.
  induction r as [c|p| | | |r1 IH1 r2 IH2|r1 IH1 r2 IH2|r1 IH1|r1 IH1|r1 IH1
                 |n r1 IH1]; cbn [consuming_repeats]; intros Hw k st st' H Hk.
  - apply reach_chr_inv in H. destruct H as [t [Hr ->]].
    cbn [bt]. rewrite Hr, Ascii.eqb_refl. exact Hk.
  - apply reach_cls_inv in H. destruct H as [x [t [Hr [Hp ->]]]].
    cbn [bt]. rewrite Hr, Hp. exact Hk.
  - inversion H; subst. cbn [bt].
    match goal with Hr : rest st = _ |- _ => rewrite Hr end. exact Hk.
  - apply reach_bol_inv in H. destruct H as [-> Hp].
    cbn [bt]. rewrite Hp. exact Hk.
  - apply reach_eol_rest in H. destruct H as [-> [Hr|Hr]];
      cbn [bt]; rewrite Hr; [exact Hk | simpl; exact Hk].
  - apply andb_prop in Hw. destruct Hw as [Hw1 Hw2].
    apply reach_seq_inv in H. destruct H as [st1 [H1 H2]].
    cbn [bt]. apply (IH1 Hw1 _ st st1 H1). apply (IH2 Hw2 _ st1 st' H2 Hk).
  - apply andb_prop in Hw. destruct Hw as [Hw1 Hw2].
    apply reach_alt_inv in H. cbn [bt].
    destruct (bt r1 k st) as [m|] eqn:Hb; [discriminate|].
    destruct H as [H|H].
    + exfalso. apply (IH1 Hw1 k st st' H Hk). exact Hb.
    + apply (IH2 Hw2 k st st' H Hk).
  - apply andb_prop in Hw. destruct Hw as [Hn Hw1].
    apply negb_true_iff in Hn. cbn [bt].
    assert (Hfuel : List.length (rest st) <= List.length (rest st))
      by lia.
    revert Hfuel. generalize (List.length (rest st)) at 2 3 as fuel.
    intros fuel. revert st H.
    induction fuel as [|fuel IHf]; intros st H Hfuel.
    + inversion H; subst; [exact Hk|].
      match goal with Hr : reach r1 st _ |- _ =>
        apply (fun h => reach_consumes _ _ _ h Hn) in Hr end. lia.
    + match goal with
      | |- match ?b with _ => _ end <> None => destruct b as [m|] eqn:Hb
      end; [discriminate|].
      inversion H; subst; [exact Hk|].
      exfalso. revert Hb.
      match goal with Hr : reach r1 st ?s1 |- _ =>
        pose proof (reach_consumes _ _ _ Hr Hn) as Hlt;
        apply (IH1 Hw1 _ st s1 Hr)
      end.
      apply Nat.ltb_lt in Hlt. rewrite Hlt.
      apply IHf; [assumption|]. apply Nat.ltb_lt in Hlt. lia.
  - apply andb_prop in Hw. destruct Hw as [Hn Hw1].
    apply negb_true_iff in Hn. cbn [bt].
    assert (Hfuel : List.length (rest st) <= List.length (rest st))
      by lia.
    revert Hfuel. generalize (List.length (rest st)) at 2 3 as fuel.
    intros fuel. revert st H.
    induction fuel as [|fuel IHf]; intros st H Hfuel.
    + inversion H; subst; [exact Hk|].
      match goal with Hr : reach r1 st _ |- _ =>
        apply (fun h => reach_consumes _ _ _ h Hn) in Hr end. lia.
    + destruct (k st) as [m|] eqn:Hk0; [discriminate|].
      inversion H; subst; [congruence|].
      match goal with Hr : reach r1 st ?s1 |- _ =>
        pose proof (reach_consumes _ _ _ Hr Hn) as Hlt;
        apply (IH1 Hw1 _ st s1 Hr)
      end.
      apply Nat.ltb_lt in Hlt. rewrite Hlt.
      apply IHf; [assumption|]. apply Nat.ltb_lt in Hlt. lia.
  - cbn [bt]. destruct (bt r1 k st) as [m|] eqn:Hb; [discriminate|].
    inversion H; subst; [|exact Hk].
    exfalso. revert Hb.
    match goal with Hr : reach r1 st st' |- _ =>
      apply (IH1 Hw k st st' Hr Hk) end.
  - apply reach_group_inv in H. destruct H as [s1 [H ->]].
    cbn [bt]. apply (IH1 Hw _ st s1 H). exact Hk.
Qed.

(** A greedy repeat that nothing follows stops where its body has no
    match left. *)
Lemma star_exhausts (r : regex) :
  consuming_repeats r = true -> nullable r = false ->
  forall st m,
    bt (Star r) (fun s => Some s) st = Some m ->
    forall s', ~ reach r m s'.
Proof.
  intros Hw Hn st m H. cbn [bt] in H.
  assert (Hfuel : List.length (rest st) <= List.length (rest st)) by lia.
  revert Hfuel H. generalize (List.length (rest st)) at 2 3 as fuel.
  intros fuel. revert st.
  induction fuel as [|fuel IHf]; intros st Hfuel H s' Hr.
  - inv H. apply (fun h => reach_consumes _ _ _ h Hn) in Hr. lia.
  - match type of H with
    | match ?b with _ => _ end = _ => destruct b as [x|] eqn:Hb
    end.
    + inv H. apply bt_sound in Hb. destruct Hb as [s1 [H1 Hk]].
      destruct (List.length (rest s1) <? List.length (rest st)) eqn:Hlt;
        [|discriminate].
      apply Nat.ltb_lt in Hlt.
      apply (IHf s1 ltac:(lia) Hk s' Hr).
    + inv H. revert Hb. apply (bt_complete r Hw _ m s' Hr).
      pose proof (reach_consumes _ _ _ Hr Hn) as Hlt.
      apply Nat.ltb_lt in Hlt. rewrite Hlt.
      destruct fuel; cbn; [discriminate|].
      match goal with
      | |- match ?b with _ => _ end <> None => destruct b
      end; discriminate.
Qed.

(** A path of a pattern without the start anchor depends on the text
    only, not on the offset or the groups of the state it starts from. *)
Lemma reach_shift (r : regex) (st st' : mstate) :
  reach r st st' -> anchor_free r = true ->
  forall p c, exists p' c',
    reach r (MState p (rest st) c) (MState p' (rest st') c').
Proof.
  induction 1; cbn [anchor_free]; intros Ha p0 c0;
    try discriminate;
    try (apply andb_prop in Ha; destruct Ha as [Ha1 Ha2]).
  - exists (S p0), c0.
    exact (@reach_chr c (MState p0 (rest st) c0) t H).
  - exists (S p0), c0.
    exact (@reach_cls p x (MState p0 (rest st) c0) t H H0).
  - exists (S p0), c0.
    exact (@reach_any x (MState p0 (rest st) c0) t H).
  - exists p0, c0. exact (@reach_eol (MState p0 (rest st) c0) H).
  - destruct (IHreach1 Ha1 p0 c0) as [p1 [c1 H1]].
    destruct (IHreach2 Ha2 p1 c1) as [p2 [c2 H2]].
    exists p2, c2. eapply reach_seq; eauto.
  - destruct (IHreach Ha1 p0 c0) as [p1 [c1 H1]].
    exists p1, c1. apply reach_alt_l. exact H1.
  - destruct (IHreach Ha2 p0 c0) as [p1 [c1 H1]].
    exists p1, c1. apply reach_alt_r. exact H1.
  - exists p0, c0. apply reach_star_stop.
  - destruct (IHreach1 Ha p0 c0) as [p1 [c1 H1]].
    destruct (IHreach2 Ha p1 c1) as [p2 [c2 H2]].
    exists p2, c2. eapply reach_star_more; eauto.
  - exists p0, c0. apply reach_lazy_stop.
  - destruct (IHreach1 Ha p0 c0) as [p1 [c1 H1]].
    destruct (IHreach2 Ha p1 c1) as [p2 [c2 H2]].
    exists p2, c2. eapply reach_lazy_more; eauto.
  - destruct (IHreach Ha p0 c0) as [p1 [c1 H1]].
    exists p1, c1. apply reach_opt_some. exact H1.
  - exists p0, c0. apply reach_opt_none.
  - destruct (IHreach Ha p0 c0) as [p1 [c1 H1]].
    exists p1, ((n, (p0, p1)) :: c1).
    exact (@reach_group n r _ _ H1).
Qed.

(** After a match of the header pattern no further round of the pattern
    matches: what is left has no header. *)
Lemma header_match_maximal (src : str) (m : mstate) :
  re_match header_re src = Some m ->
  re_match header_re (rest m) = None.
Proof.
  intros Hm.
  assert (Hex : forall s', ~ reach header_round m s').
  { unfold re_match in Hm.
    change header_re with (Seq Bol (Seq header_round (Star header_round)))
      in Hm.
    cbn [bt pos Nat.eqb] in Hm.
    apply bt_sound in Hm. destruct Hm as [s1 [_ Hm]].
    apply (star_exhausts header_round eq_refl eq_refl s1 m Hm). }
  destruct (re_match header_re (rest m)) as [m2|] eqn:H2; [|reflexivity].
  exfalso. apply re_match_sound in H2.
  change header_re with (Seq Bol (Seq header_round (Star header_round)))
    in H2.
  apply reach_seq_inv in H2. destruct H2 as [s0 [Hb H2]].
  apply reach_bol_inv in Hb. destruct Hb as [-> _].
  apply reach_seq_inv in H2. destruct H2 as [s1 [H2 _]].
  destruct (reach_shift _ _ _ H2 eq_refl (pos m) (caps m)) as [p' [c' H3]].
  cbn [rest] in H3. destruct m as [pm rm cm]. exact (Hex _ H3).
Qed.

Section Maximal.
Context {E : Environment}.

(** The split takes the whole header: the body has no header of its
    own, so splitting the body again leaves it as it is. *)
Theorem body_has_no_header (attrs : AssetAttributes) (src : str)
  (ctx : RenderContext) (cls : Calls) :
  source_header
    (init attrs (source_body (init attrs src ctx cls)) ctx cls) = [] /\
  source_body
    (init attrs (source_body (init attrs src ctx cls)) ctx cls)
  = source_body (init attrs src ctx cls).
Proof.
  apply init_no_match.
  unfold init. destruct (re_match header_re src) as [m|] eqn:Hm;
    cbn [source_body].
  - pose proof (anchored_split (Plus header_round) src m Hm) as Hsplit.
    change (Seq Bol (Plus header_round)) with header_re in Hsplit.
    pose proof (re_match_sound _ _ _ Hm) as Hr.
    destruct (reach_state_of src _ _ _ Hr (initial_state_of src))
      as [[Hskip _] _].
    unfold group0 in Hsplit.
    rewrite <- (firstn_skipn (pos m) src) in Hsplit at 3.
    apply app_inv_head in Hsplit. rewrite Hsplit, Hskip.
    exact (header_match_maximal src m Hm).
  - exact Hm.
Qed.
End Maximal.

(** ** The directive grammar *)

Lemma reach_star_cls_intro (p : ascii -> bool) (w : str) :
  forallb p w = true ->
  forall n r c,
    reach (Star (Cls p)) (MState n (w ++ r) c)
      (MState (n + List.length w) r c).
Proof.
  induction w as [|x w IH]; intros Hw n r c.
  - simpl. rewrite Nat.add_0_r. apply reach_star_stop.
  - simpl in Hw. apply andb_prop in Hw. destruct Hw as [Hx Hw].
    apply reach_star_more with (st1 := MState (S n) (w ++ r) c).
    + exact (@reach_cls p x (MState n ((x :: w) ++ r) c) (w ++ r)
               eq_refl Hx).
    + replace (n + List.length (x :: w)) with (S n + List.length w)
        by (simpl; lia).
      apply IH. exact Hw.
Qed.

Lemma reach_marker_intro (mk : str) (n : nat) (r : str)
  (c : list (nat * (nat * nat))) :
  is_marker mk ->
  reach (Alt (Chr "*") (Alt (Seq (Chr "/") (Chr "/")) (Chr "#")))
    (MState n (mk ++ r) c) (MState (n + List.length mk) r c).
Proof.
  intros [-> | [-> | ->]]; simpl.
  - apply reach_alt_l.
    replace (n + 1) with (S n) by lia.
    exact (@reach_chr "*" (MState n ("*"%char :: r) c) r eq_refl).
  - apply reach_alt_r. apply reach_alt_l.
    replace (n + 2) with (S (S n)) by lia.
    apply reach_seq with (st1 := MState (S n) ("/"%char :: r) c).
    + exact (@reach_chr "/" (MState n ("/"%char :: "/"%char :: r) c)
               ("/"%char :: r) eq_refl).
    + exact (@reach_chr "/" (MState (S n) ("/"%char :: r) c) r eq_refl).
  - apply reach_alt_r. apply reach_alt_r.
    replace (n + 1) with (S n) by lia.
    exact (@reach_chr "#" (MState n ("#"%char :: r) c) r eq_refl).
Qed.

(** A line of the shape of a directive has a path of the pattern. *)
Lemma directive_reach (ws1 mk ws2 ws3 : str) (c : ascii) (t : str) :
  forallb isspace ws1 = true -> is_marker mk ->
  forallb isspace ws2 = true -> forallb isspace ws3 = true ->
  isword c = true -> forallb directive_char t = true ->
  exists st',
    reach directive_re
      (MState 0 (ws1 ++ mk ++ ws2 ++ "="%char :: ws3 ++ c :: t) []) st'.
Proof.
  intros H1 Hmk H2 H3 Hc Ht.
  rewrite <- (app_nil_r t).
  eexists. unfold directive_re, Plus.
  eapply reach_seq; [apply reach_bol; reflexivity|].
  eapply reach_seq; [apply (reach_star_cls_intro isspace ws1 H1)|].
  eapply reach_seq; [apply (reach_marker_intro mk _ _ _ Hmk)|].
  eapply reach_seq; [apply (reach_star_cls_intro isspace ws2 H2)|].
  eapply reach_seq;
    [exact (@reach_chr "=" (MState _ ("="%char :: ws3 ++ c :: t ++ []) _)
              _ eq_refl)|].
  eapply reach_seq; [apply (reach_star_cls_intro isspace ws3 H3)|].
  eapply reach_seq.
  - apply reach_group. eapply reach_seq.
    + eapply reach_seq; [|apply reach_star_stop].
      exact (@reach_cls isword c (MState _ (c :: t ++ []) _) _ eq_refl Hc).
    + apply (reach_star_cls_intro directive_char t Ht).
  - apply reach_eol. left. reflexivity.
Qed.

Lemma word_not_space (c : ascii) : isword c = true -> isspace c = false.
Proof.
  destruct c as [[] [] [] [] [] [] [] []]; vm_compute; intros H;
    try discriminate H; reflexivity.
Qed.

Lemma marker_head (mk mk' r r' : str) :
  is_marker mk -> is_marker mk' -> mk ++ r = mk' ++ r' -> r = r'.
Proof.
  intros [-> | [-> | ->]] [-> | [-> | ->]]; simpl; intros H;
    try discriminate H; congruence.
Qed.

Lemma marker_lstrip (mk r : str) :
  is_marker mk -> forall ws, forallb isspace ws = true ->
  lstrip (ws ++ mk ++ r) = mk ++ r.
Proof.
  intros [-> | [-> | ->]] ws Hws; simpl; apply lstrip_skips; auto.
Qed.

(** The parts of a directive line are determined by the line. *)
Lemma directive_shape_unique
  (ws1 mk ws2 ws3 ws1' mk' ws2' ws3' : str) (c c' : ascii) (r r' : str) :
  forallb isspace ws1 = true -> is_marker mk ->
  forallb isspace ws2 = true -> forallb isspace ws3 = true ->
  isword c = true ->
  forallb isspace ws1' = true -> is_marker mk' ->
  forallb isspace ws2' = true -> forallb isspace ws3' = true ->
  isword c' = true ->
  ws1 ++ mk ++ ws2 ++ "="%char :: ws3 ++ c :: r
  = ws1' ++ mk' ++ ws2' ++ "="%char :: ws3' ++ c' :: r' ->
  c :: r = c' :: r'.
Proof.
  intros H1 Hmk H2 H3 Hc H1' Hmk' H2' H3' Hc' Heq.
  apply (f_equal lstrip) in Heq.
  rewrite (marker_lstrip mk _ Hmk ws1 H1) in Heq.
  rewrite (marker_lstrip mk' _ Hmk' ws1' H1') in Heq.
  apply (marker_head _ _ _ _ Hmk Hmk') in Heq.
  apply (f_equal lstrip) in Heq.
  rewrite (lstrip_skips ws2 "="%char _ H2 eq_refl) in Heq.
  rewrite (lstrip_skips ws2' "="%char _ H2' eq_refl) in Heq.
  injection Heq as Heq.
  apply (f_equal lstrip) in Heq.
  rewrite (lstrip_skips ws3 c r H3 (word_not_space c Hc)) in Heq.
  rewrite (lstrip_skips ws3' c' r' H3' (word_not_space c' Hc')) in Heq.
  exact Heq.
Qed.

Lemma newline_in_tail (a b c d e : str) :
  In "010"%char (a ++ b ++ c ++ "="%char :: d ++ e ++ newline).
Proof.
  repeat (rewrite in_app_iff || simpl). tauto.
Qed.

(** A line of the shape of a directive, without a newline, matches the
    pattern, and its group 1 is the text after the last whitespace. *)
Lemma directive_match_of_shape (ws1 mk ws2 ws3 : str) (c : ascii) (t : str) :
  forallb isspace ws1 = true -> is_marker mk ->
  forallb isspace ws2 = true -> forallb isspace ws3 = true ->
  isword c = true -> forallb directive_char t = true ->
  ~ In "010"%char (ws1 ++ mk ++ ws2 ++ "="%char :: ws3 ++ c :: t) ->
  exists m,
    re_match directive_re (ws1 ++ mk ++ ws2 ++ "="%char :: ws3 ++ c :: t)
    = Some m /\
    group 1 (ws1 ++ mk ++ ws2 ++ "="%char :: ws3 ++ c :: t) m
    = Some (c :: t).
Proof.
  intros H1 Hmk H2 H3 Hc Ht Hnl.
  destruct (directive_reach ws1 mk ws2 ws3 c t H1 Hmk H2 H3 Hc Ht)
    as [st' Hr].
  remember (ws1 ++ mk ++ ws2 ++ "="%char :: ws3 ++ c :: t) as line eqn:Hl.
  destruct (re_match directive_re line) as [m|] eqn:Hm.
  - exists m. split; [reflexivity|].
    pose proof (directive_match_shape line m Hm) as Hs.
    destruct Hs as [ws1' [mk' [ws2' [ws3' [c' [t' [tail H]]]]]]].
    destruct H as [Hl' [H1' [Hmk' [H2' [H3' [Hc' [Ht' [Htail Hg]]]]]]]].
    assert (tail = []).
    { destruct Htail as [-> | ->]; [reflexivity|]. exfalso. apply Hnl.
      rewrite Hl'. apply newline_in_tail. }
    subst tail. rewrite app_nil_r in Hl'. rewrite Hg. f_equal.
    symmetry.
    apply (directive_shape_unique ws1 mk ws2 ws3 ws1' mk' ws2' ws3'
             c c' t t'); auto.
    rewrite <- Hl. exact Hl'.
  - exfalso. revert Hm. unfold re_match.
    apply (bt_complete directive_re eq_refl _ _ st' Hr). discriminate.
Qed.

(** The grammar of a directive line.  A line without a newline matches
    the directive pattern with [text] as its group 1 exactly when it is
    made of whitespace, one of the markers, whitespace, the equals sign,
    whitespace and [text], where [text] begins with a word character and
    goes on, to the end of the line, with characters of the class of the
    pattern. *)
Theorem directive_grammar (line text : str) :
  ~ In "010"%char line ->
  ((exists m, re_match directive_re line = Some m /\
              group 1 line m = Some text)
   <->
   exists ws1 mk ws2 ws3 c t,
     line = ws1 ++ mk ++ ws2 ++ "="%char :: ws3 ++ text /\
     text = c :: t /\
     forallb isspace ws1 = true /\ is_marker mk /\
     forallb isspace ws2 = true /\ forallb isspace ws3 = true /\
     isword c = true /\ forallb directive_char t = true).
Proof.
  intros Hnl. split.
  - intros [m [Hm Hg]]. apply directive_match_shape in Hm.
    destruct Hm as [ws1 [mk [ws2 [ws3 [c [t [tail H]]]]]]].
    destruct H as [Hl [H1 [Hmk [H2 [H3 [Hc [Ht [Htail Hg']]]]]]]].
    rewrite Hg in Hg'. injection Hg' as ->.
    exists ws1, mk, ws2, ws3, c, t.
    assert (tail = []).
    { destruct Htail as [-> | ->]; [reflexivity|]. exfalso. apply Hnl.
      rewrite Hl. apply newline_in_tail. }
    subst tail. rewrite app_nil_r in Hl. repeat split; auto.
  - intros [ws1 [mk [ws2 [ws3 [c [t H]]]]]].
    destruct H as [Hl [-> [H1 [Hmk [H2 [H3 [Hc Ht]]]]]]].
    rewrite Hl in Hnl |- *.
    exact (directive_match_of_shape ws1 mk ws2 ws3 c t
             H1 Hmk H2 H3 Hc Ht Hnl).
Qed.

Lemma directive_grammar_witness :
  ~ In "010"%char (py "  *=  require 'a b' c-d") /\
  exists m,
    re_match directive_re (py "  *=  require 'a b' c-d") = Some m /\
    group 1 (py "  *=  require 'a b' c-d") m
    = Some (py "require 'a b' c-d").
Proof.
  assert (H : ~ In "010"%char (py "  *=  require 'a b' c-d")).
  { intros Hin. simpl in Hin.
    repeat (destruct Hin as [Hin|Hin]; [discriminate Hin|]). exact Hin. }
  split; [exact H|].
  apply (proj2 (directive_grammar (py "  *=  require 'a b' c-d")
                  (py "require 'a b' c-d") H)).
  exists (py "  "), (py "*"), [], (py "  "), "r"%char, (py "equire 'a b' c-d").
  repeat split; try reflexivity. left. reflexivity.
Defined.

(** ** Which sources have a header *)

Lemma reach_lazy_any (st st' : mstate) :
  reach (LazyStar AnyChar) st st' -> exists w, rest st = w ++ rest st'.
Proof.
  intros H. remember (LazyStar AnyChar) as r eqn:Hr.
  induction H; try discriminate.
  - exists []. reflexivity.
  - inv Hr. destruct (IHreach2 eq_refl) as [w Hw].
    inversion H; subst. exists (x :: w). cbn [advance rest] in Hw.
    match goal with Hx : rest st = _ |- _ => rewrite Hx end.
    rewrite Hw. reflexivity.
Qed.

Lemma reach_lazy_any_intro (w : str) :
  forall n r c,
    reach (LazyStar AnyChar) (MState n (w ++ r) c)
      (MState (n + List.length w) r c).
Proof.
  induction w as [|x w IH]; intros n r c.
  - simpl. rewrite Nat.add_0_r. apply reach_lazy_stop.
  - apply reach_lazy_more with (st1 := MState (S n) (w ++ r) c).
    + exact (@reach_any x (MState n ((x :: w) ++ r) c) (w ++ r) eq_refl).
    + replace (n + List.length (x :: w)) with (S n + List.length w)
        by (simpl; lia).
      apply IH.
Qed.

(** The first round of a match of the header pattern. *)
Lemma header_first_round (s : str) (m : mstate) :
  re_match header_re s = Some m -> opens_with_comment s.
Proof.
  intros Hm. apply re_match_sound in Hm.
  unfold header_re, Plus, block_comment, line_comment in Hm.
  apply reach_seq_inv in Hm. destruct Hm as [s0 [Hb Hm]].
  apply reach_bol_inv in Hb. destruct Hb as [-> _].
  apply reach_seq_inv in Hm. destruct Hm as [s1 [Hg _]].
  apply reach_group_inv in Hg. destruct Hg as [s2 [Hg _]].
  apply reach_seq_inv in Hg. destruct Hg as [sa [Hw Hg]].
  apply reach_star_cls in Hw. destruct Hw as [w [Hw [Hrest _]]].
  cbn [rest] in Hrest.
  apply reach_group_inv in Hg. destruct Hg as [s3 [Hg _]].
  exists w, (rest sa). split; [exact Hrest|]. split; [exact Hw|].
  apply reach_alt_inv in Hg. destruct Hg as [Hg|Hg].
  - left. apply reach_group_inv in Hg. destruct Hg as [s4 [Hg _]].
    apply reach_seq_inv in Hg. destruct Hg as [s5 [H1 Hg]].
    apply reach_seq_inv in Hg. destruct Hg as [s6 [H2 Hg]].
    apply reach_seq_inv in Hg. destruct Hg as [s7 [H3 Hg]].
    apply reach_seq_inv in Hg. destruct Hg as [s8 [H4 H5]].
    apply reach_chr_inv in H1. destruct H1 as [t1 [R1 ->]].
    apply reach_chr_inv in H2. destruct H2 as [t2 [R2 ->]].
    apply reach_lazy_any in H3. destruct H3 as [inner R3].
    apply reach_chr_inv in H4. destruct H4 as [t4 [R4 ->]].
    apply reach_chr_inv in H5. destruct H5 as [t5 [R5 _]].
    cbn [advance rest] in *.
    exists inner, t5. rewrite R1, R2, R3, R4, R5. reflexivity.
  - right. apply reach_seq_inv in Hg. destruct Hg as [s4 [Hg _]].
    apply reach_group_inv in Hg. destruct Hg as [s5 [Hg _]].
    apply reach_seq_inv in Hg. destruct Hg as [s6 [H1 Hg]].
    apply reach_seq_inv in Hg. destruct Hg as [s7 [H2 _]].
    apply reach_chr_inv in H1. destruct H1 as [t1 [R1 ->]].
    apply reach_chr_inv in H2. destruct H2 as [t2 [R2 _]].
    cbn [advance rest] in *.
    exists t2. rewrite R1, R2. reflexivity.
Qed.

(** Text that opens with a comment has a path of the header pattern. *)
Lemma header_reach (s : str) :
  opens_with_comment s ->
  exists st', reach header_re (MState 0 s []) st'.
Proof.
  intros [w [r [-> [Hw [[inner [tail ->]]|[tail ->]]]]]];
    eexists; unfold header_re, Plus.
  - eapply reach_seq; [apply reach_bol; reflexivity|].
    eapply reach_seq; [|apply reach_star_stop].
    apply reach_group.
    eapply reach_seq; [apply (reach_star_cls_intro isspace w Hw)|].
    apply reach_group. apply reach_alt_l. apply reach_group.
    unfold block_comment. cbn [py list_ascii_of_string app].
    eapply reach_seq;
      [exact (@reach_chr "/" (MState _ ("/"%char :: _) _) _ eq_refl)|].
    eapply reach_seq;
      [exact (@reach_chr "*" (MState _ ("*"%char :: _) _) _ eq_refl)|].
    eapply reach_seq; [apply (reach_lazy_any_intro inner)|].
    eapply reach_seq;
      [exact (@reach_chr "*" (MState _ ("*"%char :: _) _) _ eq_refl)|].
    exact (@reach_chr "/" (MState _ ("/"%char :: _) _) _ eq_refl).
  - eapply reach_seq; [apply reach_bol; reflexivity|].
    eapply reach_seq; [|apply reach_star_stop].
    apply reach_group.
    eapply reach_seq; [apply (reach_star_cls_intro isspace w Hw)|].
    apply reach_group. apply reach_alt_r.
    eapply reach_seq; [|apply reach_star_stop].
    apply reach_group.
    unfold line_comment. cbn [py list_ascii_of_string app].
    eapply reach_seq;
      [exact (@reach_chr "/" (MState _ ("/"%char :: _) _) _ eq_refl)|].
    eapply reach_seq;
      [exact (@reach_chr "/" (MState _ ("/"%char :: _) _) _ eq_refl)|].
    eapply reach_seq; [apply reach_star_stop | apply reach_opt_none].
Qed.

Lemma header_match_iff (s : str) :
  re_match header_re s <> None <-> opens_with_comment s.
Proof.
  split.
  - destruct (re_match header_re s) as [m|] eqn:Hm; [|congruence].
    intros _. exact (header_first_round s m Hm).
  - intros Ho. destruct (header_reach s Ho) as [st' Hr].
    unfold re_match.
    apply (bt_complete header_re eq_refl _ _ st' Hr). discriminate.
Qed.

Lemma header_match_takes_text (s : str) (m : mstate) :
  re_match header_re s = Some m -> group0 s m <> [].
Proof.
  intros Hm. apply re_match_sound in Hm.
  pose proof (reach_consumes _ _ _ Hm eq_refl) as Hlt.
  destruct (reach_state_of s _ _ _ Hm (initial_state_of s))
    as [[Hskip Hle] _].
  cbn [rest] in Hlt. rewrite <- Hskip, length_skipn in Hlt.
  unfold group0. intros Hnil.
  apply (f_equal (@List.length ascii)) in Hnil.
  rewrite length_firstn in Hnil. simpl in Hnil. lia.
Qed.

Section HeaderCases.
Context {E : Environment}.

(** A source has a header exactly when it begins, after whitespace,
    with a block comment that is closed or with a line comment. *)
Theorem header_iff_opens_with_comment (attrs : AssetAttributes)
  (src : str) (ctx : RenderContext) (cls : Calls) :
  source_header (init attrs src ctx cls) <> [] <-> opens_with_comment src.
Proof.
  rewrite <- header_match_iff. unfold init.
  destruct (re_match header_re src) as [m|] eqn:Hm; cbn [source_header].
  - split; [discriminate|]. intros _.
    exact (header_match_takes_text src m Hm).
  - split; intros H; exfalso; apply H; reflexivity.
Qed.

(** A block comment that is not closed is no header: the whole source
    is the body, its directives are not looked at, and [process] returns
    the source stripped. *)
Theorem unterminated_block_comment (attrs : AssetAttributes)
  (ws t : str) (ctx : RenderContext) (cls : Calls) (w : World) :
  forallb isspace ws = true ->
  (forall a b, t <> a ++ py "*/" ++ b) ->
  source_header (init attrs (ws ++ py "/*" ++ t) ctx cls) = [] /\
  process (init attrs (ws ++ py "/*" ++ t) ctx cls) w
  = (Ok (strip (ws ++ py "/*" ++ t) ++ newline), w).
Proof.
  intros Hws Hopen.
  assert (Hn : re_match header_re (ws ++ py "/*" ++ t) = None).
  { destruct (re_match header_re (ws ++ py "/*" ++ t)) as [m|] eqn:Hm;
      [|reflexivity].
    exfalso. apply header_first_round in Hm.
    destruct Hm as [w' [r [Heq [Hw' Hr]]]].
    apply (f_equal lstrip) in Heq.
    destruct Hr as [[inner [tail ->]]|[tail ->]];
      cbn [py list_ascii_of_string app] in Heq;
      rewrite (lstrip_skips ws "/"%char _ Hws eq_refl) in Heq;
      rewrite (lstrip_skips w' "/"%char _ Hw' eq_refl) in Heq.
    - injection Heq as Heq. exact (Hopen inner tail Heq).
    - discriminate Heq. }
  destruct (init_no_match attrs _ ctx cls Hn) as [Hh Hb].
  split; [exact Hh|]. unfold process. rewrite Hh, Hb. reflexivity.
Qed.
End HeaderCases.

Lemma header_iff_opens_with_comment_witness :
  source_header (demo_processor demo_source_plain) <> [] /\
  opens_with_comment demo_source_plain.
Proof.
  assert (H : opens_with_comment demo_source_plain).
  { exists [], demo_source_plain. split; [reflexivity|].
    split; [reflexivity|]. left.
    exists (py " plain words "), (py "
  main();  "). reflexivity. }
  split; [|exact H].
  exact (proj2 (@header_iff_opens_with_comment demo_env (py "app.js")
                  demo_source_plain tt tt) H).
Defined.

Lemma unterminated_block_comment_witness :
  forallb isspace (py " ") = true /\
  (forall a b, py " = require lib/dep" <> a ++ py "*/" ++ b) /\
  process (demo_processor (py " /* = require lib/dep")) []
  = (Ok (py "/* = require lib/dep
"), []).
Proof.
  assert (H1 : forallb isspace (py " ") = true) by reflexivity.
  assert (H2 : forall a b, py " = require lib/dep" <> a ++ py "*/" ++ b).
  { intros a b Heq.
    assert (Hin : In "*"%char (py " = require lib/dep")).
    { rewrite Heq. apply in_or_app. right. left. reflexivity. }
    simpl in Hin.
    repeat (destruct Hin as [Hin|Hin]; [discriminate Hin|]). exact Hin. }
  split; [exact H1|]. split; [exact H2|].
  destruct (@unterminated_block_comment demo_env (py "app.js") (py " ")
              (py " = require lib/dep") tt tt [] H1 H2) as [_ Hp].
  change (py " " ++ py "/*" ++ py " = require lib/dep")
    with (py " /* = require lib/dep") in Hp.
  unfold demo_processor. rewrite Hp. vm_compute. reflexivity.
Defined.

(** ** Where a path argument resolves to *)

Lemma str_eqb_false_iff (a b : str) : str_eqb a b = false <-> a <> b.
Proof. apply str_eqb_neq. Qed.

Lemma upto_last_slash_split (d f : str) :
  ~ In "/"%char f -> upto_last_slash (d ++ "/"%char :: f) = d ++ ["/"%char].
Proof.
  intros Hf. unfold upto_last_slash.
  rewrite rev_app_distr. simpl rev. rewrite <- app_assoc. simpl app.
  assert (Hdrop : forall (r tl : str),
             ~ In "/"%char r ->
             (fix drop (r : str) : str :=
                match r with
                | c :: t => if Ascii.eqb c "/" then r else drop t
                | [] => []
                end) (r ++ "/"%char :: tl) = "/"%char :: tl).
  { induction r as [|x r IH]; intros tl Hr.
    - reflexivity.
    - simpl. destruct (Ascii.eqb x "/") eqn:Hx.
      + apply Ascii.eqb_eq in Hx. exfalso. apply Hr. left. exact Hx.
      + apply IH. intros Hin. apply Hr. right. exact Hin. }
  rewrite Hdrop.
  - simpl. rewrite rev_involutive. reflexivity.
  - intros Hin. apply Hf. apply in_rev. exact Hin.
Qed.

Lemma upto_last_slash_none (p : str) :
  ~ In "/"%char p -> upto_last_slash p = [].
Proof.
  intros Hp. unfold upto_last_slash.
  assert (Hdrop : forall r : str,
             ~ In "/"%char r ->
             (fix drop (r : str) : str :=
                match r with
                | c :: t => if Ascii.eqb c "/" then r else drop t
                | [] => []
                end) r = []).
  { induction r as [|x r IH]; intros Hr; [reflexivity|].
    simpl. destruct (Ascii.eqb x "/") eqn:Hx.
    - apply Ascii.eqb_eq in Hx. exfalso. apply Hr. left. exact Hx.
    - apply IH. intros Hin. apply Hr. right. exact Hin. }
  rewrite Hdrop; [reflexivity|].
  intros Hin. apply Hp. apply in_rev. exact Hin.
Qed.

(** The directory of [d/f], where [f] is a name and [d] does not end in a
    slash, is [d]. *)
Lemma dirname_of_file (d f : str) (c : ascii) :
  ~ In "/"%char f -> c <> "/"%char ->
  dirname ((d ++ [c]) ++ "/"%char :: f) = d ++ [c].
Proof.
  intros Hf Hc. unfold dirname.
  rewrite (upto_last_slash_split (d ++ [c]) f Hf).
  assert (Hne : str_eqb ((d ++ [c]) ++ ["/"%char]) [] = false).
  { apply str_eqb_neq. destruct d; discriminate. }
  assert (Hall : forallb (Ascii.eqb "/") ((d ++ [c]) ++ ["/"%char]) = false).
  { rewrite !forallb_app. cbn [forallb].
    assert (H : Ascii.eqb "/" c = false)
      by (apply Ascii.eqb_neq; congruence).
    rewrite H. cbn [andb]. rewrite andb_false_r. reflexivity. }
  rewrite Hne, Hall. cbn [negb andb].
  unfold rstrip_slash. rewrite !rev_app_distr. cbn [rev app lstrip_slash].
  rewrite Ascii.eqb_refl. cbn [lstrip_slash].
  assert (H : Ascii.eqb c "/" = false) by (apply Ascii.eqb_neq; exact Hc).
  rewrite H. cbn [rev]. rewrite rev_involutive. reflexivity.
Qed.

Lemma dirname_of_name (p : str) : ~ In "/"%char p -> dirname p = [].
Proof.
  intros Hp. unfold dirname. rewrite (upto_last_slash_none p Hp).
  reflexivity.
Qed.

Lemma endswith_last (d : str) (c : ascii) :
  c <> "/"%char -> endswith (py "/") (d ++ [c]) = false.
Proof.
  intros Hc. unfold endswith. apply str_eqb_neq.
  rewrite length_app. simpl.
  replace (List.length d + 1 - 1) with (List.length d + 0) by lia.
  rewrite skipn_app, Nat.add_0_r, skipn_all.
  replace (List.length d - List.length d) with 0 by lia.
  simpl. congruence.
Qed.

Section Cases.
Context {E : Environment}.
Variable self : DirectivesProcessor.

(** For an asset [d/f] in a directory [d], an argument that does not
    begin with a slash is looked up as the normalised [d/arg], followed
    by the extensions of the asset. *)
Theorem require_resolves_in_asset_directory (d f arg : str) (c : ascii) :
  path self = (d ++ [c]) ++ "/"%char :: f ->
  ~ In "/"%char f -> c <> "/"%char ->
  startswith (py "/") arg = false ->
  get_relative_path self arg false
  = normpath ((d ++ [c]) ++ "/"%char :: arg)
    ++ List.concat (attr_extensions (asset_attributes self)) /\
  get_relative_path self arg true
  = normpath ((d ++ [c]) ++ "/"%char :: arg).
Proof.
  intros Hp Hf Hc Ha.
  assert (Hj : path_join (dirname (path self)) arg
               = (d ++ [c]) ++ "/"%char :: arg).
  { rewrite Hp, (dirname_of_file d f c Hf Hc).
    unfold path_join. rewrite Ha, (endswith_last d c Hc).
    assert (Hne : str_eqb (d ++ [c]) [] = false)
      by (apply str_eqb_neq; destruct d; discriminate).
    rewrite Hne. reflexivity. }
  unfold get_relative_path. rewrite Hj. split; reflexivity.
Qed.

(** An argument that begins with a slash is not resolved against the
    directory of the asset, and neither is any argument of an asset
    whose path has no directory part: the argument itself is
    normalised. *)
Theorem require_resolves_argument_alone (arg : str) :
  startswith (py "/") arg = true \/ ~ In "/"%char (path self) ->
  get_relative_path self arg true = normpath arg /\
  get_relative_path self arg false
  = normpath arg ++ List.concat (attr_extensions (asset_attributes self)).
Proof.
  intros H.
  assert (Hj : path_join (dirname (path self)) arg = arg).
  { unfold path_join. destruct H as [H|H].
    - rewrite H. reflexivity.
    - rewrite (dirname_of_name _ H).
      destruct (startswith (py "/") arg); reflexivity. }
  unfold get_relative_path. rewrite Hj. split; reflexivity.
Qed.
End Cases.

Lemma demo_nested_processor_path :
  path (@init demo_env (py "js/app/main.js") [] tt tt)
  = (py "js/ap" ++ ["p"%char]) ++ "/"%char :: py "main.js".
Proof. reflexivity. Qed.

Lemma require_resolves_in_asset_directory_witness :
  ~ In "/"%char (py "main.js") /\
  get_relative_path (@init demo_env (py "js/app/main.js") [] tt tt)
    (py "../lib/./dep") false
  = py "js/lib/dep.js".
Proof.
  assert (Hf : ~ In "/"%char (py "main.js")).
  { intros Hin. simpl in Hin.
    repeat (destruct Hin as [Hin|Hin]; [discriminate Hin|]). exact Hin. }
  split; [exact Hf|].
  rewrite (proj1 (require_resolves_in_asset_directory
                    (@init demo_env (py "js/app/main.js") [] tt tt)
                    (py "js/ap") (py "main.js") (py "../lib/./dep")
                    "p"%char demo_nested_processor_path Hf
                    ltac:(discriminate) eq_refl)).
  vm_compute. reflexivity.
Defined.

Lemma require_resolves_argument_alone_witness :
  startswith (py "/") (py "/vendor/x/../y") = true /\
  get_relative_path (@init demo_env (py "js/app/main.js") [] tt tt)
    (py "/vendor/x/../y") false
  = py "/vendor/y.js".
Proof.
  split; [reflexivity|].
  rewrite (proj2 (require_resolves_argument_alone
                    (@init demo_env (py "js/app/main.js") [] tt tt)
                    (py "/vendor/x/../y") (or_introl eq_refl))).
  vm_compute. reflexivity.
Defined.

(** ** Equal paths in a directory listing *)

Lemma str_leb_refl (a : str) : str_leb a a = true.
Proof.
  induction a as [|x a IH]; [reflexivity|].
  simpl. rewrite Nat.ltb_irrefl. exact IH.
Qed.

Section Stable.
Variable A : Type.
Variable key : A -> str.

Lemma insert_by_filter (k : str) (x : A) (l : list A) :
  filter (fun y => str_eqb (key y) k) (insert_by key x l)
  = filter (fun y => str_eqb (key y) k) (x :: l).
Proof.
  induction l as [|y l IH]; [reflexivity|].
  cbn [insert_by]. destruct (str_leb (key x) (key y)) eqn:Hxy;
    [reflexivity|].
  cbn [filter] in *. rewrite IH.
  destruct (str_eqb (key x) k) eqn:Hx; [|reflexivity].
  destruct (str_eqb (key y) k) eqn:Hy; [|reflexivity].
  apply str_eqb_eq in Hx, Hy. rewrite Hx, Hy, str_leb_refl in Hxy.
  discriminate.
Qed.

(** The sort is stable: the elements with one and the same key come out
    in the order in which they went in. *)
Theorem sorted_by_stable (k : str) (l : list A) :
  filter (fun y => str_eqb (key y) k) (sorted_by key l)
  = filter (fun y => str_eqb (key y) k) l.
Proof.
  induction l as [|x l IH]; [reflexivity|].
  cbn [sorted_by fold_right]. fold (sorted_by key l).
  rewrite insert_by_filter. cbn [filter]. rewrite IH. reflexivity.
Qed.
End Stable.

(** ** The wrapper of the Handlebars compiler *)

Lemma format_SOURCE (name source : str) :
  format SOURCE (name_and_source name source)
  = Some (py "(function() {
  var template  = Handlebars.template,
      templates = Handlebars.templates = Handlebars.templates || {};
  templates['" ++ name ++ py "'] = template(" ++ source ++ py ");
}).call(this);").
Proof. reflexivity. Qed.

(** The compiler puts the name of the template and the output of the
    executable into the wrapper as they are, whatever characters they
    hold: nothing in them is escaped or read as a conversion of the
    template.  When the executable raises, the compiler raises the same
    exception. *)
Theorem handlebars_wraps_verbatim
  (exec_process : CompiledAsset -> result CompiledAsset)
  (asset : CompiledAsset) :
  handlebars_process exec_process asset =
  match exec_process asset with
  | Raise e => Raise e
  | Ok compiled =>
      Ok {| path_without_suffix := path_without_suffix compiled;
            processed_source :=
              py "(function() {
  var template  = Handlebars.template,
      templates = Handlebars.templates = Handlebars.templates || {};
  templates['" ++ path_without_suffix compiled
              ++ py "'] = template(" ++ processed_source compiled
              ++ py ");
}).call(this);" |}
  end.
Proof.
  unfold handlebars_process.
  destruct (exec_process asset) as [compiled|e]; [|reflexivity].
  rewrite format_SOURCE. reflexivity.
Qed.

(** ** Resolved paths are normal *)

Lemma split_slash_from_free (s : str) :
  forall cur, slash_free cur -> Forall slash_free (split_slash_from cur s).
Proof.
  induction s as [|x s IH]; intros cur Hcur; cbn [split_slash_from].
  - constructor; [|constructor]. intros Hin. apply Hcur.
    apply in_rev. exact Hin.
  - destruct (Ascii.eqb x "/") eqn:Hx.
    + constructor.
      * intros Hin. apply Hcur. apply in_rev. exact Hin.
      * apply IH. intros [].
    + apply IH. intros [Hin|Hin]; [|exact (Hcur Hin)].
      apply Ascii.eqb_neq in Hx. congruence.
Qed.

Lemma in_removelast {A : Type} (l : list A) (x : A) :
  In x (removelast l) -> In x l.
Proof.
  destruct l as [|a l]; [auto|].
  destruct (@exists_last _ (a :: l)) as [l' [z Hz]]; [discriminate|].
  rewrite Hz, removelast_last. intros Hin. apply in_or_app. left. exact Hin.
Qed.

Lemma norm_comps_subset (i : nat) (comps : list str) :
  forall acc x,
    In x (norm_comps i acc comps) -> In x acc \/ In x comps.
Proof.
  induction comps as [|comp comps IH]; intros acc x Hin; [left; exact Hin|].
  cbn [norm_comps] in Hin.
  destruct (str_eqb comp [] || str_eqb comp (py ".")).
  { destruct (IH acc x Hin); [left | right; right]; assumption. }
  match type of Hin with
  | In _ (if ?b then _ else _) => destruct b
  end.
  - destruct (IH _ x Hin) as [H|H].
    + apply in_app_or in H. destruct H as [H|[H|[]]];
        [left; exact H | right; left; exact H].
    + right. right. exact H.
  - destruct acc as [|a acc].
    + destruct (IH _ x Hin); [left | right; right]; assumption.
    + destruct (IH _ x Hin) as [H|H].
      * left. apply in_removelast. exact H.
      * right. right. exact H.
Qed.

Lemma split_slash_from_word (w : str) :
  forall cur s,
    slash_free w ->
    split_slash_from cur (w ++ s) = split_slash_from (rev w ++ cur) s.
Proof.
  induction w as [|x w IH]; intros cur s Hw; [reflexivity|].
  cbn [app split_slash_from].
  assert (Hx : Ascii.eqb x "/" = false).
  { apply Ascii.eqb_neq. intros ->. apply Hw. left. reflexivity. }
  rewrite Hx. rewrite IH by (intros Hin; apply Hw; right; exact Hin).
  cbn [rev]. rewrite <- app_assoc. reflexivity.
Qed.

(** Splitting at the slashes undoes joining with slashes. *)
Lemma split_slash_join (comps : list str) :
  comps <> [] -> Forall slash_free comps ->
  split_slash (join (py "/") comps) = comps.
Proof.
  unfold split_slash.
  induction comps as [|c comps IH]; intros Hne Hall; [congruence|].
  apply Forall_cons_iff in Hall. destruct Hall as [Hc Hall].
  destruct comps as [|c2 comps].
  - cbn [join]. rewrite <- (app_nil_r c) at 1.
    rewrite (split_slash_from_word c [] [] Hc). cbn [split_slash_from].
    rewrite app_nil_r, rev_involutive. reflexivity.
  - change (join (py "/") (c :: c2 :: comps))
      with (c ++ "/"%char :: join (py "/") (c2 :: comps)).
    rewrite (split_slash_from_word c [] _ Hc). cbn [split_slash_from].
    rewrite Ascii.eqb_refl, app_nil_r, rev_involutive.
    rewrite IH; [reflexivity | discriminate | exact Hall].
Qed.

Lemma repeat_prefix {A : Type} (x : A) (k : nat) :
  forall (l1 l2 o : list A),
    l1 ++ x :: l2 = repeat x k ++ o -> ~ In x o ->
    l1 = repeat x (List.length l1).
Proof.
  induction k as [|k IH]; intros l1 l2 o Heq Ho.
  - simpl in Heq. exfalso. apply Ho. rewrite <- Heq.
    apply in_or_app. right. left. reflexivity.
  - destruct l1 as [|a l1]; [reflexivity|].
    simpl in Heq. injection Heq as Ha Heq. subst a.
    simpl. f_equal. exact (IH l1 l2 o Heq Ho).
Qed.

Lemma normalised_app_inv (i : nat) (acc : list str) (comp : str)
  (comps : list str) :
  normalised i (acc ++ comp :: comps) ->
  clean_component comp /\
  normalised i ((acc ++ [comp]) ++ comps) /\
  (comp = py ".." -> i = 0 /\ acc = repeat (py "..") (List.length acc)).
Proof.
  intros Hn. split; [|split].
  - destruct Hn as [Hall _]. apply Forall_app in Hall.
    destruct Hall as [_ Hall]. apply Forall_cons_iff in Hall. apply Hall.
  - rewrite <- app_assoc. exact Hn.
  - intros ->. destruct Hn as [_ [k [others [Heq [Hno Hk]]]]].
    split.
    + destruct i; [reflexivity|]. exfalso.
      assert (k = 0) by (apply Hk; lia). subst k. simpl in Heq.
      apply Hno. rewrite <- Heq. apply in_or_app. right. left.
      reflexivity.
    + exact (repeat_prefix _ k acc comps others Heq Hno).
Qed.

(** The loop of [normpath] leaves normalised components as they are. *)
Lemma norm_comps_fixed (i : nat) (comps : list str) :
  forall acc,
    normalised i (acc ++ comps) -> norm_comps i acc comps = acc ++ comps.
Proof.
  induction comps as [|comp comps IH]; intros acc Hn.
  - rewrite app_nil_r. reflexivity.
  - destruct (normalised_app_inv i acc comp comps Hn)
      as [[He Hd] [Hn' Hdd]].
    cbn [norm_comps].
    apply str_eqb_neq in He, Hd. rewrite He, Hd. cbn [orb].
    assert (Hgo : norm_comps i (acc ++ [comp]) comps = acc ++ comp :: comps).
    { rewrite (IH _ Hn'), <- app_assoc. reflexivity. }
    destruct (str_eqb comp (py "..")) eqn:Hc; cbn [negb orb]; [|exact Hgo].
    apply str_eqb_eq in Hc. destruct (Hdd Hc) as [-> Hacc].
    destruct acc as [|a acc]; [exact Hgo|].
    cbn [Nat.eqb andb orb].
    assert (Hlast : last (a :: acc) [] = py "..").
    { rewrite Hacc. simpl List.length. apply last_repeat. }
    rewrite Hlast, str_eqb_refl. exact Hgo.
Qed.

Lemma norm_comps_skip_empty (i : nat) (acc comps : list str) :
  norm_comps i acc ([] :: comps) = norm_comps i acc comps.
Proof. reflexivity. Qed.

Lemma join_starts (comps : list str) :
  comps <> [] -> Forall clean_component comps -> Forall slash_free comps ->
  exists x r, join (py "/") comps = x :: r /\ x <> "/"%char.
Proof.
  intros Hne Hc Hs. destruct comps as [|c comps]; [congruence|].
  apply Forall_cons_iff in Hc. destruct Hc as [[Hc _] _].
  apply Forall_cons_iff in Hs. destruct Hs as [Hs _].
  destruct c as [|x c]; [congruence|].
  assert (Hx : x <> "/"%char).
  { intros ->. apply Hs. left. reflexivity. }
  destruct comps; cbn [join app]; eauto.
Qed.

(** A path made of initial slashes and normalised components is what
    [normpath] returns for it. *)
Lemma normpath_of_normal (i : nat) (comps : list str) :
  i <= 2 -> normalised i comps -> Forall slash_free comps ->
  repeat "/"%char i ++ join (py "/") comps <> [] ->
  normpath (repeat "/"%char i ++ join (py "/") comps)
  = repeat "/"%char i ++ join (py "/") comps.
Proof.
  intros Hi Hn Hs Hne.
  assert (Hfix : norm_comps i [] comps = comps)
    by (apply norm_comps_fixed; exact Hn).
  assert (Hsplit : comps <> [] ->
            split_slash (join (py "/") comps) = comps)
    by (intros H; apply split_slash_join; assumption).
  assert (Hhead : comps <> [] ->
            exists x r, join (py "/") comps = x :: r /\ x <> "/"%char).
  { intros H. apply join_starts; try assumption. apply Hn. }
  unfold normpath. apply str_eqb_neq in Hne. rewrite Hne.
  apply str_eqb_neq in Hne.
  destruct comps as [|c0 comps0] eqn:Hcomps.
  - (* only slashes *)
    destruct i as [|[|[|i]]]; [simpl in Hne; congruence | | | lia];
      reflexivity.
  - rewrite <- Hcomps in *.
    assert (Hc : comps <> []) by (rewrite Hcomps; discriminate).
    destruct (Hhead Hc) as [x [r [Hj Hx]]].
    assert (Hxb : str_eqb [x] (py "/") = false).
    { apply str_eqb_neq. intros H. injection H as H. exact (Hx H). }
    destruct i as [|[|[|i]]]; [| | | lia].
    + cbn [repeat app].
      assert (H1 : startswith (py "/") (join (py "/") comps) = false).
      { unfold startswith. rewrite Hj.
        cbn [py list_ascii_of_string List.length firstn]. exact Hxb. }
      rewrite H1.
      rewrite (Hsplit Hc), Hfix. cbn [repeat app].
      assert (Hq : str_eqb (join (py "/") comps) [] = false)
        by (apply str_eqb_neq; rewrite Hj; discriminate).
      rewrite Hq. reflexivity.
    + cbn [repeat app].
      assert (H1 : startswith (py "/") ("/"%char :: join (py "/") comps)
                   = true) by reflexivity.
      assert (H2 : startswith (py "//") ("/"%char :: join (py "/") comps)
                   = false).
      { unfold startswith. rewrite Hj.
        cbn [py list_ascii_of_string List.length firstn].
        apply str_eqb_neq. intros H. injection H as H. exact (Hx H). }
      rewrite H1, H2. cbn [andb].
      unfold split_slash. cbn [split_slash_from].
      rewrite Ascii.eqb_refl. cbn [rev].
      fold (split_slash (join (py "/") comps)).
      rewrite (Hsplit Hc), !norm_comps_skip_empty, Hfix.
      reflexivity.
    + cbn [repeat app].
      assert (H1 : startswith (py "/")
                     ("/"%char :: "/"%char :: join (py "/") comps)
                   = true) by reflexivity.
      assert (H2 : startswith (py "//")
                     ("/"%char :: "/"%char :: join (py "/") comps)
                   = true) by reflexivity.
      assert (H3 : startswith (py "///")
                     ("/"%char :: "/"%char :: join (py "/") comps)
                   = false).
      { unfold startswith. rewrite Hj.
        cbn [py list_ascii_of_string List.length firstn].
        apply str_eqb_neq. intros H. injection H as H. exact (Hx H). }
      rewrite H1, H2, H3. cbn [andb negb].
      unfold split_slash. cbn [split_slash_from].
      rewrite Ascii.eqb_refl. cbn [rev].
      fold (split_slash (join (py "/") comps)).
      rewrite (Hsplit Hc), !norm_comps_skip_empty, Hfix.
      reflexivity.
Qed.

Lemma normpath_dot : normpath (py ".") = py ".".
Proof. reflexivity. Qed.

Lemma normpath_fixed (p : str) :
  normpath (normpath p) = normpath p /\ normpath p <> [].
Proof.
  remember (normpath p) as q eqn:Hq0. unfold normpath in Hq0.
  destruct (str_eqb p []) eqn:Hp.
  { subst q. split; [reflexivity | cbv; discriminate]. }
  set (i := if startswith (py "/") p
            then if startswith (py "//") p && negb (startswith (py "///") p)
                 then 2 else 1
            else 0) in Hq0.
  assert (Hi : i <= 2).
  { unfold i. destruct (startswith (py "/") p); [|lia].
    destruct (startswith (py "//") p && negb (startswith (py "///") p));
      lia. }
  cbv zeta in Hq0.
  set (comps := norm_comps i [] (split_slash p)) in Hq0.
  assert (Hn : normalised i comps)
    by (apply norm_comps_normalised, empty_normalised).
  assert (Hs : Forall slash_free comps).
  { apply Forall_forall. intros x Hx.
    apply norm_comps_subset in Hx. destruct Hx as [[]|Hx].
    pose proof (split_slash_from_free p [] (fun h => h)) as Hall.
    rewrite Forall_forall in Hall. exact (Hall x Hx). }
  destruct (str_eqb (repeat "/"%char i ++ join (py "/") comps) []) eqn:Hq.
  - subst q. split; [reflexivity | cbv; discriminate].
  - apply str_eqb_neq in Hq. subst q. split; [|exact Hq].
    apply normpath_of_normal; assumption.
Qed.

Section Normal.
Context {E : Environment}.
Variable self : DirectivesProcessor.

(** The directory path that a [require_directory] hands to the
    environment is in normal form, so that normalising it again changes
    nothing, and it is never empty. *)
Theorem resolved_directory_is_normal (arg : str) :
  normpath (get_relative_path self arg true)
  = get_relative_path self arg true /\
  get_relative_path self arg true <> [].
Proof. unfold get_relative_path. apply normpath_fixed. Qed.
End Normal.

(** ** One directive, from the line to the fragment *)

Lemma splitlines_from_plain (s : str) :
  forall cur,
    (forall c, In c s -> c <> "010"%char /\ c <> "013"%char) ->
    rev cur ++ s <> [] ->
    splitlines_from cur s = [rev cur ++ s].
Proof.
  induction s as [|x s IH]; intros cur Hs Hne.
  - rewrite app_nil_r in *. simpl. destruct cur; [simpl in Hne; congruence|].
    reflexivity.
  - destruct (Hs x (or_introl eq_refl)) as [H1 H2].
    cbn [splitlines_from].
    apply Ascii.eqb_neq in H1, H2. rewrite H1, H2.
    rewrite IH.
    + cbn [rev]. rewrite <- app_assoc. reflexivity.
    + intros c Hc. apply Hs. right. exact Hc.
    + cbn [rev]. rewrite <- app_assoc. simpl.
      destruct (rev cur); discriminate.
Qed.

(** A header that is one directive line gives one directive, numbered 0,
    whose arguments are the tokens of the text after the equals sign; when
    the text cannot be split into tokens, the parser raises. *)
Theorem directive_line_parsed (ws1 mk ws2 ws3 : str) (c : ascii) (t : str) :
  forallb isspace ws1 = true -> is_marker mk ->
  forallb isspace ws2 = true -> forallb isspace ws3 = true ->
  isword c = true -> forallb directive_char t = true ->
  (forall x, In x (ws1 ++ mk ++ ws2 ++ "="%char :: ws3 ++ c :: t) ->
             x <> "010"%char /\ x <> "013"%char) ->
  parse_directives (ws1 ++ mk ++ ws2 ++ "="%char :: ws3 ++ c :: t)
  = match shlex_split (c :: t) with
    | Ok args => GYield (0, args) GStop
    | Raise e => GRaise e
    end.
Proof.
  intros H1 Hmk H2 H3 Hc Ht Hplain.
  destruct (directive_match_of_shape ws1 mk ws2 ws3 c t H1 Hmk H2 H3 Hc Ht)
    as [m [Hm Hg]].
  { intros Hin. destruct (Hplain _ Hin) as [Hn _]. congruence. }
  unfold parse_directives, splitlines.
  rewrite (splitlines_from_plain _ [] Hplain).
  - cbn [rev app enumerate enumerate_from parse_lines].
    rewrite Hm, Hg. destruct (shlex_split (c :: t)); reflexivity.
  - cbn [rev app]. intros Hnil.
    apply (f_equal (@List.length ascii)) in Hnil.
    rewrite !length_app in Hnil. simpl in Hnil.
    rewrite length_app in Hnil. simpl in Hnil. lia.
Qed.

Lemma directive_line_parsed_witness :
  forallb directive_char (py "equire 'my lib.js'") = true /\
  parse_directives (py " * = require 'my lib.js'")
  = GYield (0, [py "require"; py "my lib.js"]) GStop.
Proof.
  assert (Ht : forallb directive_char (py "equire 'my lib.js'") = true)
    by reflexivity.
  split; [exact Ht|].
  assert (Hplain : forall x,
             In x (py " " ++ py "*" ++ py " " ++ "="%char :: py " "
                   ++ "r"%char :: py "equire 'my lib.js'") ->
             x <> "010"%char /\ x <> "013"%char).
  { apply Forall_forall. repeat constructor; discriminate. }
  pose proof (directive_line_parsed (py " ") (py "*") (py " ") (py " ")
                "r"%char (py "equire 'my lib.js'")
                eq_refl (or_introl eq_refl) eq_refl eq_refl eq_refl Ht
                Hplain) as H.
  exact H.
Defined.

Section Require.
Context {E : Environment}.
Variable self : DirectivesProcessor.

(** A [require] whose target is found renders the asset that the
    environment found and appends its stripped text as one fragment;
    the environment is asked first, then the asset is built, then
    rendered. *)
Theorem require_appends_rendered_asset (p : str) (lineno : nat)
  (b : list str) (w w1 w2 w3 : World)
  (attrs : AssetAttributes) (absolute_path : str) (asset : Asset)
  (text : str) :
  env_find (new_AssetAttributes (get_relative_path self p false)) true w
  = (Ok (attrs, absolute_path), w1) ->
  new_Asset attrs absolute_path (context self) (calls self) w1
  = (Ok asset, w2) ->
  asset_str asset w2 = (Ok text, w3) ->
  process_require_directive self [p] lineno (PState b w)
  = (Ok tt, PState (b ++ [strip text]) w3) /\
  forall flag g,
    directives_loop self (GYield (lineno, [py "require"; p]) g) flag
      (PState b w)
    = directives_loop self g flag (PState (b ++ [strip text]) w3).
Proof.
  intros Hf Hn Hs.
  assert (Hreq : process_require_directive self [p] lineno (PState b w)
                 = (Ok tt, PState (b ++ [strip text]) w3)).
  { unfold process_require_directive. cbn [List.length Nat.eqb negb].
    unfold bind, try_except, of_result, getitem, call, find, get_asset.
    cbn [nth_error world body]. rewrite Hf. cbn [world body].
    rewrite Hn. cbn [world body]. rewrite Hs. reflexivity. }
  split; [exact Hreq|].
  intros flag g. cbn [directives_loop].
  unfold bind at 1, try_except, dispatch.
  unfold bind at 1, of_result, getitem. cbn [nth_error tl].
  change (str_eqb (py "require") (py "require")) with true. cbn iota.
  unfold bind at 1. rewrite Hreq. reflexivity.
Qed.

(** An exception of [environment.list] is not turned into an
    [InvalidDirective]: a [require_directory] whose listing raises
    [FileNotFound] ends the loop with that exception, and the directives
    after it are not run. *)
Theorem listing_error_aborts (arg : str) (lineno : nat) (b : list str)
  (w w' : World) (e : exn) :
  env_list (get_relative_path self arg true)
           (attr_suffix (asset_attributes self)) w = (Raise e, w') ->
  is_InvalidDirective e = false ->
  forall flag g,
    directives_loop self (GYield (lineno, [py "require_directory"; arg]) g)
      flag (PState b w)
    = (Raise e, PState b w').
Proof.
  intros Hl He flag g. cbn [directives_loop].
  unfold bind at 1, try_except, dispatch.
  unfold bind at 1, of_result, getitem. cbn [nth_error tl].
  change (str_eqb (py "require_directory") (py "require")) with false.
  change (str_eqb (py "require_directory") (py "require_directory"))
    with true.
  cbn iota. unfold bind at 1.
  unfold process_require_directory_directive.
  cbn [List.length Nat.eqb negb].
  unfold bind, of_result, getitem, call. cbn [nth_error world body].
  rewrite Hl, He. reflexivity.
Qed.
End Require.

Lemma require_appends_rendered_asset_witness :
  process_require_directive (demo_processor demo_source) [py "lib/dep"] 0
    (demo_state [py "before"] [])
  = (Ok tt, demo_state [py "before"; py "dep();"] [py "lib/dep.js"]).
Proof.
  refine (proj1 (require_appends_rendered_asset (demo_processor demo_source)
                   (py "lib/dep") 0 [py "before"] (@nil str) (@nil str)
                   (@nil str) [py "lib/dep.js"]
                   (py "lib/dep.js") (py "/srv/lib/dep.js") (py "lib/dep.js")
                   (py "dep();") _ _ _));
    vm_compute; reflexivity.
Defined.

Lemma listing_error_aborts_witness :
  directives_loop (strict_processor demo_source)
    (GYield (0, [py "require_directory"; py "missing"])
       (GYield (1, [py "require_self"]) GStop))
    false (strict_state [] [])
  = (Raise FileNotFound, strict_state [] []).
Proof.
  refine (listing_error_aborts (strict_processor demo_source)
            (py "missing") 0 [] (@nil str) (@nil str) FileNotFound _ _
            false (GYield (1, [py "require_self"]) GStop));
    vm_compute; reflexivity.
Defined.

(** ** Path resolution against the specification *)

(** ** The directory of a logical path *)

Lemma slashes_forallb (s : str) :
  slashes s <-> forallb (Ascii.eqb "/") s = true.
Proof.
  unfold slashes. rewrite forallb_forall, Forall_forall.
  split; intros H x Hx.
  - apply Ascii.eqb_eq. apply H. exact Hx.
  - apply Ascii.eqb_eq. apply H. exact Hx.
Qed.

Lemma slashes_last (sl : str) :
  sl <> [] -> slashes sl -> exists sl', sl = sl' ++ ["/"%char] /\ slashes sl'.
Proof.
  intros Hne Hs. destruct (exists_last Hne) as [sl' [z Hz]]. subst sl.
  apply Forall_app in Hs. destruct Hs as [Hs Hz].
  inversion Hz; subst. exists sl'. split; [reflexivity | exact Hs].
Qed.

Lemma lstrip_slash_run (sl rest : str) :
  slashes sl -> lstrip_slash (sl ++ rest) = lstrip_slash rest.
Proof.
  induction 1 as [|x sl Hx Hs IH]; [reflexivity|].
  subst x. cbn [app lstrip_slash]. rewrite Ascii.eqb_refl. exact IH.
Qed.

Lemma rstrip_slash_run (d : str) (c : ascii) (sl : str) :
  c <> "/"%char -> slashes sl -> rstrip_slash ((d ++ [c]) ++ sl) = d ++ [c].
Proof.
  intros Hc Hs. unfold rstrip_slash. rewrite rev_app_distr.
  rewrite lstrip_slash_run by (apply Forall_rev; exact Hs).
  rewrite rev_app_distr. cbn [rev app lstrip_slash].
  apply Ascii.eqb_neq in Hc. rewrite Hc.
  change (c :: rev d) with ([c] ++ rev d).
  rewrite rev_app_distr, rev_involutive. reflexivity.
Qed.

Lemma dirname_of_root (sl name : str) :
  sl <> [] -> slashes sl -> slash_free name -> dirname (sl ++ name) = sl.
Proof.
  intros Hne Hs Hn. unfold dirname.
  destruct (slashes_last sl Hne Hs) as [sl' [Hsl _]].
  assert (Hup : upto_last_slash (sl ++ name) = sl).
  { rewrite Hsl, <- app_assoc. cbn [app].
    apply upto_last_slash_split. exact Hn. }
  rewrite Hup. apply slashes_forallb in Hs. rewrite Hs.
  rewrite andb_false_r. reflexivity.
Qed.

Lemma dirname_of_run (d : str) (c : ascii) (sl name : str) :
  c <> "/"%char -> sl <> [] -> slashes sl -> slash_free name ->
  dirname ((d ++ [c]) ++ sl ++ name) = d ++ [c].
Proof.
  intros Hc Hne Hs Hn. unfold dirname.
  destruct (slashes_last sl Hne Hs) as [sl' [Hsl _]].
  assert (Hup : upto_last_slash ((d ++ [c]) ++ sl ++ name)
                = (d ++ [c]) ++ sl).
  { rewrite Hsl, <- (app_assoc sl'). cbn [app].
    rewrite (app_assoc (d ++ [c])).
    rewrite upto_last_slash_split by exact Hn.
    rewrite <- app_assoc. reflexivity. }
  rewrite Hup.
  assert (Hnil : str_eqb ((d ++ [c]) ++ sl) [] = false).
  { apply str_eqb_neq. destruct d; discriminate. }
  assert (Hall : forallb (Ascii.eqb "/") ((d ++ [c]) ++ sl) = false).
  { destruct (forallb (Ascii.eqb "/") ((d ++ [c]) ++ sl)) eqn:Hf;
      [|reflexivity].
    exfalso. apply Hc. symmetry. apply Ascii.eqb_eq.
    rewrite forallb_forall in Hf. apply Hf.
    apply in_or_app. left. apply in_or_app. right. left. reflexivity. }
  rewrite Hnil, Hall. cbn [negb andb].
  apply rstrip_slash_run; assumption.
Qed.

(** The directory of the specification is the one [dirname] returns. *)
Lemma directory_of_dirname (p d : str) : directory_of p d -> dirname p = d.
Proof.
  intros H. destruct H as [name Hn | sl name Hne Hs Hn
                          | d c sl name Hc Hne Hs Hn].
  - apply dirname_of_name. exact Hn.
  - apply dirname_of_root; assumption.
  - apply dirname_of_run; assumption.
Qed.

Lemma last_slash_split (p : str) :
  slash_free p \/
  exists h name, p = h ++ "/"%char :: name /\ slash_free name.
Proof.
  induction p as [|c t IH].
  - left. intros [].
  - destruct IH as [Hfree | [h [name [Ht Hn]]]].
    + destruct (ascii_dec c "/") as [Hc | Hc].
      * right. exists [], t. subst c. split; [reflexivity | exact Hfree].
      * left. intros [Hin | Hin]; [congruence | exact (Hfree Hin)].
    + right. exists (c :: h), name. subst t. split; [reflexivity | exact Hn].
Qed.

Lemma trailing_slashes_split (h : str) :
  exists d sl,
    h = d ++ sl /\ slashes sl /\
    (d = [] \/ exists d' c, d = d' ++ [c] /\ c <> "/"%char).
Proof.
  induction h as [|z h IH] using rev_ind.
  - exists [], []. repeat split; [constructor | left; reflexivity].
  - destruct (ascii_dec z "/") as [Hz | Hz].
    + destruct IH as [d [sl [Hh [Hs Hd]]]].
      exists d, (sl ++ [z]). subst h z. rewrite app_assoc.
      repeat split; [|exact Hd].
      apply Forall_app. split; [exact Hs | repeat constructor].
    + exists (h ++ [z]), []. rewrite app_nil_r.
      repeat split; [constructor|]. right. exists h, z. auto.
Qed.

(** Every logical path has a directory. *)
Lemma directory_exists (p : str) : exists d, directory_of p d.
Proof.
  destruct (last_slash_split p) as [Hfree | [h [name [Hp Hn]]]].
  - exists []. apply directory_none. exact Hfree.
  - destruct (trailing_slashes_split h) as [d [sl [Hh [Hs Hd]]]].
    assert (Hrun : slashes (sl ++ ["/"%char])).
    { apply Forall_app. split; [exact Hs | repeat constructor]. }
    assert (Hne : sl ++ ["/"%char] <> []) by (destruct sl; discriminate).
    assert (Hp' : p = d ++ (sl ++ ["/"%char]) ++ name).
    { rewrite Hp, Hh, <- !app_assoc. reflexivity. }
    destruct Hd as [Hd | [d' [c [Hd Hc]]]].
    + exists (sl ++ ["/"%char]). rewrite Hp', Hd. cbn [app].
      apply directory_root; assumption.
    + exists d. rewrite Hp', Hd.
      apply directory_some; assumption.
Qed.

Lemma dirname_is_directory (p : str) : directory_of p (dirname p).
Proof.
  destruct (directory_exists p) as [d Hd].
  rewrite (directory_of_dirname p d Hd). exact Hd.
Qed.

(** For an argument that does not begin with a slash [posixpath.join]
    places it in the directory. *)
Lemma path_join_in_directory (d arg : str) :
  startswith (py "/") arg = false -> path_join d arg = in_directory d arg.
Proof.
  intros Hs. unfold path_join, in_directory. rewrite Hs.
  destruct d as [|x d'] using rev_ind; [reflexivity|].
  clear IHd'. rewrite rev_app_distr. cbn [rev app].
  assert (Hnil : str_eqb (d' ++ [x]) [] = false).
  { apply str_eqb_neq. destruct d'; discriminate. }
  rewrite Hnil. cbn [orb].
  assert (Hend : endswith (py "/") (d' ++ [x]) = Ascii.eqb x "/").
  { unfold endswith. rewrite length_app. cbn [List.length py
      list_ascii_of_string].
    replace (List.length d' + 1 - 1) with (List.length d' + 0) by lia.
    rewrite skipn_app, Nat.add_0_r, skipn_all.
    replace (List.length d' - List.length d') with 0 by lia.
    cbn [skipn app].
    destruct (Ascii.eqb x "/") eqn:Hx.
    - apply Ascii.eqb_eq in Hx. subst x. apply str_eqb_eq. reflexivity.
    - apply str_eqb_neq. apply Ascii.eqb_neq in Hx. congruence. }
  rewrite Hend. destruct (Ascii.eqb x "/"); reflexivity.
Qed.

(** ** Lexical normalisation *)

Lemma split_slash_from_nonempty (s : str) :
  forall cur, split_slash_from cur s <> [].
Proof.
  induction s as [|c t IH]; intros cur; cbn [split_slash_from].
  - discriminate.
  - destruct (Ascii.eqb c "/"); [discriminate | apply IH].
Qed.

Lemma join_cons (sep p : str) (rest : list str) :
  rest <> [] -> join sep (p :: rest) = p ++ sep ++ join sep rest.
Proof. destruct rest; [congruence | reflexivity]. Qed.

(** Splitting at the slashes and joining again gives the text back. *)
Lemma join_split_slash_from (s : str) :
  forall cur, join (py "/") (split_slash_from cur s) = rev cur ++ s.
Proof.
  induction s as [|c t IH]; intros cur; cbn [split_slash_from].
  - cbn [join]. rewrite app_nil_r. reflexivity.
  - destruct (Ascii.eqb c "/") eqn:Hc.
    + apply Ascii.eqb_eq in Hc. subst c.
      rewrite join_cons by apply split_slash_from_nonempty.
      rewrite IH. reflexivity.
    + rewrite IH. cbn [rev]. rewrite <- app_assoc. reflexivity.
Qed.

Lemma join_split_slash (s : str) : join (py "/") (split_slash s) = s.
Proof. apply (join_split_slash_from s []). Qed.

Lemma norm_comps_app (i : nat) (l1 l2 : list str) :
  forall acc,
    norm_comps i acc (l1 ++ l2) = norm_comps i (norm_comps i acc l1) l2.
Proof.
  induction l1 as [|comp l1 IH]; intros acc; [reflexivity|].
  cbn [app norm_comps].
  destruct (str_eqb comp [] || str_eqb comp (py ".")); [apply IH|].
  destruct (negb (str_eqb comp (py ".."))
            || (i =? 0) && match acc with [] => true | _ => false end
            || match acc with
               | [] => false
               | _ => str_eqb (last acc []) (py "..")
               end); [apply IH|].
  destruct acc; apply IH.
Qed.

(** A name and the [..] after it leave the list of the loop as it was. *)
Lemma norm_comps_parent (i : nat) (acc : list str) (c : str)
  (l : list str) :
  clean_component c -> c <> py ".." ->
  norm_comps i acc (c :: py ".." :: l) = norm_comps i acc l.
Proof.
  intros [Hne Hdot] Hdd.
  apply str_eqb_neq in Hne, Hdot, Hdd.
  cbn [norm_comps]. rewrite Hne, Hdot, Hdd. cbn [negb orb].
  assert (H1 : str_eqb (py "..") [] = false) by reflexivity.
  assert (H2 : str_eqb (py "..") (py ".") = false) by reflexivity.
  assert (H3 : str_eqb (py "..") (py "..") = true) by reflexivity.
  rewrite H1, H2, H3. cbn [negb orb].
  destruct (acc ++ [c]) as [|a l'] eqn:Ha;
    [destruct acc; discriminate|].
  rewrite andb_false_r. cbn [orb]. rewrite <- Ha.
  rewrite last_last, Hdd, removelast_last. reflexivity.
Qed.

(** A step of collapsing does not change what the loop returns. *)
Lemma collapse_norm_comps (i : nat) (l l' : list str) :
  collapse i l l' -> norm_comps i [] l = norm_comps i [] l'.
Proof.
  intros H. destruct H as [l1 l2 | l1 l2 | l1 c l2 Hc Hdd | l2 Hi].
  - rewrite !norm_comps_app. reflexivity.
  - rewrite !norm_comps_app. reflexivity.
  - rewrite !norm_comps_app. apply norm_comps_parent; assumption.
  - cbn [norm_comps].
    assert (H1 : str_eqb (py "..") [] = false) by reflexivity.
    assert (H2 : str_eqb (py "..") (py ".") = false) by reflexivity.
    assert (H3 : str_eqb (py "..") (py "..") = true) by reflexivity.
    rewrite H1, H2, H3. cbn [negb orb].
    assert (Hz : (i =? 0) = false) by (apply Nat.eqb_neq; lia).
    rewrite Hz. reflexivity.
Qed.

(** The normal form that collapsing reaches is the list of the loop. *)
Lemma collapses_norm_comps (i : nat) (segs comps : list str) :
  collapses i segs comps -> normalised i comps ->
  norm_comps i [] segs = comps.
Proof.
  induction 1 as [l | l1 l2 l3 Hstep Hrest IH]; intros Hn.
  - apply (norm_comps_fixed i l []). exact Hn.
  - rewrite (collapse_norm_comps i l1 l2 Hstep). apply IH. exact Hn.
Qed.

Lemma collapses_trans (i : nat) (l1 l2 l3 : list str) :
  collapses i l1 l2 -> collapses i l2 l3 -> collapses i l1 l3.
Proof.
  induction 1 as [l | a b c Hstep Hrest IH]; intros H; [exact H|].
  eapply collapses_step; [exact Hstep | apply IH; exact H].
Qed.

(** The loop of [normpath] only collapses. *)
Lemma norm_comps_collapses (i : nat) (comps : list str) :
  forall acc,
    Forall clean_component acc ->
    collapses i (acc ++ comps) (norm_comps i acc comps).
Proof.
  induction comps as [|comp comps IH]; intros acc Hacc.
  - rewrite app_nil_r. apply collapses_refl.
  - cbn [norm_comps].
    destruct (str_eqb comp []) eqn:He.
    { apply str_eqb_eq in He. subst comp. cbn [orb].
      eapply collapses_step; [apply collapse_empty | apply IH; exact Hacc]. }
    destruct (str_eqb comp (py ".")) eqn:Hd.
    { apply str_eqb_eq in Hd. subst comp. cbn [orb].
      eapply collapses_step; [apply collapse_dot | apply IH; exact Hacc]. }
    cbn [orb]. apply str_eqb_neq in He, Hd.
    assert (Happ : collapses i (acc ++ comp :: comps)
                     (norm_comps i (acc ++ [comp]) comps)).
    { replace (acc ++ comp :: comps) with ((acc ++ [comp]) ++ comps)
        by (rewrite <- app_assoc; reflexivity).
      apply IH. apply Forall_app. split; [exact Hacc|].
      repeat constructor; assumption. }
    destruct (str_eqb comp (py "..")) eqn:Hdd; cbn [negb orb];
      [|exact Happ].
    apply str_eqb_eq in Hdd. subst comp.
    destruct acc as [|a acc'] eqn:Ha.
    + rewrite andb_true_r, orb_false_r.
      destruct (i =? 0) eqn:Hi; [exact Happ|].
      apply Nat.eqb_neq in Hi.
      eapply collapses_step; [apply collapse_root; lia|].
      apply (IH [] Hacc).
    + rewrite andb_false_r. cbn [orb]. rewrite <- Ha in *.
      assert (Hne : acc <> []) by (rewrite Ha; discriminate).
      clear Ha a acc'.
      destruct (str_eqb (last acc []) (py "..")) eqn:Hlast;
        [exact Happ|].
      apply str_eqb_neq in Hlast.
      assert (Hsplit : acc = removelast acc ++ [last acc []])
        by (apply app_removelast_last; exact Hne).
      assert (Hclean : Forall clean_component (removelast acc)
                       /\ clean_component (last acc [])).
      { rewrite Hsplit in Hacc. apply Forall_app in Hacc.
        destruct Hacc as [H1 H2]. split; [exact H1|].
        inversion H2; assumption. }
      destruct Hclean as [Hrest Hlastc].
      assert (Hgoal : collapses i (acc ++ py ".." :: comps)
                        (norm_comps i (removelast acc) comps)).
      { rewrite Hsplit at 1. rewrite <- app_assoc. cbn [app].
        eapply collapses_step;
          [apply collapse_parent; assumption | apply IH; exact Hrest]. }
      destruct acc; [congruence | exact Hgoal].
Qed.

(** The number of initial slashes that [normpath] works out. *)
Lemma initial_slashes_root (p : str) :
  (if startswith (py "/") p then
     if startswith (py "//") p && negb (startswith (py "///") p)
     then 2 else 1
   else 0) = root_slashes p.
Proof.
  unfold startswith, root_slashes.
  destruct p as [|a [|b [|c t]]]; cbn [py list_ascii_of_string List.length
    firstn leading_slashes].
  - reflexivity.
  - destruct (Ascii.eqb_spec a "/") as [-> | Ha]; [reflexivity|].
    assert (H : str_eqb [a] ["/"%char] = false)
      by (apply str_eqb_neq; congruence).
    rewrite H. reflexivity.
  - destruct (Ascii.eqb_spec a "/") as [-> | Ha].
    + destruct (Ascii.eqb_spec b "/") as [-> | Hb]; [reflexivity|].
      assert (H : str_eqb ["/"%char; b] ["/"%char; "/"%char] = false)
        by (apply str_eqb_neq; congruence).
      rewrite H. reflexivity.
    + assert (H : str_eqb [a] ["/"%char] = false)
        by (apply str_eqb_neq; congruence).
      rewrite H. reflexivity.
  - destruct (Ascii.eqb_spec a "/") as [-> | Ha].
    + destruct (Ascii.eqb_spec b "/") as [-> | Hb].
      * destruct (Ascii.eqb_spec c "/") as [-> | Hc].
        -- cbn [leading_slashes]. destruct (leading_slashes t);
             reflexivity.
        -- assert (H : str_eqb ["/"%char; "/"%char; c]
                         ["/"%char; "/"%char; "/"%char] = false)
             by (apply str_eqb_neq; congruence).
           rewrite H. reflexivity.
      * assert (H : str_eqb ["/"%char; b] ["/"%char; "/"%char] = false)
          by (apply str_eqb_neq; congruence).
        rewrite H. reflexivity.
    + assert (H : str_eqb [a] ["/"%char] = false)
        by (apply str_eqb_neq; congruence).
      rewrite H. reflexivity.
Qed.

(** The last line of [normpath] on normalised components. *)
Lemma render_normalised (i : nat) (comps : list str) :
  Forall clean_component comps ->
  (if str_eqb (repeat "/"%char i ++ join (py "/") comps) []
   then py "."
   else repeat "/"%char i ++ join (py "/") comps) = render i comps.
Proof.
  intros Hc. destruct i as [|i].
  - destruct comps as [|c rest]; [reflexivity|].
    assert (Hne : str_eqb (repeat "/"%char 0 ++ join (py "/") (c :: rest))
                    [] = false).
    { apply str_eqb_neq. inversion Hc as [|x l [Hx _] Hl]; subst.
      destruct c; [congruence|]. destruct rest; discriminate. }
    rewrite Hne. reflexivity.
  - assert (Hne : str_eqb (repeat "/"%char (S i) ++ join (py "/") comps)
                    [] = false)
      by (apply str_eqb_neq; discriminate).
    rewrite Hne. destruct comps; reflexivity.
Qed.

Lemma join_empty_segments (segs : list str) :
  join (py "/") segs = [] -> segs = [] \/ segs = [[]].
Proof.
  destruct segs as [|s rest]; [left; reflexivity|]. intros H. right.
  destruct rest as [|r rest'].
  - cbn [join] in H. rewrite H. reflexivity.
  - rewrite join_cons in H by discriminate.
    destruct s; discriminate H.
Qed.

(** [normpath] returns the normal form of the specification, and nothing
    else is one. *)
Lemma normal_form_normpath (text result : str) :
  normal_form_of text result <-> result = normpath text.
Proof.
  split.
  - intros [segs [comps [Hj [Hfree [Hc [Hn Hr]]]]]].
    pose proof (collapses_norm_comps _ _ _ Hc Hn) as Hu.
    subst result. unfold normpath.
    destruct (str_eqb text []) eqn:Ht.
    + apply str_eqb_eq in Ht. rewrite Ht in Hj, Hu |- *.
      destruct (join_empty_segments segs Hj) as [Hs | Hs];
        rewrite Hs in Hu; cbn in Hu; rewrite <- Hu; reflexivity.
    + apply str_eqb_neq in Ht.
      assert (Hne : segs <> []).
      { intros Hs. apply Ht. rewrite <- Hj, Hs. reflexivity. }
      assert (Hsp : split_slash text = segs).
      { rewrite <- Hj. apply split_slash_join; assumption. }
      rewrite initial_slashes_root. cbv zeta. rewrite Hsp, Hu.
      symmetry. apply render_normalised. apply Hn.
  - intros ->. unfold normal_form_of, normpath.
    destruct (str_eqb text []) eqn:Ht.
    + apply str_eqb_eq in Ht. subst text. exists [], [].
      split; [reflexivity|]. split; [constructor|].
      split; [apply collapses_refl|].
      split; [apply empty_normalised | reflexivity].
    + rewrite initial_slashes_root. cbv zeta.
      exists (split_slash text),
             (norm_comps (root_slashes text) [] (split_slash text)).
      assert (Hn : normalised (root_slashes text)
                     (norm_comps (root_slashes text) []
                        (split_slash text)))
        by apply norm_comps_normalised, empty_normalised.
      split; [apply join_split_slash|].
      split; [apply split_slash_from_free; intros []|].
      split; [apply (norm_comps_collapses _ _ []); constructor|].
      split; [exact Hn|].
      apply render_normalised. apply Hn.
Qed.

(** The resolution of the specification is the path that [dirname],
    [posixpath.join] without its absolute case and [normpath] give. *)
Lemma resolution_of_normpath (p arg result : str) :
  resolution_of p arg result
  <-> result = normpath (in_directory (dirname p) arg).
Proof.
  unfold resolution_of. split.
  - intros [d [Hd Hn]]. rewrite (directory_of_dirname p d Hd).
    apply normal_form_normpath. exact Hn.
  - intros ->. exists (dirname p).
    split; [apply dirname_is_directory|].
    apply normal_form_normpath. reflexivity.
Qed.

Section Resolved.
Context {E : Environment}.
Variable self : DirectivesProcessor.

(** C7.  For a path argument that does not begin with a slash the
    resolved path is the argument joined to the directory of the logical
    path of the asset, lexically normalised: the segments of the joined
    text collapse to components without empty segments and dots, with
    [..] only where nothing is left to go up from.  For a directory this
    is the path that is listed; for a file the extensions of the asset
    follow it, and that is the path that is looked up. *)
Theorem relative_path_resolution (arg : str) :
  startswith (py "/") arg = false ->
  resolution_of (path self) arg (get_relative_path self arg true) /\
  get_relative_path self arg false
  = get_relative_path self arg true
    ++ List.concat (attr_extensions (asset_attributes self)) /\
  find self arg
  = env_find (new_AssetAttributes
                (get_relative_path self arg true
                 ++ List.concat (attr_extensions (asset_attributes self))))
             true.
Proof.
  intros Hs. split; [|split; reflexivity].
  apply resolution_of_normpath. unfold get_relative_path.
  rewrite (path_join_in_directory _ _ Hs). reflexivity.
Qed.
End Resolved.

Lemma relative_path_resolution_witness :
  startswith (py "/") (py "../lib/./dep") = false /\
  resolution_of (py "js/app/main.js") (py "../lib/./dep") (py "js/lib/dep")
  /\
  get_relative_path (@init demo_env (py "js/app/main.js") [] tt tt)
    (py "../lib/./dep") false = py "js/lib/dep.js".
Proof.
  split; [reflexivity|].
  destruct (relative_path_resolution
              (@init demo_env (py "js/app/main.js") [] tt tt)
              (py "../lib/./dep") eq_refl) as [Hr [Hf _]].
  split; [exact Hr | exact Hf].
Defined.

(** An argument that begins with a slash is a directive argument like any
    other, and it is not resolved in the directory of the asset: the
    directory is dropped. *)
Lemma absolute_argument_leaves_directory :
  parse_directives (py "//= require /x")
  = GYield (0, [py "require"; py "/x"]) GStop /\
  get_relative_path (@init demo_env (py "js/app/main.js") [] tt tt)
    (py "/x") true = py "/x" /\
  resolution_of (py "js/app/main.js") (py "/x") (py "js/app/x") /\
  ~ resolution_of
      (path (@init demo_env (py "js/app/main.js") [] tt tt)) (py "/x")
      (get_relative_path (@init demo_env (py "js/app/main.js") [] tt tt)
         (py "/x") true).
Proof.
  split; [vm_compute; reflexivity|].
  split; [vm_compute; reflexivity|].
  split.
  - apply resolution_of_normpath. vm_compute. reflexivity.
  - intros H. apply resolution_of_normpath in H.
    vm_compute in H. discriminate H.
Qed.
